(** * mcp-server: a verified model of the registry, the gateway and the
      Superset session client

    The development follows the Go sources package by package.

    - [Core]        internal/core: service types, errors, the global
                    factory registry and its cached listing of kinds.
    - [Multiplexer] internal/multiplexer/server.go: the routing table,
                    [AddService], [RemoveService], [Start] and the
                    dispatch of requests through the mux built by [Start].
    - [Addresses]   internal/multiplexer/server.go: the addresses of the
                    host shown on the status page, and the filter for
                    container and virtual networks.
    - [Common]      internal/common/response.go: the tool-call envelopes.
    - [Config]      main.go and internal/common/response.go: the
                    configuration, its defaults and its validation.
    - [Superset]    internal/superset: CSRF cache, login, database listing
                    and SQL execution, over a scripted HTTP backend.
    - [Locking]     the same client methods as an interleaving semantics
                    over the client's [sync.RWMutex].

    Part I holds the definitions, Part II the theorems. *)

From stdpp Require Import gmap strings list fin_maps pretty.
From Stdlib Require Import ZArith Lia.

Set Warnings "-register-all,-clear-no-such-hyp".

#[local] Open Scope string_scope.
#[local] Open Scope list_scope.

(* ===================================================================== *)
(** * Part I: the embedding                                               *)
(* ===================================================================== *)

(* --------------------------------------------------------------------- *)
(** ** internal/core                                                      *)
(* --------------------------------------------------------------------- *)

Module Core.

(** [type ServiceType string] *)
Definition ServiceType : Type := string.

Definition ServiceTypePrometheus : ServiceType := "prometheus".
Definition ServiceTypeSuperset : ServiceType := "superset".

(** [time.Duration]: a count of nanoseconds. *)
Definition Duration : Type := Z.

(** The two accessors shared by the [ServiceConfig] and [Service]
    interfaces. *)
Class HasType (A : Type) := GetType : A -> ServiceType.
Class HasEndpoint (A : Type) := GetEndpoint : A -> string.

(** [ServiceConfig]: a configuration value is observed only through its
    four interface methods, so it is the record of their results
    ([Validate] returns [None] for a nil error). *)
Record ServiceConfig : Type := mkServiceConfig {
  configType : ServiceType;
  configEndpoint : string;
  IsEnabled : bool;
  Validate : option string
}.

#[export] Instance ServiceConfig_type : HasType ServiceConfig := configType.
#[export] Instance ServiceConfig_endpoint : HasEndpoint ServiceConfig := configEndpoint.

(** [Service]: an adapter.  [serviceAddr] is the identity of the Go object
    behind the interface value (two adapters with the same type and
    endpoint are still different objects); [GetServer] is the handle of
    the [*mcp.Server] the adapter answers with. *)
Record Service : Type := mkService {
  serviceAddr : nat;
  serviceType : ServiceType;
  serviceEndpoint : string;
  GetServer : nat
}.

#[export] Instance Service_type : HasType Service := serviceType.
#[export] Instance Service_endpoint : HasEndpoint Service := serviceEndpoint.

#[export] Instance Service_eq_dec : EqDecision Service.
Proof. solve_decision. Defined.

#[export] Instance ServiceConfig_eq_dec : EqDecision ServiceConfig.
Proof. solve_decision. Defined.

(** The error values of the package that the registry can return.
    [errorString] stands for errors built by [fmt.Errorf]. *)
Inductive error : Type :=
| UnsupportedServiceError (t : ServiceType)
| ServiceCreationError (t : ServiceType) (Err : option error)
| errorString (msg : string).

Definition NewUnsupportedServiceError (serviceType : ServiceType) : error :=
  UnsupportedServiceError serviceType.

Definition NewServiceCreationError (serviceType : ServiceType) (err : error) : error :=
  ServiceCreationError serviceType (Some err).

(** [Error()] of the three error kinds. *)
Fixpoint Error (e : error) : string :=
  match e with
  | UnsupportedServiceError t => "不支持的服务类型: " +:+ t
  | ServiceCreationError t cause =>
      "创建服务失败 [" +:+ t +:+ "]: " +:+
      match cause with Some c => Error c | None => "" end
  | errorString msg => msg
  end.

(** [type ServiceFactory func(config ServiceConfig, timeout time.Duration)
    (Service, error)].  A Go function value has no observable identity, so
    the model tags each factory with [factoryName] to tell in the call log
    which one ran; [construct] is what the call returns. *)
Record ServiceFactory : Type := mkFactory {
  factoryName : nat;
  construct : ServiceConfig -> Duration -> Service + error
}.

(** One entry of the call log: factory [invoked] ran on these arguments. *)
Record Invocation : Type := mkInvocation {
  invoked : nat;
  invokedConfig : ServiceConfig;
  invokedTimeout : Duration
}.

(** Slices of [ServiceType] live in a heap of backing arrays: a slice value
    is [None] (the nil slice) or the address of its array.  Every slice of
    this package has its length equal to its capacity, so the array is the
    list of its elements. *)
Definition loc : Type := positive.
Definition slice : Type := option loc.

(** The package-level variables [serviceFactories], [supportedTypesCache]
    and [cacheValid] ([factoriesMutex] guards them and has no content of
    its own in a sequential run). *)
Record Globals : Type := mkGlobals {
  serviceFactories : gmap ServiceType ServiceFactory;
  supportedTypesCache : slice;
  cacheValid : bool
}.

(** The state of the process as far as the registry is concerned. *)
Record State : Type := mkState {
  globals : Globals;
  heap : gmap loc (list ServiceType);
  calls : list Invocation
}.

(** The state after package initialisation, before any [init()] of a
    service package has registered a factory. *)
Definition initial : State :=
  mkState (mkGlobals ∅ None false) ∅ [].

(** [make([]ServiceType, n)] followed by filling it with [xs]. *)
Definition alloc (xs : list ServiceType) (h : gmap loc (list ServiceType))
  : loc * gmap loc (list ServiceType) :=
  let l := fresh (dom h) in (l, <[l := xs]> h).

(** The elements of a slice. *)
Definition elements_of (st : State) (s : slice) : list ServiceType :=
  match s with
  | None => []
  | Some l => default [] (heap st !! l)
  end.

Definition RegisterServiceFactory (serviceType : ServiceType)
  (factory : ServiceFactory) (st : State) : State :=
  let g := globals st in
  mkState
    (mkGlobals (<[serviceType := factory]> (serviceFactories g))
               (supportedTypesCache g)
               false)
    (heap st) (calls st).

(** Calling a factory value: the call is logged and its result returned. *)
Definition call (factory : ServiceFactory) (config : ServiceConfig)
  (timeout : Duration) (st : State) : (Service + error) * State :=
  (construct factory config timeout,
   mkState (globals st) (heap st)
           (calls st ++ [mkInvocation (factoryName factory) config timeout])).

Definition CreateService (config : ServiceConfig) (timeout : Duration)
  (st : State) : (Service + error) * State :=
  match serviceFactories (globals st) !! GetType config with
  | None => (inr (NewUnsupportedServiceError (GetType config)), st)
  | Some factory => call factory config timeout st
  end.

(** [GetSupportedServiceTypes].  Go leaves the order in which [range]
    visits a map unspecified; [visit] is the order the runtime picks for
    the given key set. *)
Definition GetSupportedServiceTypes
  (visit : list ServiceType -> list ServiceType) (st : State) : slice * State :=
  let g := globals st in
  match cacheValid g, supportedTypesCache g with
  | true, Some c =>
      (* result := make(..., len(cache)); copy(result, cache) *)
      let '(result, h) := alloc (default [] (heap st !! c)) (heap st) in
      (Some result, mkState g h (calls st))
  | _, _ =>
      (* types := make(..., 0, len(serviceFactories)); append each key *)
      let keys := visit (map fst (map_to_list (serviceFactories g))) in
      let '(types, h1) := alloc keys (heap st) in
      (* supportedTypesCache = make(..., len(types)); copy *)
      let '(cache, h2) := alloc keys h1 in
      (Some types,
       mkState (mkGlobals (serviceFactories g) (Some cache) true) h2 (calls st))
  end.

Definition IsServiceTypeSupported (serviceType : ServiceType) (st : State) : bool :=
  match serviceFactories (globals st) !! serviceType with
  | Some _ => true
  | None => false
  end.

(** The legacy [Registry] struct: its methods forward to the package
    functions. *)
Module Registry.
Definition Register := RegisterServiceFactory.
Definition Create := CreateService.
Definition GetSupportedTypes := GetSupportedServiceTypes.
End Registry.

(** What a caller can do to a slice it was handed: [s[i] = v].  An index
    out of range panics ([None]). *)
Definition SliceSet (l : loc) (i : nat) (v : ServiceType) (st : State)
  : option State :=
  match heap st !! l with
  | Some xs =>
      if decide (i < length xs)%nat
      then Some (mkState (globals st) (<[l := <[i := v]> xs]> (heap st)) (calls st))
      else None
  | None => None
  end.

(** A caller scribbling over the slice at [l]: the writes are applied in
    order, a panicking write leaves the slice as it was. *)
Fixpoint scribble (l : loc) (writes : list (nat * ServiceType)) (st : State) : State :=
  match writes with
  | [] => st
  | (i, v) :: rest =>
      match SliceSet l i v st with
      | Some st' => scribble l rest st'
      | None => scribble l rest st
      end
  end.

(** Every slice the registry holds points into the heap. *)
Definition well_formed (st : State) : Prop :=
  forall c, supportedTypesCache (globals st) = Some c -> is_Some (heap st !! c).

End Core.

(* --------------------------------------------------------------------- *)
(** ** internal/multiplexer/server.go                                     *)
(* --------------------------------------------------------------------- *)

Module Multiplexer.
Import Core.

(** HTTP server configuration, in nanoseconds and bytes. *)
Definition second : Duration := 1000000000%Z.
Definition readTimeout : Duration := (30 * second)%Z.
Definition writeTimeout : Duration := (30 * second)%Z.
Definition idleTimeout : Duration := (120 * second)%Z.
Definition maxHeaderBytes : Z := Z.shiftl 1 20.

Definition rootPath : string := "/".

Record ServiceInfo : Type := mkServiceInfo {
  Type_ : ServiceType;
  Endpoint : string;
  Available : bool;
  Tools : list string;
  Description : string
}.

(** What the mux can hold: the streamable handler built in [Start], whose
    [getServer] closure has captured the loop variable [service], and the
    method value [s.handleRoot]. *)
Inductive Handler : Type :=
| StreamableHTTPHandler (service : Service)
| handleRoot.

(** [http.ServeMux] is described here for the patterns for which
    [literal] holds, registered beside [/], and for the request paths for
    which [clean] holds.  Such a pattern matches a request exactly when
    the path is the pattern, and [/] matches every path no other pattern
    does.  (A pattern ending in a slash would match a whole subtree, a
    brace would open a wildcard, a space or a tab would split off a
    method, a pattern not beginning with a slash would name a host;
    segments are compared after unescaping; a request whose path is not
    clean is answered with a redirect to the cleaned path.) *)
Abbreviation ServeMux := (gmap string Handler).

Definition slash : Ascii.ascii := Ascii.ascii_of_nat 47.

(** The byte [c] occurs in [s]. *)
Fixpoint holds (c : Ascii.ascii) (s : string) : bool :=
  match s with
  | EmptyString => false
  | String a rest => Ascii.eqb a c || holds c rest
  end.

Fixpoint endsInSlash (s : string) : bool :=
  match s with
  | EmptyString => false
  | String c EmptyString => Ascii.eqb c slash
  | String _ rest => endsInSlash rest
  end.

(** A pattern that is a plain path: it begins with a slash, does not end
    with one, and holds no space, tab, brace or percent sign.  The
    default endpoints [/prometheus/mcp] and [/superset/mcp] are such. *)
Definition literal (pattern : string) : bool :=
  String.prefix "/" pattern && negb (endsInSlash pattern) &&
  negb (holds (Ascii.ascii_of_nat 32) pattern) &&
  negb (holds (Ascii.ascii_of_nat 9) pattern) &&
  negb (holds (Ascii.ascii_of_nat 123) pattern) &&
  negb (holds (Ascii.ascii_of_nat 37) pattern).

(** The parts of [s] between slashes, [cur] being the part under way. *)
Fixpoint segments (cur s : string) : list string :=
  match s with
  | EmptyString => [cur]
  | String c rest =>
      if Ascii.eqb c slash then cur :: segments "" rest
      else segments (cur +:+ String c "") rest
  end.

Definition properSegment (seg : string) : bool :=
  negb (bool_decide (seg = "")) && negb (bool_decide (seg = ".")) &&
  negb (bool_decide (seg = "..")).

Fixpoint cleanSegments (segs : list string) : bool :=
  match segs with
  | [] => true
  | [last] => bool_decide (last = "") || properSegment last
  | seg :: rest => properSegment seg && cleanSegments rest
  end.

(** A request path that the mux matches as it is: it begins with a slash,
    has no empty segment (but may end with a slash), no segment that is a
    dot or two dots, and no percent sign.  These are the escaped paths
    that the path cleaning of [net/http] leaves unchanged and that read
    the same unescaped. *)
Definition clean (path : string) : bool :=
  match segments "" path with
  | first :: next :: more =>
      bool_decide (first = "") && cleanSegments (next :: more) &&
      negb (holds (Ascii.ascii_of_nat 37) path)
  | _ => false
  end.

(** [mux.Handle]: panics ([None]) on an empty pattern and on a pattern
    that is already registered; among patterns for which [literal] holds,
    and [/], these are the only panics. *)
Definition Handle (pattern : string) (handler : Handler) (mux : option ServeMux)
  : option ServeMux :=
  match mux with
  | None => None
  | Some m =>
      if decide (pattern = "") then None
      else match m !! pattern with
           | Some _ => None
           | None => Some (<[pattern := handler]> m)
           end
  end.

Record HttpServer : Type := mkHttpServer {
  Addr : string;
  Handler_ : ServeMux;
  ReadTimeout : Duration;
  WriteTimeout : Duration;
  IdleTimeout : Duration;
  MaxHeaderBytes : Z
}.

(** [Server]: the routing table [services], the listener [server] (nil
    until [Start]), and the fields used for log lines. *)
Record Server : Type := mkServer {
  services : gmap string Service;
  server : option HttpServer;
  port : string;
  serverAddresses : list string
}.

(** Effects outside the [Server] value: calls of an adapter's [Close] and
    lines written with [log.Printf]. *)
Inductive Event : Type :=
| EvClose (service : Service)
| EvLog (line : string).

Record Proc : Type := mkProc {
  self : Server;
  events : list Event
}.

(** [NewServer]; [addresses] is what [getCachedServerAddresses] finds on
    the host. *)
Definition NewServer (port : string) (addresses : list string) : Proc :=
  mkProc (mkServer ∅ None port addresses) [].

Fixpoint endpointFormatting_rest (addresses : list string) (port endpoint : string)
  : string :=
  match addresses with
  | [] => ""
  | addr :: rest =>
      ", " +:+ "http://" +:+ addr +:+ ":" +:+ port +:+ endpoint +:+
      endpointFormatting_rest rest port endpoint
  end.

Definition endpointFormatting (addresses : list string) (port endpoint : string)
  : string :=
  match addresses with
  | [] => ""
  | addr :: rest =>
      "http://" +:+ addr +:+ ":" +:+ port +:+ endpoint +:+
      endpointFormatting_rest rest port endpoint
  end.

Definition AddService (service : Service) (p : Proc) : Proc :=
  let endpoint := GetEndpoint service in
  let serviceType := GetType service in
  let s := self p in
  mkProc (mkServer (<[endpoint := service]> (services s))
                   (server s) (port s) (serverAddresses s))
         (events p ++ [EvLog ("✓ 注册服务: " +:+ serviceType +:+ " -> " +:+ endpoint)]).

Definition RemoveService (endpoint : string) (p : Proc) : Proc :=
  let s := self p in
  match services s !! endpoint with
  | Some service =>
      mkProc (mkServer (delete endpoint (services s))
                       (server s) (port s) (serverAddresses s))
             (events p ++ [EvClose service; EvLog ("移除服务: " +:+ endpoint)])
  | None => p
  end.

(** The first loop of [Start] over [servicesCopy]: one handler per
    endpoint, each holding the service the table had at that endpoint when
    the copy was taken.  (The go-sdk requires a Go version in which every
    iteration of a [range] loop has its own [service] variable.) *)
Definition mountAll (servicesCopy : gmap string Service) : option ServeMux :=
  map_fold (fun endpoint service mux =>
              Handle endpoint (StreamableHTTPHandler service) mux)
           (Some ∅) servicesCopy.

(** The lines [Start] logs: one per endpoint, in the order the map is
    iterated, then the listening address. *)
Definition startLog (s : Server) (servicesCopy : gmap string Service) : list Event :=
  map (fun '(endpoint, service) =>
         EvLog (GetType service +:+ " MCP端点: " +:+
                endpointFormatting (serverAddresses s) (port s) endpoint))
      (map_to_list servicesCopy)
  ++ [EvLog ("服务器监听地址: " +:+
             endpointFormatting (serverAddresses s) (port s) "")].

(** [Start], up to the point where [ListenAndServe] begins to serve:
    [None] is a panic of [mux.Handle].  The requests served from then on
    are given by [ServeHTTP] below. *)
Definition Start (p : Proc) : option Proc :=
  let s := self p in
  let servicesCopy := services s in
  match Handle rootPath handleRoot (mountAll servicesCopy) with
  | None => None
  | Some mux =>
      Some (mkProc
              (mkServer (services s)
                        (Some (mkHttpServer (":" +:+ port s) mux readTimeout
                                 writeTimeout idleTimeout maxHeaderBytes))
                        (port s) (serverAddresses s))
              (events p ++ startLog s servicesCopy))
  end.

Definition getToolsForService (serviceType : ServiceType) : list string :=
  if decide (serviceType = ServiceTypePrometheus) then
    [ "prometheus_query - 执行即时查询";
      "prometheus_query_range - 执行范围查询";
      "prometheus_targets - 获取监控目标";
      "prometheus_status - 检查服务状态";
      "prometheus_common_metrics - 查询常用指标";
      "prometheus_list_metrics - 获取所有指标" ]
  else if decide (serviceType = ServiceTypeSuperset) then
    [ "superset_list_databases - 获取数据库列表";
      "superset_execute_sql - 执行SQL查询";
      "superset_execute_sql_with_schema - 在指定schema中执行SQL";
      "superset_status - 检查服务状态" ]
  else [].

Definition getDescriptionForService (serviceType : ServiceType) : string :=
  if decide (serviceType = ServiceTypePrometheus) then "提供Prometheus监控数据查询功能"
  else if decide (serviceType = ServiceTypeSuperset) then "提供Superset数据库查询和管理功能"
  else "MCP服务".

(** [GetServiceInfo] reads the live table (in the iteration order of the
    map, which Go leaves unspecified). *)
Definition GetServiceInfo (s : Server) : list ServiceInfo :=
  map (fun '(endpoint, service) =>
         mkServiceInfo (GetType service) endpoint true
                       (getToolsForService (GetType service))
                       (getDescriptionForService (GetType service)))
      (map_to_list (services s)).

(** What a request is answered with. *)
Inductive Response : Type :=
| ToAdapter (service : Service) (mcpServer : nat)
| StatusPage (infos : list ServiceInfo)
| NotFound.

(** The handler the mux selects for a request whose path is [clean],
    among patterns for which [literal] holds, and [/]. *)
Definition match_ (mux : ServeMux) (path : string) : option Handler :=
  match mux !! path with
  | Some h => Some h
  | None => mux !! rootPath
  end.

(** Serving one request with the listener running; [path] is the path
    of the request as it is written in the request line (for a [clean]
    path this is also [r.URL.Path]).  The selected handler runs; the
    streamable handler calls its [getServer] closure, that is [GetServer]
    of the captured service; [handleRoot] renders the status page for [/]
    and answers 404 otherwise.  [None]: no listener. *)
Definition ServeHTTP (p : Proc) (path : string) : option Response :=
  match server (self p) with
  | None => None
  | Some srv =>
      match match_ (Handler_ srv) path with
      | Some (StreamableHTTPHandler service) =>
          Some (ToAdapter service (GetServer service))
      | Some handleRoot =>
          if decide (path = rootPath)
          then Some (StatusPage (GetServiceInfo (self p)))
          else Some NotFound
      | None => Some NotFound
      end
  end.

(** Calls made on the gateway while it is serving. *)
Inductive Mutation : Type :=
| Add (service : Service)
| Remove (endpoint : string).

Definition mutate1 (p : Proc) (m : Mutation) : Proc :=
  match m with
  | Add service => AddService service p
  | Remove endpoint => RemoveService endpoint p
  end.

Definition mutate (ms : list Mutation) (p : Proc) : Proc := foldl mutate1 p ms.

(** The adapters on which [Close] was called, in order. *)
Definition closed (evs : list Event) : list Service :=
  omap (fun e => match e with EvClose s => Some s | EvLog _ => None end) evs.


(** [Shutdown]: [Close] is called on every adapter of the table, in the
    order the map is iterated (what a [Close] returns is dropped); then the
    listener, if [Start] has created one, is shut down and what
    [http.Server.Shutdown] returns is returned.  [httpShutdown] is that
    library call; [None] is a nil error. *)
Definition Shutdown (httpShutdown : HttpServer -> option string) (p : Proc)
  : option string * Proc :=
  let s := self p in
  let servicesCopy := (map_to_list (services s)).*2 in
  let p' := mkProc s (events p ++ (EvClose <$> servicesCopy)) in
  match server s with
  | Some srv => (httpShutdown srv, p')
  | None => (None, p')
  end.

(** [strings.Join] *)
Fixpoint Join (elems : list string) (sep : string) : string :=
  match elems with
  | [] => ""
  | [x] => x
  | x :: rest => x +:+ sep +:+ Join rest sep
  end.

(** The address lines of the first revision of the gateway
    ([Multiplexer.Start] in src/unnamed/part_002): one formatted URL per
    address, joined.  [path] is [/superset/mcp], [/prometheus/mcp] or
    empty there. *)
Definition legacyEndpoints (serverAddresses : list string) (port path : string)
  : string :=
  Join ((fun addr => "http://" +:+ addr +:+ ":" +:+ port +:+ path) <$> serverAddresses)
       ", ".

End Multiplexer.

(* --------------------------------------------------------------------- *)
(** ** internal/multiplexer/server.go: the addresses of the host          *)
(* --------------------------------------------------------------------- *)

Module Addresses.

(** [net.IP] and [net.IPMask]: byte slices, a byte being a [Z] below 256;
    the nil slice is the empty list. *)
Definition IP : Type := list Z.
Definition IPMask : Type := list Z.

Definition IPv4len : nat := 4.
Definition IPv6len : nat := 16.

Definition v4InV6Prefix : list Z := [0; 0; 0; 0; 0; 0; 0; 0; 0; 0; 255; 255]%Z.

(** [net.IPv4]: the 16-byte form of an IPv4 address. *)
Definition IPv4 (a b c d : Z) : IP := v4InV6Prefix ++ [a; b; c; d].

(** [net.CIDRMask] *)
Fixpoint maskBytes (l : nat) (n : Z) : IPMask :=
  match l with
  | O => []
  | S l' =>
      if (8 <=? n)%Z then 255%Z :: maskBytes l' (n - 8)
      else Z.lxor 255 (Z.shiftr 255 n) :: maskBytes l' 0
  end.

Definition CIDRMask (ones bits : Z) : IPMask :=
  if negb (bits =? 32)%Z && negb (bits =? 128)%Z then []
  else if (ones <? 0)%Z || (bits <? ones)%Z then []
  else maskBytes (Z.to_nat (bits / 8)) ones.

(** [IP.To4]: [None] is the nil slice. *)
Definition To4 (ip : IP) : option IP :=
  if (length ip =? IPv4len)%nat then Some ip
  else if (length ip =? IPv6len)%nat
          && forallb (Z.eqb 0) (take 10 ip)
          && bool_decide (ip !! 10%nat = Some 255%Z)
          && bool_decide (ip !! 11%nat = Some 255%Z)
  then Some (drop 12 ip)
  else None.

(** [IP.IsLoopback], for an address that has a 4-byte form. *)
Definition IsLoopback (ip : IP) : bool :=
  match To4 ip with
  | Some ip4 => bool_decide (ip4 !! 0%nat = Some 127%Z)
  | None => false
  end.

(** [IP.String] of a 4-byte address: dotted decimal. *)
Definition IPString (ip : IP) : string :=
  match ip with
  | [a; b; c; d] =>
      pretty a +:+ "." +:+ pretty b +:+ "." +:+ pretty c +:+ "." +:+ pretty d
  | _ => "?"
  end.

Record IPNet : Type := mkIPNet {
  netIP : IP;
  Mask : IPMask
}.

(** [networkNumberAndMask]: [None] stands for the pair of nil slices. *)
Definition networkNumberAndMask (n : IPNet) : option (IP * IPMask) :=
  ip ← match To4 (netIP n) with
       | Some ip => Some ip
       | None => if (length (netIP n) =? IPv6len)%nat then Some (netIP n) else None
       end;
  if (length (Mask n) =? IPv4len)%nat then
    if (length ip =? IPv4len)%nat then Some (ip, Mask n) else None
  else if (length (Mask n) =? IPv6len)%nat then
    if (length ip =? IPv4len)%nat then Some (ip, drop 12 (Mask n))
    else Some (ip, Mask n)
  else None.

(** [IPNet.Contains] *)
Definition Contains (n : IPNet) (ip : IP) : bool :=
  let '(nn, m) := default ([], []) (networkNumberAndMask n) in
  let ip := default ip (To4 ip) in
  if negb (length ip =? length nn)%nat then false
  else forallb (fun i =>
                  (Z.land (nn !!! i) (m !!! i) =? Z.land (ip !!! i) (m !!! i))%Z)
               (seq 0 (length ip)).

(** [isDockerOrVirtualIP] *)
Definition isDockerOrVirtualIP (ip : IP) : bool :=
  let dockerNet := mkIPNet (IPv4 172 17 0 0) (CIDRMask 16 32) in
  if existsb (fun i => Contains (mkIPNet (IPv4 172 i 0 0) (CIDRMask 16 32)) ip)
             (seqZ 18 14)
  then true
  else Contains dockerNet ip.

(** [net.Addr] values, by dynamic type. *)
Inductive Addr : Type :=
| AddrIPNet (ipnet : IPNet)
| AddrIPAddr (ip : IP).

Definition FlagUp : Z := 1.
Definition FlagLoopback : Z := 4.

(** [net.Interface], with what its [Addrs] method returns: the addresses,
    or the text of the error. *)
Record Interface : Type := mkInterface {
  Name : string;
  Flags : Z;
  Addrs : list Addr + string
}.

(** The variables of [getServerAddresses], and the lines it logs. *)
Record Scan : Type := mkScan {
  addressSet : gmap string bool;
  addresses : list string;
  logged : list string
}.

Definition scanAddr (acc : Scan) (addr : Addr) : Scan :=
  match addr with
  | AddrIPNet ipnet =>
      match To4 (netIP ipnet) with
      | Some ip4 =>
          if negb (IsLoopback ip4) then
            if negb (isDockerOrVirtualIP ip4) then
              let ipStr := IPString ip4 in
              if negb (default false (addressSet acc !! ipStr))
              then mkScan (<[ipStr := true]> (addressSet acc))
                          (addresses acc ++ [ipStr]) (logged acc)
              else acc
            else acc
          else acc
      | None => acc
      end
  | AddrIPAddr _ => acc
  end.

Definition scanInterface (acc : Scan) (iface : Interface) : Scan :=
  if negb (Z.land (Flags iface) FlagLoopback =? 0)%Z
     || (Z.land (Flags iface) FlagUp =? 0)%Z
  then acc
  else
    match Addrs iface with
    | inr err =>
        mkScan (addressSet acc) (addresses acc)
               (logged acc ++ ["警告: 无法获取接口 " +:+ Name iface +:+ " 的地址: " +:+ err])
    | inl addrs => foldl scanAddr acc addrs
    end.

(** [getServerAddresses]; the argument is what [net.Interfaces] returns. *)
Definition getServerAddresses (interfaces : list Interface + string)
  : list string * list string :=
  match interfaces with
  | inr err => (["localhost"], ["警告: 无法获取网络接口: " +:+ err])
  | inl ifaces =>
      let acc := foldl scanInterface (mkScan ∅ [] []) ifaces in
      (if (length (addresses acc) =? 0)%nat then addresses acc ++ ["localhost"]
       else addresses acc,
       logged acc)
  end.

End Addresses.

(* --------------------------------------------------------------------- *)
(** ** internal/common/response.go                                        *)
(* --------------------------------------------------------------------- *)

Module Common.

(** [mcp.Content], of which the constructors only build [*mcp.TextContent]. *)
Inductive Content : Type :=
| TextContent (Text : string).

(** [mcp.CallToolResultFor[any]]; the fields the constructors leave at
    their zero value ([Meta], [StructuredContent]) are not represented. *)
Record CallToolResult : Type := mkCallToolResult {
  IsError : bool;
  Content_ : list Content
}.

Definition errJSONMarshalFailed : string := "结果转换失败: %v".

(** Predefined error texts of the revision in src/unnamed/part_006. *)
Definition commonErrorTexts : gmap string string :=
  list_to_map
    [ ("json_failed", "JSON序列化失败");
      ("invalid_params", "参数无效");
      ("connection_failed", "连接失败");
      ("timeout", "操作超时");
      ("not_found", "资源未找到") ].

Section Constructors.

(** Go's [any], [json.Marshal] (the encoded text, or the error value) and
    [fmt.Sprintf] are the library's. *)
Context {any : Type}.
Variable Marshal : any -> string + any.
Variable Sprintf : string -> list any -> string.
Variable ofString : string -> any.

(** The constructors return a result pointer and an [error]; the second
    component is [None] for a nil error. *)
Definition CreateSuccessResponse (data : any) : CallToolResult * option any :=
  match Marshal data with
  | inr err =>
      (mkCallToolResult true [TextContent (Sprintf errJSONMarshalFailed [err])], None)
  | inl jsonData =>
      (mkCallToolResult false [TextContent jsonData], None)
  end.

Definition CreateErrorResponse (format : string) (args : list any)
  : CallToolResult * option any :=
  (mkCallToolResult true [TextContent (Sprintf format args)], None).

Definition CreateJSONResponse (data : any) : CallToolResult * option any :=
  CreateSuccessResponse data.

(** The constructors of the revision in src/unnamed/part_006. *)
Definition CreateErrorResponse_keyed (format : string) (args : list any)
  : CallToolResult * option any :=
  let message :=
    match args with
    | [] => match commonErrorTexts !! format with
            | Some commonText => commonText
            | None => format
            end
    | _ => Sprintf format args
    end in
  (mkCallToolResult true [TextContent message], None).

Definition CreateErrorResponseWithKey (errorKey : string)
  : CallToolResult * option any :=
  match commonErrorTexts !! errorKey with
  | Some text => (mkCallToolResult true [TextContent text], None)
  | None => CreateErrorResponse_keyed "未知错误: %s" [ofString errorKey]
  end.

Definition CreateSimpleSuccessResponse (message : string)
  : CallToolResult * option any :=
  (mkCallToolResult false [TextContent message], None).

End Constructors.

(** The two kinds of envelope. *)
Definition success_envelope (r : CallToolResult) (payload : string) : Prop :=
  IsError r = false /\ Content_ r = [TextContent payload].

Definition error_envelope (r : CallToolResult) (message : string) : Prop :=
  IsError r = true /\ Content_ r = [TextContent message].

End Common.

(* --------------------------------------------------------------------- *)
(** ** config: the configuration, its defaults and its validation         *)
(* --------------------------------------------------------------------- *)

Module Config.
Import Core.

(** [PrometheusConfig] and its methods (the receiver is not nil). *)
Module PrometheusConfig.
Record t : Type := mk {
  Enabled : bool;
  URL : string;
  Endpoint : string
}.

Definition GetType (p : t) : ServiceType := ServiceTypePrometheus.

Definition GetEndpoint (p : t) : string :=
  if decide (Endpoint p <> "") then Endpoint p else "/prometheus/mcp".

Definition IsEnabled (p : t) : bool :=
  Enabled p && negb (bool_decide (URL p = "")).

Definition Validate (p : t) : option string :=
  if Enabled p && bool_decide (URL p = "")
  then Some "prometheus服务已启用但URL为空"
  else None.
End PrometheusConfig.

(** [SupersetConfig] and its methods. *)
Module SupersetConfig.
Record t : Type := mk {
  Enabled : bool;
  URL : string;
  User : string;
  Pass : string;
  Endpoint : string
}.

Definition GetType (s : t) : ServiceType := ServiceTypeSuperset.

Definition GetEndpoint (s : t) : string :=
  if decide (Endpoint s <> "") then Endpoint s else "/superset/mcp".

Definition IsEnabled (s : t) : bool :=
  Enabled s && negb (bool_decide (URL s = "")).

Definition Validate (s : t) : option string :=
  if Enabled s then
    if bool_decide (URL s = "") then Some "superset服务已启用但URL为空"
    else if bool_decide (User s = "") then Some "superset服务已启用但用户名为空"
    else if bool_decide (Pass s = "") then Some "superset服务已启用但密码为空"
    else None
  else None.
End SupersetConfig.

(** [Config]; a nil section pointer is [None]. *)
Record Config : Type := mkConfig {
  HTTPPort : string;
  Timeout : Duration;
  Prometheus : option PrometheusConfig.t;
  Superset : option SupersetConfig.t
}.

(** A [core.ServiceConfig] interface value, by dynamic type: one of the
    two section pointers (which may be nil), or a value of another type,
    of which only the name of the type is used. *)
Inductive ServiceConfigValue : Type :=
| ofPrometheus (p : option PrometheusConfig.t)
| ofSuperset (s : option SupersetConfig.t)
| ofOther (typeName : string).

Record ValidationError : Type := mkValidationError {
  Field : string;
  Message : string
}.

Definition Error (e : ValidationError) : string :=
  "配置验证失败 [" +:+ Field e +:+ "]: " +:+ Message e.

Record ValidationResult : Type := mkValidationResult {
  Valid : bool;
  Errors : list ValidationError
}.

Definition IsValid (vr : ValidationResult) : bool :=
  Valid vr && (length (Errors vr) =? 0)%nat.

Definition GetFirstError (vr : ValidationResult) : option ValidationError :=
  match Errors vr with
  | e :: _ => Some e
  | [] => None
  end.

Definition ValidatePrometheusConfig (config : option PrometheusConfig.t)
  : ValidationResult :=
  match config with
  | None => mkValidationResult false [mkValidationError "prometheus" "配置不能为空"]
  | Some config =>
      let errors := [] in
      let errors :=
        if PrometheusConfig.Enabled config
           && bool_decide (PrometheusConfig.URL config = "")
        then errors ++ [mkValidationError "prometheus.url" "服务已启用但URL为空"]
        else errors in
      mkValidationResult (length errors =? 0)%nat errors
  end.

Definition ValidateSupersetConfig (config : option SupersetConfig.t)
  : ValidationResult :=
  match config with
  | None => mkValidationResult false [mkValidationError "superset" "配置不能为空"]
  | Some config =>
      let errors := [] in
      let errors :=
        if SupersetConfig.Enabled config then
          let errors :=
            if bool_decide (SupersetConfig.URL config = "")
            then errors ++ [mkValidationError "superset.url" "服务已启用但URL为空"]
            else errors in
          let errors :=
            if bool_decide (SupersetConfig.User config = "")
            then errors ++ [mkValidationError "superset.user" "服务已启用但用户名为空"]
            else errors in
          if bool_decide (SupersetConfig.Pass config = "")
          then errors ++ [mkValidationError "superset.pass" "服务已启用但密码为空"]
          else errors
        else errors in
      mkValidationResult (length errors =? 0)%nat errors
  end.

Definition ValidateConfig (config : option Config) : ValidationResult :=
  match config with
  | None => mkValidationResult false [mkValidationError "config" "配置不能为空"]
  | Some config =>
      let allErrors := [] in
      let promResult := ValidatePrometheusConfig (Prometheus config) in
      let allErrors :=
        if negb (IsValid promResult) then allErrors ++ Errors promResult
        else allErrors in
      let supersetResult := ValidateSupersetConfig (Superset config) in
      let allErrors :=
        if negb (IsValid supersetResult) then allErrors ++ Errors supersetResult
        else allErrors in
      mkValidationResult (length allErrors =? 0)%nat allErrors
  end.

Definition FilterEnabledServices (config : option Config) : list ServiceConfigValue :=
  match config with
  | None => []
  | Some config =>
      let services := [] in
      let services :=
        match Prometheus config with
        | Some p =>
            if PrometheusConfig.IsEnabled p then services ++ [ofPrometheus (Some p)]
            else services
        | None => services
        end in
      match Superset config with
      | Some s =>
          if SupersetConfig.IsEnabled s then services ++ [ofSuperset (Some s)]
          else services
      | None => services
      end
  end.

Definition ValidateServiceConfig (serviceConfig : ServiceConfigValue)
  : ValidationResult :=
  match serviceConfig with
  | ofPrometheus config => ValidatePrometheusConfig config
  | ofSuperset config => ValidateSupersetConfig config
  | ofOther typeName =>
      mkValidationResult false
        [mkValidationError "service" ("未知的服务配置类型: " +:+ typeName)]
  end.

(** The methods of [Config] that forward to the functions above. *)
Definition GetServices (c : option Config) : list ServiceConfigValue :=
  FilterEnabledServices c.

Definition Validate (c : option Config) : option ValidationError :=
  let result := ValidateConfig c in
  if negb (IsValid result) then GetFirstError result else None.

Definition second : Duration := 1000000000%Z.

Definition setDefaults (cfg : Config) : Config :=
  let httpPort := if decide (HTTPPort cfg = "") then "8080" else HTTPPort cfg in
  let timeout := if decide (Timeout cfg = 0%Z) then (30 * second)%Z else Timeout cfg in
  let prometheus :=
    match Prometheus cfg with
    | None => PrometheusConfig.mk false "" ""
    | Some p => p
    end in
  let prometheus :=
    if decide (PrometheusConfig.URL prometheus = "")
    then PrometheusConfig.mk true "http://hd-piko.prometheus.qiniu.io/"
                             (PrometheusConfig.Endpoint prometheus)
    else prometheus in
  let superset :=
    match Superset cfg with
    | None => SupersetConfig.mk false "" "" "" ""
    | Some s => s
    end in
  let superset :=
    if decide (SupersetConfig.URL superset = "")
    then SupersetConfig.mk true "http://superset.yzh-logverse.k8s.qiniu.io"
                           "dingnanjia" "nanjia123"
                           (SupersetConfig.Endpoint superset)
    else superset in
  mkConfig httpPort timeout (Some prometheus) (Some superset).

(** What reading the file at [path] comes to: it cannot be opened, its
    content does not decode, or it decodes into a [Config]. *)
Inductive File : Type :=
| Unreadable (err : string)
| Malformed (err : string)
| Decoded (cfg : Config).

Definition LoadConfigFromYAML (file : File) : Config + string :=
  match file with
  | Unreadable err => inr ("无法打开配置文件: " +:+ err)
  | Malformed err => inr ("YAML解析失败: " +:+ err)
  | Decoded cfg =>
      let cfg := setDefaults cfg in
      match Validate (Some cfg) with
      | Some err => inr ("配置验证失败: " +:+ Error err)
      | None => inl cfg
      end
  end.

End Config.

(* --------------------------------------------------------------------- *)
(** ** internal/superset: the session client                              *)
(* --------------------------------------------------------------------- *)

Module Superset.

(** *** Constants *)

Definition loginEndpoint : string := "/login/".
Definition apiEndpoint : string := "/api/v1".
Definition healthEndpoint : string := "/health".
Definition databaseEndpoint : string := "/api/v1/database/".
Definition sqlExecuteEndpoint : string := "/api/v1/sqllab/execute/".

Definition contentTypeJSON : string := "application/json".
Definition contentTypeForm : string := "application/x-www-form-urlencoded".
Definition headerAccept : string := "Accept".
Definition headerCSRF : string := "X-CSRFToken".
Definition headerReferer : string := "Referer".

(** Instants and durations are counts of nanoseconds. *)
Definition csrfTokenCacheDuration : Z := 5 * 60 * 1000000000.

Definition StatusOK : Z := 200.
Definition StatusMovedPermanently : Z := 301.
Definition StatusFound : Z := 302.
Definition StatusSeeOther : Z := 303.
Definition StatusTemporaryRedirect : Z := 307.
Definition StatusPermanentRedirect : Z := 308.

(** *** Strings *)

(** [strings.Contains]. *)
Fixpoint Contains (s substr : string) : bool :=
  String.prefix substr s ||
  match s with
  | EmptyString => false
  | String _ rest => Contains rest substr
  end.

(** [s] without its leading [p], if it starts with [p]. *)
Fixpoint TrimPrefix (p s : string) : option string :=
  match p, s with
  | EmptyString, _ => Some s
  | String a p', String b s' => if Ascii.eqb a b then TrimPrefix p' s' else None
  | String _ _, EmptyString => None
  end.

Definition dquote : Ascii.ascii := Ascii.ascii_of_nat 34.
Definition rangle : Ascii.ascii := Ascii.ascii_of_nat 62.

(** [csrfTokenRegex] reads: the attribute [name] with value [csrf_token]
    in double quotes; any run of bytes other than a closing angle bracket;
    [value=] and an opening double quote; the captured group, any run of
    bytes other than a double quote; a closing double quote.  These are
    its two literal parts. *)
Definition csrfNameAttr : string :=
  "name=" +:+ String dquote ("csrf_token" +:+ String dquote "").
Definition csrfValueOpen : string := "value=" +:+ String dquote "".

(** The captured group and the closing quote: the text up to the next
    double quote.  The greedy run of non-quotes can only be followed by a
    quote where the run ends, so no shorter run matches. *)
Fixpoint untilQuote (s : string) : option string :=
  match s with
  | EmptyString => None
  | String c rest =>
      if Ascii.eqb c dquote then Some EmptyString
      else String c <$> untilQuote rest
  end.

(** The value attribute at the start of [s]. *)
Definition valueAttr (s : string) : option string :=
  TrimPrefix csrfValueOpen s ≫= untilQuote.

(** What follows the name attribute, at the start of [s]: the star is
    greedy, so the longest run of bytes other than the angle bracket is
    tried first and shorter ones after it.  (No byte of a multi-byte rune
    is an angle bracket, so runs of runes and runs of bytes coincide.) *)
Fixpoint afterName (s : string) : option string :=
  match s with
  | EmptyString => valueAttr s
  | String c rest =>
      if Ascii.eqb c rangle then valueAttr s
      else match afterName rest with
           | Some token => Some token
           | None => valueAttr s
           end
  end.

(** [csrfTokenRegex.FindStringSubmatch(body)], reduced to what the client
    uses: [Some matches[1]] for the leftmost match, [None] when the
    pattern does not match (the slice returned has then fewer than two
    elements). *)
Fixpoint FindStringSubmatch (body : string) : option string :=
  match TrimPrefix csrfNameAttr body ≫= afterName with
  | Some token => Some token
  | None =>
      match body with
      | EmptyString => None
      | String _ rest => FindStringSubmatch rest
      end
  end.

(** *** JSON values and [json.Unmarshal] *)

(** A JSON text as [encoding/json] scans it.  [JInt z] is a number
    written without fraction and exponent; [JFloat m e] is one written
    with either, of value [m * 10^e].  Members of an object are in
    document order and may repeat. *)
Inductive json : Type :=
| JNull
| JBool (b : bool)
| JInt (z : Z)
| JFloat (mantissa exponent : Z)
| JString (s : string)
| JArray (items : list json)
| JObject (members : list (string * json)).

(** Go's [int] on a 64-bit platform. *)
Definition fitsInt (z : Z) : bool :=
  (- 2 ^ 63 <=? z)%Z && (z <=? 2 ^ 63 - 1)%Z.

(** [strconv.ParseFloat(s, 64)] succeeds unless the value rounds to an
    infinity, which it does from [2^1024 - 2^970] on. *)
Definition float64Limit : Z := 2 ^ 1024 - 2 ^ 970.

Definition fitsFloat64 (m e : Z) : bool :=
  if (0 <=? e)%Z then (Z.abs m * 10 ^ e <? float64Limit)%Z
  else (Z.abs m <? float64Limit * 10 ^ (- e))%Z.

(** Whether a value can be stored in an [any]: every number in it must
    convert to a [float64].  A value that can is kept as it is (a number
    as written, where Go holds the nearest [float64]; an object as its
    member list, where Go holds a map). *)
Fixpoint storable (j : json) : bool :=
  match j with
  | JInt z => fitsFloat64 z 0
  | JFloat m e => fitsFloat64 m e
  | JArray items => forallb storable items
  | JObject members => forallb (fun kv => storable kv.2) members
  | JNull | JBool _ | JString _ => true
  end.

(** Decoders take the current content of the destination and return its
    new content, or [None] when [Unmarshal] reports an
    [UnmarshalTypeError] (it then goes on decoding, but every caller here
    drops the destination once an error is reported).  A JSON [null]
    leaves a number, string or struct as it is. *)
Definition decodeInt (cur : Z) (j : json) : option Z :=
  match j with
  | JNull => Some cur
  | JInt z => if fitsInt z then Some z else None
  | _ => None
  end.

Definition decodeString (cur : string) (j : json) : option string :=
  match j with
  | JNull => Some cur
  | JString s => Some s
  | _ => None
  end.

(** Key folding of [encoding/json]: ASCII letters to upper case, and the
    two runes that fold to an ASCII letter, U+017F to [S] and U+212A to
    [K]. *)
Fixpoint foldName (s : string) : string :=
  match s with
  | EmptyString => EmptyString
  | String c rest =>
      let n := Ascii.nat_of_ascii c in
      if (97 <=? n)%nat && (n <=? 122)%nat
      then String (Ascii.ascii_of_nat (n - 32)) (foldName rest)
      else
        match rest with
        | String c2 rest2 =>
            let n2 := Ascii.nat_of_ascii c2 in
            if (n =? 197)%nat && (n2 =? 191)%nat
            then String (Ascii.ascii_of_nat 83) (foldName rest2)
            else
              match rest2 with
              | String c3 rest3 =>
                  if (n =? 226)%nat && (n2 =? 132)%nat
                     && (Ascii.nat_of_ascii c3 =? 170)%nat
                  then String (Ascii.ascii_of_nat 75) (foldName rest3)
                  else String c (foldName rest)
              | EmptyString => String c (foldName rest)
              end
        | EmptyString => String c (foldName rest)
        end
  end.

(** The struct field a key selects: an exact match on the JSON name first,
    a match up to folding otherwise. *)
Definition findField (names : list string) (key : string) : option nat :=
  match list_find (fun n => n = key) names with
  | Some (i, _) => Some i
  | None => fst <$> list_find (fun n => foldName n = foldName key) names
  end.

(** Decoding into a struct whose JSON field names are [names] and whose
    [i]th field is decoded by [set i]: members are taken in document
    order; a key that selects no field is skipped. *)
Definition decodeStruct {T : Type} (names : list string)
  (set : nat -> T -> json -> option T) (cur : T) (j : json) : option T :=
  match j with
  | JNull => Some cur
  | JObject members =>
      foldl (fun acc kv =>
               acc ≫= fun d =>
               match findField names kv.1 with
               | Some i => set i d kv.2
               | None => Some d
               end)
            (Some cur) members
  | _ => None
  end.

(** A slice under decoding: its elements, and the elements of its backing
    array beyond its length, which a later, longer array in the same
    document is decoded over. *)
Record Slice (A : Type) : Type := mkSlice {
  items_ : list A;
  spare : list A
}.
Arguments mkSlice {A} _ _.
Arguments items_ {A} _.
Arguments spare {A} _.

Definition nilSlice {A : Type} : Slice A := mkSlice [] [].

Fixpoint decodeElems {A : Type} (dec : A -> json -> option A) (zero : A)
  (pool : list A) (js : list json) : option (list A) :=
  match js with
  | [] => Some []
  | j :: js' =>
      x ← dec (hd zero pool) j;
      xs ← decodeElems dec zero (tl pool) js';
      Some (x :: xs)
  end.

Definition decodeSlice {A : Type} (dec : A -> json -> option A) (zero : A)
  (cur : Slice A) (j : json) : option (Slice A) :=
  match j with
  | JNull => Some nilSlice
  | JArray [] => Some nilSlice
  | JArray js =>
      let pool := items_ cur ++ spare cur in
      xs ← decodeElems dec zero pool js;
      Some (mkSlice xs (drop (length js) pool))
  | _ => None
  end.

(** Decoding into a [map[string]any]: an existing map is reused and the
    members are stored in document order, so the last of equal keys wins. *)
Definition decodeRow (cur : gmap string json) (j : json) : option (gmap string json) :=
  match j with
  | JNull => Some ∅
  | JObject members =>
      foldl (fun acc kv =>
               acc ≫= fun m =>
               if storable kv.2 then Some (<[kv.1 := kv.2]> m) else None)
            (Some cur) members
  | _ => None
  end.

(** *** The wire structs *)

Record Database : Type := mkDatabase {
  ID : Z;
  DatabaseName : string;
  Backend : string;
  SQLAlchemyURI : string;
  CreatedOn : string;
  ChangedOn : string
}.

Definition zeroDatabase : Database := mkDatabase 0 "" "" "" "" "".

Definition databaseFields : list string :=
  ["id"; "database_name"; "backend"; "sqlalchemy_uri"; "created_on"; "changed_on"].

Definition setDatabaseField (i : nat) (d : Database) (v : json) : option Database :=
  match i with
  | 0 => x ← decodeInt (ID d) v;
         Some (mkDatabase x (DatabaseName d) (Backend d) (SQLAlchemyURI d) (CreatedOn d) (ChangedOn d))
  | 1 => x ← decodeString (DatabaseName d) v;
         Some (mkDatabase (ID d) x (Backend d) (SQLAlchemyURI d) (CreatedOn d) (ChangedOn d))
  | 2 => x ← decodeString (Backend d) v;
         Some (mkDatabase (ID d) (DatabaseName d) x (SQLAlchemyURI d) (CreatedOn d) (ChangedOn d))
  | 3 => x ← decodeString (SQLAlchemyURI d) v;
         Some (mkDatabase (ID d) (DatabaseName d) (Backend d) x (CreatedOn d) (ChangedOn d))
  | 4 => x ← decodeString (CreatedOn d) v;
         Some (mkDatabase (ID d) (DatabaseName d) (Backend d) (SQLAlchemyURI d) x (ChangedOn d))
  | 5 => x ← decodeString (ChangedOn d) v;
         Some (mkDatabase (ID d) (DatabaseName d) (Backend d) (SQLAlchemyURI d) (CreatedOn d) x)
  | _ => Some d
  end.

Definition decodeDatabase : Database -> json -> option Database :=
  decodeStruct databaseFields setDatabaseField.

(** [[]Database] *)
Definition decodeDatabases : Slice Database -> json -> option (Slice Database) :=
  decodeSlice decodeDatabase zeroDatabase.

(** [struct { Result []Database `json:"result"` }] *)
Definition decodeEnvelope : Slice Database -> json -> option (Slice Database) :=
  decodeStruct ["result"]
    (fun i cur v => match i with 0 => decodeDatabases cur v | _ => Some cur end).

(** The anonymous struct [supersetResponse] and its parts. *)
Record Column : Type := mkColumn {
  ColumnName : string;
  Name : string;
  Type_ : string
}.

Definition zeroColumn : Column := mkColumn "" "" "".

Definition decodeColumn : Column -> json -> option Column :=
  decodeStruct ["column_name"; "name"; "type"]
    (fun i c v =>
       match i with
       | 0 => x ← decodeString (ColumnName c) v; Some (mkColumn x (Name c) (Type_ c))
       | 1 => x ← decodeString (Name c) v; Some (mkColumn (ColumnName c) x (Type_ c))
       | 2 => x ← decodeString (Type_ c) v; Some (mkColumn (ColumnName c) (Name c) x)
       | _ => Some c
       end).

Record SupersetResponse : Type := mkSupersetResponse {
  QueryID : Z;
  Status_ : string;
  Data_ : Slice (gmap string json);
  Columns_ : Slice Column;
  QuerySQL : string
}.

Definition zeroSupersetResponse : SupersetResponse :=
  mkSupersetResponse 0 "" nilSlice nilSlice "".

Definition decodeQuery : string -> json -> option string :=
  decodeStruct ["sql"]
    (fun i cur v => match i with 0 => decodeString cur v | _ => Some cur end).

Definition decodeSupersetResponse
  : SupersetResponse -> json -> option SupersetResponse :=
  decodeStruct ["query_id"; "status"; "data"; "columns"; "query"]
    (fun i r v =>
       match i with
       | 0 => x ← decodeInt (QueryID r) v;
              Some (mkSupersetResponse x (Status_ r) (Data_ r) (Columns_ r) (QuerySQL r))
       | 1 => x ← decodeString (Status_ r) v;
              Some (mkSupersetResponse (QueryID r) x (Data_ r) (Columns_ r) (QuerySQL r))
       | 2 => x ← decodeSlice decodeRow ∅ (Data_ r) v;
              Some (mkSupersetResponse (QueryID r) (Status_ r) x (Columns_ r) (QuerySQL r))
       | 3 => x ← decodeSlice decodeColumn zeroColumn (Columns_ r) v;
              Some (mkSupersetResponse (QueryID r) (Status_ r) (Data_ r) x (QuerySQL r))
       | 4 => x ← decodeQuery (QuerySQL r) v;
              Some (mkSupersetResponse (QueryID r) (Status_ r) (Data_ r) (Columns_ r) x)
       | _ => Some r
       end).

Record SQLResult : Type := mkSQLResult {
  Columns : list string;
  Data : list (list json);
  Query : string;
  Status : string
}.

(** [row[col.Name]]: the value stored under the key, nil when the key is
    absent. *)
Definition cell (row : gmap string json) (key : string) : json :=
  default JNull (row !! key).

(** The two loops at the end of [executeSQLInternal]. *)
Definition columnNames (columns : list Column) : list string := Name <$> columns.

Definition projectRows (columns : list Column) (rows : list (gmap string json))
  : list (list json) :=
  (fun row => (fun col => cell row (Name col)) <$> columns) <$> rows.

(** *** The HTTP backend and the clock *)

Inductive Method : Type := MethodGet | MethodPost.

(** A request body: none, the form [url.Values.Encode] writes (keys in
    sorted order), or the JSON text [json.Marshal] writes for a value. *)
Inductive Payload : Type :=
| NoBody
| FormBody (fields : list (string * string))
| JSONBody (value : json).

Record Request : Type := mkRequest {
  Method_ : Method;
  URL : string;
  Header : list (string * string);
  Body_ : Payload
}.

(** A response as [httpClient.Do] returns it.  [Location] is the value of
    that header, empty when absent.  [Body] is what [io.ReadAll] reads and
    [ReadFails] whether it then reports an error.  [Json] is what
    [encoding/json] makes of [Body] as a JSON text, [None] when [Body] is
    not one. *)
Record Response : Type := mkResponse {
  StatusCode : Z;
  Location : string;
  Body : string;
  ReadFails : bool;
  Json : option json
}.

(** The redirect policy of the [http.Client] that [NewClient] builds (no
    [CheckRedirect]): a response with one of these statuses and a
    [Location] header is not handed to the caller of [Do]; the client
    requests the location instead, and [Do] returns what that leads to (a
    later response, or an error after ten redirects).  So no response
    that [Do] returns satisfies [redirects]. *)
Definition redirects (resp : Response) : bool :=
  bool_decide (StatusCode resp ∈ [StatusMovedPermanently; StatusFound; StatusSeeOther;
                                  StatusTemporaryRedirect; StatusPermanentRedirect])
  && negb (bool_decide (Location resp = "")).

(** What becomes of a request the client sets out to make.
    [Unbuilt]: the URL does not parse, so that
    [http.NewRequestWithContext] returns an error and there is no request
    to send; as the URL is made of the client's base URL, which never
    changes, this stays so.  [Refused]: the request is built and [Do]
    returns an error (the transport fails).  [Answer]: the request is
    built and [Do] returns the response. *)
Inductive Exchange : Type :=
| Unbuilt (reason : string)
| Refused (reason : string)
| Answer (resp : Response).

(** The exchanges whose response, if any, is one [Do] can return. *)
Definition returnable (x : Exchange) : bool :=
  match x with
  | Answer resp => negb (redirects resp)
  | _ => true
  end.

(** The client's surroundings: the clock, by how much it will have
    advanced at each coming [time.Now()], what will become of each coming
    request, and the requests handed to [Do] so far. *)
Record World : Type := mkWorld {
  clock : Z;
  ticks : list N;
  script : list Exchange;
  sent : list Request
}.

Inductive error : Type :=
| Errorf (format : string) (args : list arg)
| urlError (reason : string)
| readError
| jsonError
with arg : Type :=
| argInt (z : Z)
| argString (s : string)
| argError (e : error).

Record csrfTokenCache : Type := mkCache {
  token : string;
  expiresAt : Z
}.

(** [Client], without [httpClient] (whose cookie jar and transport are
    part of the backend's side) and [mu] (see [Locking]). *)
Record Client : Type := mkClient {
  baseURL : string;
  username : string;
  password : string;
  loggedIn : bool;
  timeout : Z;
  csrfCache : csrfTokenCache;
  sqlLabURL : string
}.

(** [NewClient] ([cookiejar.New] with nil options does not fail, so the
    client is always returned); the zero [time.Time] is instant 0. *)
Definition NewClient (baseURL username password : string) (timeout : Z) : Client :=
  mkClient baseURL username password false timeout (mkCache "" 0)
           (baseURL +:+ "/superset/sqllab").

Record Conf : Type := mkConf {
  self : Client;
  world : World
}.

Inductive Result (A : Type) : Type :=
| Ok (a : A)
| Fail (e : error).
Arguments Ok {A} _.
Arguments Fail {A} _.

(** Methods of the client: state in, result and state out.  A failure
    keeps the state reached. *)
Definition M (A : Type) : Type := Conf -> Result A * Conf.

#[export] Instance M_ret : MRet M := fun A a st => (Ok a, st).
#[export] Instance M_bind : MBind M := fun A B f m st =>
  match m st with
  | (Ok a, st') => f a st'
  | (Fail e, st') => (Fail e, st')
  end.

Definition fail {A : Type} (e : error) : M A := fun st => (Fail e, st).

(** [if err != nil { return ..., fmt.Errorf(format, err) }] *)
Definition wrap {A : Type} (format : string) (m : M A) : M A := fun st =>
  match m st with
  | (Ok a, st') => (Ok a, st')
  | (Fail e, st') => (Fail (Errorf format [argError e]), st')
  end.

Definition client : M Client := fun st => (Ok (self st), st).

Definition setLoggedIn (b : bool) : M unit := fun st =>
  let c := self st in
  (Ok tt, mkConf (mkClient (baseURL c) (username c) (password c) b (timeout c)
                           (csrfCache c) (sqlLabURL c)) (world st)).

Definition setCsrfCache (cache : csrfTokenCache) : M unit := fun st =>
  let c := self st in
  (Ok tt, mkConf (mkClient (baseURL c) (username c) (password c) (loggedIn c)
                           (timeout c) cache (sqlLabURL c)) (world st)).

(** [time.Now()] *)
Definition Now : M Z := fun st =>
  let w := world st in
  let t := (clock w + Z.of_N (hd 0%N (ticks w)))%Z in
  (Ok t, mkConf (self st) (mkWorld t (tl (ticks w)) (script w) (sent w))).

(** [http.NewRequestWithContext(ctx, method, url, body)] for the request
    [req] that the caller then completes with its headers: the method is
    a constant and the context is not nil, so the call fails only when
    the URL does not parse.  Nothing is sent and nothing changes. *)
Definition NewRequestWithContext (req : Request) : M Request := fun st =>
  match script (world st) with
  | Unbuilt reason :: _ => (Fail (urlError reason), st)
  | _ => (Ok req, st)
  end.

(** [c.httpClient.Do(req)]; a backend with nothing left in its script
    refuses the connection.  (The methods call [Do] only with a request
    that [NewRequestWithContext] has just returned, so the script does not
    begin with [Unbuilt] then; that case is completed as a failure.) *)
Definition Do (req : Request) : M Response := fun st =>
  let w := world st in
  let st' := mkConf (self st)
                    (mkWorld (clock w) (ticks w) (tl (script w)) (sent w ++ [req])) in
  match script w with
  | Answer resp :: _ => (Ok resp, st')
  | Refused reason :: _ => (Fail (urlError reason), st')
  | Unbuilt reason :: _ => (Fail (urlError reason), st')
  | [] => (Fail (urlError "connection refused"), st')
  end.

(** [io.ReadAll(resp.Body)] *)
Definition ReadAll (resp : Response) : M string :=
  if ReadFails resp then fail readError else mret (Body resp).

(** [json.Unmarshal(body, &dst)] with [dst] holding [zero]: fails when the
    body is not a JSON text or does not fit the destination. *)
Definition Unmarshal {T : Type} (dec : T -> json -> option T) (zero : T)
  (resp : Response) : option T :=
  Json resp ≫= dec zero.

(** *** The client's methods

    A [map[string]any] of an [int] and two strings always marshals, so
    the error branch after [json.Marshal] in [executeSQLInternal] is left
    out.  The request builders below give the request as it is when
    handed to [Do], headers set.  Taking and releasing [c.mu] has no
    effect in a run of one caller; the lock is modelled in [Locking]. *)

(** [c.csrfCache.token != "" && time.Now().Before(c.csrfCache.expiresAt)];
    the clock is read only when the token is not empty. *)
Definition cacheFresh (cache : csrfTokenCache) : M bool :=
  if decide (token cache = "") then mret false
  else now ← Now; mret (bool_decide (now < expiresAt cache)%Z).

Definition loginPageRequest (c : Client) : Request :=
  mkRequest MethodGet (baseURL c +:+ loginEndpoint) [] NoBody.

Definition getCSRFToken : M string :=
  (* under c.mu.RLock() *)
  c ← client;
  valid ← cacheFresh (csrfCache c);
  if (valid : bool) then mret (token (csrfCache c))
  else
    (* under c.mu.Lock() *)
    c ← client;
    valid ← cacheFresh (csrfCache c);
    if (valid : bool) then mret (token (csrfCache c))
    else
      req ← wrap "创建请求失败: %w" (NewRequestWithContext (loginPageRequest c));
      resp ← wrap "获取登录页面失败: %w" (Do req);
      body ← wrap "读取响应失败: %w" (ReadAll resp);
      match FindStringSubmatch body with
      | None => fail (Errorf "未找到CSRF令牌" [])
      | Some token =>
          now ← Now;
          _ ← setCsrfCache (mkCache token (now + csrfTokenCacheDuration)%Z);
          mret token
      end.

Definition getCSRFTokenForLogin : M string :=
  c ← client;
  req ← wrap "创建请求失败: %w" (NewRequestWithContext (loginPageRequest c));
  resp ← wrap "获取登录页面失败: %w" (Do req);
  body ← wrap "读取响应失败: %w" (ReadAll resp);
  match FindStringSubmatch body with
  | None => fail (Errorf "未找到CSRF令牌" [])
  | Some token => mret token
  end.

Definition isSuccessfulRedirect (location : string) : bool :=
  Contains location "/superset/welcome" ||
  bool_decide (location = "/") ||
  Contains location "/superset".

Definition isLoginError (body : string) : bool :=
  Contains body "Invalid login" ||
  Contains body "Invalid username or password" ||
  Contains body "Authentication failed".

Definition isLoginSuccess (body : string) : bool :=
  Contains body "superset" && Contains body "dashboard".

Definition loginRequest (c : Client) (csrfToken : string) : Request :=
  mkRequest MethodPost (baseURL c +:+ loginEndpoint)
    [("Content-Type", contentTypeForm);
     (headerReferer, baseURL c +:+ loginEndpoint)]
    (FormBody [("csrf_token", csrfToken);
               ("password", password c);
               ("username", username c)]).

(** The part of [Login] after the response has arrived. *)
Definition checkLogin (resp : Response) : M unit :=
  if bool_decide (StatusCode resp = StatusFound \/ StatusCode resp = StatusSeeOther)
     && isSuccessfulRedirect (Location resp)
  then setLoggedIn true
  else if bool_decide (StatusCode resp = StatusOK) then
    (* body, _ := io.ReadAll(resp.Body) *)
    let bodyStr := Body resp in
    if isLoginError bodyStr then fail (Errorf "用户名或密码错误" [])
    else if isLoginSuccess bodyStr then setLoggedIn true
    else fail (Errorf "登录失败" [])
  else fail (Errorf "登录失败，状态码: %d" [argInt (StatusCode resp)]).

Definition Login : M unit :=
  c ← client;
  if loggedIn c then mret tt
  else
    csrfToken ← wrap "获取CSRF令牌失败: %w" getCSRFTokenForLogin;
    req ← wrap "创建请求失败: %w" (NewRequestWithContext (loginRequest c csrfToken));
    resp ← wrap "发送请求失败: %w" (Do req);
    checkLogin resp.

Definition ensureLoggedIn : M unit :=
  c ← client;
  if loggedIn c then mret tt else Login.

Definition databasesRequest (c : Client) (csrfToken : string) : Request :=
  mkRequest MethodGet (baseURL c +:+ databaseEndpoint)
    [(headerAccept, contentTypeJSON);
     (headerCSRF, csrfToken);
     (headerReferer, sqlLabURL c)]
    NoBody.

(** The decoding at the end of [GetDatabases]: the envelope first, the
    bare array if that fails. *)
Definition decodeDatabaseList (resp : Response) (body : string) : M (list Database) :=
  match Unmarshal decodeEnvelope nilSlice resp with
  | Some result => mret (items_ result)
  | None =>
      match Unmarshal decodeDatabases nilSlice resp with
      | Some databases => mret (items_ databases)
      | None =>
          fail (Errorf "解析响应失败: %w, 响应体: %s" [argError jsonError; argString body])
      end
  end.

Definition GetDatabases : M (list Database) :=
  _ ← wrap "登录失败: %w" ensureLoggedIn;
  csrfToken ← wrap "获取CSRF令牌失败: %w" getCSRFToken;
  c ← client;
  req ← wrap "创建请求失败: %w" (NewRequestWithContext (databasesRequest c csrfToken));
  resp ← wrap "获取数据库列表失败: %w" (Do req);
  body ← wrap "读取响应失败: %w" (ReadAll resp);
  if bool_decide (StatusCode resp = StatusOK)
  then decodeDatabaseList resp body
  else fail (Errorf "API请求失败，状态码: %d, 响应: %s"
                    [argInt (StatusCode resp); argString body]).

Definition executeRequest (c : Client) (csrfToken sql : string) (databaseID : Z)
  (schema : string) : Request :=
  mkRequest MethodPost (baseURL c +:+ sqlExecuteEndpoint)
    [("Content-Type", contentTypeJSON);
     (headerAccept, contentTypeJSON);
     (headerCSRF, csrfToken);
     (headerReferer, sqlLabURL c)]
    (JSONBody (JObject [("database_id", JInt databaseID);
                        ("schema", JString schema);
                        ("sql", JString sql)])).

(** The end of [executeSQLInternal], from the decoded response on. *)
Definition normalize (supersetResponse : SupersetResponse) : SQLResult :=
  let columns := columnNames (items_ (Columns_ supersetResponse)) in
  let data := projectRows (items_ (Columns_ supersetResponse))
                          (items_ (Data_ supersetResponse)) in
  mkSQLResult columns data (QuerySQL supersetResponse) (Status_ supersetResponse).

Definition executeSQLInternal (sql : string) (databaseID : Z) (schema : string)
  : M SQLResult :=
  _ ← wrap "登录失败: %w" ensureLoggedIn;
  csrfToken ← wrap "获取CSRF令牌失败: %w" getCSRFToken;
  c ← client;
  req ← wrap "创建请求失败: %w"
          (NewRequestWithContext (executeRequest c csrfToken sql databaseID schema));
  resp ← wrap "执行SQL失败: %w" (Do req);
  body ← wrap "读取响应失败: %w" (ReadAll resp);
  if bool_decide (StatusCode resp = StatusOK) then
    match Unmarshal decodeSupersetResponse zeroSupersetResponse resp with
    | None =>
        fail (Errorf "解析响应失败: %w, 响应体: %s" [argError jsonError; argString body])
    | Some supersetResponse => mret (normalize supersetResponse)
    end
  else fail (Errorf "API请求失败，状态码: %d, 响应: %s"
                    [argInt (StatusCode resp); argString body]).

Definition ExecuteSQL (sql : string) (databaseID : Z) : M SQLResult :=
  executeSQLInternal sql databaseID "".

Definition ExecuteSQLWithSchema (sql : string) (databaseID : Z) (schema : string)
  : M SQLResult :=
  executeSQLInternal sql databaseID schema.

End Superset.

(* --------------------------------------------------------------------- *)
(** ** internal/superset: concurrent callers of one client                *)
(* --------------------------------------------------------------------- *)

Module Locking.
Import Superset.

(** Where a goroutine stands inside [getCSRFToken], [ensureLoggedIn] or
    [Login].  Each constructor is a point between two accesses to what
    the callers share: the mutex [c.mu], the fields [c.csrfCache] and
    [c.loggedIn], the clock and the backend. *)
Inductive pc : Type :=
(* getCSRFToken *)
| TokStart                                  (* before c.mu.RLock() *)
| TokRLocked                                (* read lock held, before the first check *)
| TokHit (tok : string)                     (* first check passed, before RUnlock *)
| TokMiss                                   (* first check failed, before RUnlock *)
| TokUnlocked                               (* before c.mu.Lock() *)
| TokLocked                                 (* lock held, before the second check *)
| TokFetching                               (* GET of the login page sent, no answer yet *)
| TokStoring (tok : string)                 (* token extracted, before the cache assignment *)
| TokStoringExpiry (tok : string) (expiry : Z) (* token field written, expiresAt not yet *)
| TokReturning (r : Result string)          (* before the deferred Unlock *)
| TokDone (r : Result string)
(* ensureLoggedIn *)
| EnsStart                                  (* before c.mu.RLock() *)
| EnsRLocked                                (* read lock held, before reading loggedIn *)
| EnsChecked (seen : bool)                  (* loggedIn read, before RUnlock *)
(* Login *)
| LoginStart                                (* before c.mu.Lock() *)
| LoginLocked                               (* lock held, before reading loggedIn *)
| LoginFetching                             (* GET of the login page sent, no answer yet *)
| LoginPosting                              (* POST sent, no answer yet *)
| LoginReturning (r : Result unit)          (* before the deferred Unlock *)
| LoginDone (r : Result unit).

(** What the goroutines share.  [readers] and [writer] are the state of
    the [sync.RWMutex]: the number of read locks held and whether the
    write lock is held. *)
Record Shared : Type := mkShared {
  me : Client;
  readers : nat;
  writer : bool;
  instant : Z;
  backend : list Exchange;
  requests : list Request
}.

Definition withMutex (r : nat) (w : bool) (s : Shared) : Shared :=
  mkShared (me s) r w (instant s) (backend s) (requests s).

Definition withClient (c : Client) (s : Shared) : Shared :=
  mkShared c (readers s) (writer s) (instant s) (backend s) (requests s).

Definition send (req : Request) (s : Shared) : Shared :=
  mkShared (me s) (readers s) (writer s) (instant s) (backend s) (requests s ++ [req]).

(** The head of the backend's script is consumed by the answer. *)
Definition answered (s : Shared) : Shared :=
  mkShared (me s) (readers s) (writer s) (instant s) (tl (backend s)) (requests s).

Definition withToken (tok : string) (c : Client) : Client :=
  mkClient (baseURL c) (username c) (password c) (loggedIn c) (timeout c)
           (mkCache tok (expiresAt (csrfCache c))) (sqlLabURL c).

Definition withExpiry (e : Z) (c : Client) : Client :=
  mkClient (baseURL c) (username c) (password c) (loggedIn c) (timeout c)
           (mkCache (token (csrfCache c)) e) (sqlLabURL c).

(** The check both paths of [getCSRFToken] make. *)
Definition cached (s : Shared) : bool :=
  negb (bool_decide (token (csrfCache (me s)) = "")) &&
  bool_decide (instant s < expiresAt (csrfCache (me s)))%Z.

(** What the answer to the GET of the login page yields: the token, or
    the error the fetch returns. *)
Definition received (x : list Exchange) : Result string :=
  match x with
  | Answer resp :: _ =>
      if ReadFails resp then Fail (Errorf "读取响应失败: %w" [argError readError])
      else match FindStringSubmatch (Body resp) with
           | Some tok => Ok tok
           | None => Fail (Errorf "未找到CSRF令牌" [])
           end
  | Refused reason :: _ | Unbuilt reason :: _ =>
      Fail (Errorf "获取登录页面失败: %w" [argError (urlError reason)])
  | [] =>
      Fail (Errorf "获取登录页面失败: %w" [argError (urlError "connection refused")])
  end.

(** The error of a method whose request cannot be built. *)
Definition unbuilt (reason : string) : error :=
  Errorf "创建请求失败: %w" [argError (urlError reason)].

(** One step of one goroutine; [None] when it cannot move: it is blocked
    on the mutex or has returned.  A read lock is granted unless the
    write lock is held, the write lock when no lock is held.  (The
    runtime also holds new readers back while a writer waits; granting
    more often than the runtime only adds interleavings.) *)
Definition thread_step (p : pc) (s : Shared) : option (pc * Shared) :=
  match p with
  | TokStart =>
      if writer s then None
      else Some (TokRLocked, withMutex (S (readers s)) (writer s) s)
  | TokRLocked =>
      if cached s then Some (TokHit (token (csrfCache (me s))), s)
      else Some (TokMiss, s)
  | TokHit tok =>
      Some (TokDone (Ok tok), withMutex (pred (readers s)) (writer s) s)
  | TokMiss =>
      Some (TokUnlocked, withMutex (pred (readers s)) (writer s) s)
  | TokUnlocked =>
      if writer s || negb (readers s =? 0)%nat then None
      else Some (TokLocked, withMutex (readers s) true s)
  | TokLocked =>
      if cached s then Some (TokReturning (Ok (token (csrfCache (me s)))), s)
      else match backend s with
           | Unbuilt reason :: _ => Some (TokReturning (Fail (unbuilt reason)), s)
           | _ => Some (TokFetching, send (loginPageRequest (me s)) s)
           end
  | TokFetching =>
      match received (backend s) with
      | Ok tok => Some (TokStoring tok, answered s)
      | Fail e => Some (TokReturning (Fail e), answered s)
      end
  | TokStoring tok =>
      Some (TokStoringExpiry tok (instant s + csrfTokenCacheDuration)%Z,
            withClient (withToken tok (me s)) s)
  | TokStoringExpiry tok expiry =>
      Some (TokReturning (Ok tok), withClient (withExpiry expiry (me s)) s)
  | TokReturning r =>
      Some (TokDone r, withMutex (readers s) false s)
  | TokDone _ => None
  | EnsStart =>
      if writer s then None
      else Some (EnsRLocked, withMutex (S (readers s)) (writer s) s)
  | EnsRLocked => Some (EnsChecked (loggedIn (me s)), s)
  | EnsChecked seen =>
      Some (if seen then LoginDone (Ok tt) else LoginStart,
            withMutex (pred (readers s)) (writer s) s)
  | LoginStart =>
      if writer s || negb (readers s =? 0)%nat then None
      else Some (LoginLocked, withMutex (readers s) true s)
  | LoginLocked =>
      if loggedIn (me s) then Some (LoginReturning (Ok tt), s)
      else match backend s with
           | Unbuilt reason :: _ =>
               Some (LoginReturning
                       (Fail (Errorf "获取CSRF令牌失败: %w" [argError (unbuilt reason)])),
                     s)
           | _ => Some (LoginFetching, send (loginPageRequest (me s)) s)
           end
  | LoginFetching =>
      match received (backend s) with
      | Ok csrfToken =>
          match tl (backend s) with
          | Unbuilt reason :: _ =>
              Some (LoginReturning (Fail (unbuilt reason)), answered s)
          | _ =>
              Some (LoginPosting, send (loginRequest (me s) csrfToken) (answered s))
          end
      | Fail e =>
          Some (LoginReturning (Fail (Errorf "获取CSRF令牌失败: %w" [argError e])),
                answered s)
      end
  | LoginPosting =>
      match backend s with
      | Answer resp :: _ =>
          let out := checkLogin resp (mkConf (me s) (mkWorld (instant s) [] [] [])) in
          Some (LoginReturning out.1, withClient (self out.2) (answered s))
      | Refused reason :: _ | Unbuilt reason :: _ =>
          Some (LoginReturning
                  (Fail (Errorf "发送请求失败: %w" [argError (urlError reason)])),
                answered s)
      | [] =>
          Some (LoginReturning
                  (Fail (Errorf "发送请求失败: %w"
                                [argError (urlError "connection refused")])),
                answered s)
      end
  | LoginReturning r =>
      Some (LoginDone r, withMutex (readers s) false s)
  | LoginDone _ => None
  end.

(** The client and the goroutines calling it. *)
Record System : Type := mkSystem {
  shared : Shared;
  threads : list pc
}.

(** The scheduler lets goroutine [i] take its next step, or time pass. *)
Inductive action : Type :=
| Run (i : nat)
| Tick (d : N).

Definition exec (a : action) (sys : System) : option System :=
  match a with
  | Tick d =>
      let s := shared sys in
      Some (mkSystem (mkShared (me s) (readers s) (writer s)
                               (instant s + Z.of_N d)%Z (backend s) (requests s))
                     (threads sys))
  | Run i =>
      p ← threads sys !! i;
      '(p', s') ← thread_step p (shared sys);
      Some (mkSystem s' (<[i := p']> (threads sys)))
  end.

Fixpoint execs (schedule : list action) (sys : System) : option System :=
  match schedule with
  | [] => Some sys
  | a :: rest => exec a sys ≫= execs rest
  end.

(** Client [c] at instant [t], nobody holding the mutex, facing a
    backend that will answer as scripted, with the given calls about to
    start. *)
Definition boot (c : Client) (t : Z) (script : list Exchange) (calls : list pc)
  : System :=
  mkSystem (mkShared c 0 false t script []) calls.

(** Which points hold the read lock, which the write lock, and at which
    a request is on its way. *)
Definition holdsR (p : pc) : bool :=
  match p with
  | TokRLocked | TokHit _ | TokMiss | EnsRLocked | EnsChecked _ => true
  | _ => false
  end.

Definition holdsW (p : pc) : bool :=
  match p with
  | TokLocked | TokFetching | TokStoring _ | TokStoringExpiry _ _ | TokReturning _
  | LoginLocked | LoginFetching | LoginPosting | LoginReturning _ => true
  | _ => false
  end.

Definition fetching (p : pc) : bool :=
  match p with
  | TokFetching | LoginFetching => true
  | _ => false
  end.

Definition loggingIn (p : pc) : bool :=
  match p with
  | LoginLocked | LoginFetching | LoginPosting | LoginReturning _ => true
  | _ => false
  end.

(** The points at which the cache entry is read. *)
Definition readsCache (p : pc) : bool :=
  match p with
  | TokRLocked | TokLocked => true
  | _ => false
  end.

Definition entry (p : pc) : bool :=
  match p with
  | TokStart | EnsStart | LoginStart => true
  | _ => false
  end.

Fixpoint count (f : pc -> bool) (ts : list pc) : nat :=
  match ts with
  | [] => 0
  | p :: rest => (if f p then 1 else 0) + count f rest
  end.

End Locking.

(* ===================================================================== *)
(** * Part II: properties                                                 *)
(* ===================================================================== *)

Module StringProps.

Lemma append_cons a s t : String a s +:+ t = String a (s +:+ t).
Proof. reflexivity. Qed.

Lemma append_nil_l s : "" +:+ s = s.
Proof. reflexivity. Qed.

Lemma append_nil_r s : s +:+ "" = s.
Proof. induction s as [|a s IH]; [done|]. by rewrite append_cons, IH. Qed.

Lemma append_assoc s t u : (s +:+ t) +:+ u = s +:+ t +:+ u.
Proof. induction s as [|a s IH]; [done|]. by rewrite !append_cons, IH. Qed.

Lemma length_append s t :
  String.length (s +:+ t) = String.length s + String.length t.
Proof. induction s as [|a s IH]; [done|]. rewrite append_cons. simpl. by rewrite IH. Qed.

Lemma append_same_length s t s' t' :
  s +:+ t = s' +:+ t' -> String.length s = String.length s' -> s = s' /\ t = t'.
Proof.
  revert s'. induction s as [|a s IH]; intros [|a' s'] H Hlen; try done.
  rewrite !append_cons in H. injection H as -> H. simpl in Hlen.
  destruct (IH s' H) as [-> ->]; [lia|done].
Qed.

End StringProps.

Module CoreProps.
Import Core.

(** *** Allocation and caller writes *)

Lemma alloc_fresh xs h : h !! (alloc xs h).1 = None.
Proof. unfold alloc; simpl. apply not_elem_of_dom, is_fresh. Qed.

Lemma alloc_lookup xs h : (alloc xs h).2 !! (alloc xs h).1 = Some xs.
Proof. unfold alloc; simpl. apply lookup_insert_eq. Qed.

Lemma alloc_old xs h k : is_Some (h !! k) -> (alloc xs h).2 !! k = h !! k.
Proof.
  intros Hk. unfold alloc; simpl. apply lookup_insert_ne.
  intros <-. pose proof (alloc_fresh xs h) as Hf. unfold alloc in Hf; simpl in Hf.
  rewrite Hf in Hk. by destruct Hk.
Qed.

Lemma SliceSet_shape l i v st st' :
  SliceSet l i v st = Some st' ->
  globals st' = globals st /\ calls st' = calls st /\
  dom (heap st') = dom (heap st) /\
  forall k, k <> l -> heap st' !! k = heap st !! k.
Proof.
  unfold SliceSet. destruct (heap st !! l) as [xs|] eqn:Hl; [|done].
  case_decide; [|done]. intros [= <-]; simpl. repeat split.
  - apply set_eq. intros k. rewrite dom_insert. 
    rewrite elem_of_union, elem_of_singleton, !elem_of_dom.
    split; [intros [->|]; eauto | eauto].
  - intros k Hk. by apply lookup_insert_ne.
Qed.

Lemma scribble_shape l writes st :
  globals (scribble l writes st) = globals st /\
  calls (scribble l writes st) = calls st /\
  dom (heap (scribble l writes st)) = dom (heap st) /\
  forall k, k <> l -> heap (scribble l writes st) !! k = heap st !! k.
Proof.
  revert st. induction writes as [|[i v] rest IH]; intros st; simpl; [done|].
  destruct (SliceSet l i v st) as [st1|] eqn:Hset; [|apply IH].
  destruct (SliceSet_shape _ _ _ _ _ Hset) as (Hg & Hc & Hd & Hk).
  destruct (IH st1) as (Hg' & Hc' & Hd' & Hk').
  repeat split; try congruence.
  intros k Hne. rewrite Hk', Hk; done.
Qed.

(** *** Registration and creation *)

Lemma RegisterServiceFactory_lookup t f st t' :
  serviceFactories (globals (RegisterServiceFactory t f st)) !! t' =
  if decide (t = t') then Some f else serviceFactories (globals st) !! t'.
Proof. unfold RegisterServiceFactory; simpl. apply lookup_insert. Qed.

Lemma RegisterServiceFactory_invalidates t f st :
  cacheValid (globals (RegisterServiceFactory t f st)) = false.
Proof. reflexivity. Qed.

Lemma RegisterServiceFactory_well_formed t f st :
  well_formed st -> well_formed (RegisterServiceFactory t f st).
Proof. intros Hwf c Hc. apply Hwf. exact Hc. Qed.

Lemma initial_well_formed : well_formed initial.
Proof. intros c Hc. discriminate Hc. Qed.

(** The last registration for a kind is the one [CreateService] runs. *)
Lemma CreateService_after_register config timeout f st :
  CreateService config timeout (RegisterServiceFactory (GetType config) f st) =
  call f config timeout (RegisterServiceFactory (GetType config) f st).
Proof.
  unfold CreateService. rewrite RegisterServiceFactory_lookup.
  by rewrite decide_True.
Qed.

(** C2: for a configuration whose kind has no registered factory,
    [CreateService] (and [Registry.Create], which forwards to it) returns
    the [UnsupportedServiceError] of that kind and the call log is
    unchanged, so no factory ran; for a kind with a registered factory the
    call log grows by exactly one entry, naming that kind's factory on the
    given arguments, and the value returned is that factory's result. *)
Theorem CreateService_dispatch config timeout st :
  Registry.Create config timeout st = CreateService config timeout st /\
  match serviceFactories (globals st) !! GetType config with
  | None =>
      CreateService config timeout st =
        (inr (UnsupportedServiceError (GetType config)), st) /\
      calls (CreateService config timeout st).2 = calls st
  | Some factory =>
      (CreateService config timeout st).1 = construct factory config timeout /\
      calls (CreateService config timeout st).2 =
        calls st ++ [mkInvocation (factoryName factory) config timeout] /\
      globals (CreateService config timeout st).2 = globals st /\
      heap (CreateService config timeout st).2 = heap st
  end.
Proof.
  split; [reflexivity|].
  unfold CreateService.
  destruct (serviceFactories (globals st) !! GetType config) as [f|]; simpl; auto.
Qed.

(** *** The cached listing of kinds *)

(** The kinds a call to [GetSupportedServiceTypes] hands back. *)
Definition listing (visit : list ServiceType -> list ServiceType) (st : State)
  : list ServiceType :=
  elements_of (GetSupportedServiceTypes visit st).2
              (GetSupportedServiceTypes visit st).1.

(** A registry with one registered factory and no listing computed yet:
    the state right after an [init()] registration. *)
Definition noFactory : ServiceFactory :=
  mkFactory 0 (fun _ _ => inr (errorString "unavailable")).

Definition registered : State :=
  RegisterServiceFactory ServiceTypeSuperset noFactory initial.

Lemma registered_well_formed : well_formed registered.
Proof. apply RegisterServiceFactory_well_formed, initial_well_formed. Defined.

(** C3, as stated, fails: on a registry whose listing cache is not valid,
    [GetSupportedServiceTypes] stores a new slice in
    [supportedTypesCache] and sets [cacheValid], so the registry's
    internal state is not what it was before the call. *)
Lemma GetSupportedServiceTypes_writes_cache :
  globals (GetSupportedServiceTypes id registered).2 <> globals registered /\
  cacheValid (globals registered) = false /\
  cacheValid (globals (GetSupportedServiceTypes id registered).2) = true /\
  supportedTypesCache (globals registered) = None /\
  supportedTypesCache (globals (GetSupportedServiceTypes id registered).2) = Some 2%positive.
Proof. vm_compute. repeat split; discriminate. Qed.

Lemma GetSupportedServiceTypes_cases visit st :
  let g := globals st in
  (cacheValid g = true /\ exists c, supportedTypesCache g = Some c /\
     GetSupportedServiceTypes visit st =
       (Some (alloc (default [] (heap st !! c)) (heap st)).1,
        mkState g (alloc (default [] (heap st !! c)) (heap st)).2 (calls st)))
  \/
  ((cacheValid g = false \/ supportedTypesCache g = None) /\
     let keys := visit (map fst (map_to_list (serviceFactories g))) in
     let h1 := (alloc keys (heap st)).2 in
     GetSupportedServiceTypes visit st =
       (Some (alloc keys (heap st)).1,
        mkState (mkGlobals (serviceFactories g) (Some (alloc keys h1).1) true)
                (alloc keys h1).2 (calls st))).
Proof.
  unfold GetSupportedServiceTypes; simpl.
  destruct (cacheValid (globals st)) eqn:Hv;
    destruct (supportedTypesCache (globals st)) as [c|] eqn:Hc; simpl.
  - left. split; [reflexivity|]. exists c. split; reflexivity.
  - right. split; [by right|]. reflexivity.
  - right. split; [by left|]. reflexivity.
  - right. split; [by left|]. reflexivity.
Qed.

(** A listing served from a valid cache is the content of the cache. *)
Lemma listing_cached visit st c :
  cacheValid (globals st) = true ->
  supportedTypesCache (globals st) = Some c ->
  listing visit st = default [] (heap st !! c).
Proof.
  intros Hv Hc. unfold listing, GetSupportedServiceTypes. rewrite Hv, Hc. simpl.
  by rewrite lookup_insert_eq.
Qed.

(** A listing rebuilt from the map is the key set in the order visited. *)
Lemma listing_rebuilt visit st :
  cacheValid (globals st) = false \/ supportedTypesCache (globals st) = None ->
  listing visit st = visit (map fst (map_to_list (serviceFactories (globals st)))).
Proof.
  intros H. unfold listing, GetSupportedServiceTypes.
  set (keys := visit _).
  assert (Hgoal : forall h, elements_of
     (mkState (mkGlobals (serviceFactories (globals st))
        (Some (alloc keys (alloc keys h).2).1) true)
        (alloc keys (alloc keys h).2).2 (calls st))
     (Some (alloc keys h).1) = keys).
  { intros h. unfold elements_of; simpl.
    rewrite lookup_insert_ne.
    - by rewrite lookup_insert_eq.
    - intros Heq. pose proof (is_fresh (dom (<[fresh (dom h) := keys]> h))) as Hf.
      rewrite Heq in Hf. apply Hf. rewrite dom_insert. set_solver. }
  destruct H as [H|H]; rewrite H.
  - destruct (supportedTypesCache (globals st)); apply Hgoal.
  - destruct (cacheValid (globals st)); apply Hgoal.
Qed.

(** C3, amended: a call to [GetSupportedServiceTypes] never changes the
    factory map or the call log, and changes nothing at all in the
    registry's variables when the listing cache is valid; otherwise the
    only variables it writes are [supportedTypesCache] and [cacheValid].
    The slice it returns is a newly allocated array that is not the
    registry's cache, so whatever a caller later writes into it leaves the
    registry's variables, the cached array and the result of every later
    [GetSupportedServiceTypes], [IsServiceTypeSupported] and
    [CreateService] as they would have been without the writes. *)
Theorem GetSupportedServiceTypes_frame visit st :
  well_formed st ->
  exists l st',
    GetSupportedServiceTypes visit st = (Some l, st') /\
    serviceFactories (globals st') = serviceFactories (globals st) /\
    calls st' = calls st /\
    (cacheValid (globals st) = true ->
     is_Some (supportedTypesCache (globals st)) ->
     globals st' = globals st) /\
    cacheValid (globals st') = true /\
    heap st !! l = None /\
    supportedTypesCache (globals st') <> Some l /\
    well_formed st' /\
    forall writes,
      let st'' := scribble l writes st' in
      globals st'' = globals st' /\
      (forall c, supportedTypesCache (globals st') = Some c ->
                 heap st'' !! c = heap st' !! c) /\
      (forall visit', listing visit' st'' = listing visit' st') /\
      (forall t, IsServiceTypeSupported t st'' = IsServiceTypeSupported t st') /\
      (forall config timeout,
         (CreateService config timeout st'').1 = (CreateService config timeout st').1).
Proof.
  intros Hwf.
  assert (Hafter : forall l st',
    cacheValid (globals st') = true ->
    (exists c, supportedTypesCache (globals st') = Some c /\ c <> l /\
               is_Some (heap st' !! c)) ->
    forall writes,
      let st'' := scribble l writes st' in
      globals st'' = globals st' /\
      (forall c, supportedTypesCache (globals st') = Some c ->
                 heap st'' !! c = heap st' !! c) /\
      (forall visit', listing visit' st'' = listing visit' st') /\
      (forall t, IsServiceTypeSupported t st'' = IsServiceTypeSupported t st') /\
      (forall config timeout,
         (CreateService config timeout st'').1 = (CreateService config timeout st').1)).
  { intros l st' Hv (c & Hc & Hne & Hin) writes st''.
    destruct (scribble_shape l writes st') as (Hg & Hcalls & Hdom & Hk).
    fold st'' in Hg, Hcalls, Hdom, Hk.
    split; [exact Hg|]. split.
    { intros c' Hc'. apply Hk. congruence. }
    split.
    { intros visit'.
      rewrite (listing_cached visit' st'' c) by congruence.
      rewrite (listing_cached visit' st' c) by congruence.
      by rewrite Hk. }
    split.
    { intros t. unfold IsServiceTypeSupported. by rewrite Hg. }
    intros config timeout. unfold CreateService. rewrite Hg.
    by destruct (serviceFactories (globals st') !! GetType config). }
  destruct (GetSupportedServiceTypes_cases visit st) as
    [(Hv & c & Hc & Heq) | (Hinv & Heq)]; simpl in Heq.
  - (* served from the cache *)
    destruct (Hwf c Hc) as [xs Hxs].
    assert (Hfresh : fresh (dom (heap st)) <> c).
    { intros Hf. pose proof (is_fresh (dom (heap st))) as Hn.
      rewrite Hf in Hn. apply Hn. apply elem_of_dom. eauto. }
    eexists _, _. split; [exact Heq|].
    match goal with |- context [scribble _ _ ?s] => set (st1 := s) end.
    split_and!; auto.
    + apply not_elem_of_dom, is_fresh.
    + simpl. rewrite Hc. intros [= Heq']. by apply Hfresh.
    + intros c' Hc'. simpl in *. rewrite Hc in Hc'. injection Hc' as <-.
      rewrite lookup_insert_ne by done. eauto.
    + apply (Hafter _ st1); simpl; [done|].
      exists c. split_and!; [done|by apply not_eq_sym|].
      rewrite lookup_insert_ne by done. eauto.
  - (* rebuilt *)
    set (keys := visit (map fst (map_to_list (serviceFactories (globals st))))) in *.
    set (l := fresh (dom (heap st))) in *.
    set (h1 := <[l := keys]> (heap st)) in *.
    set (c := fresh (dom h1)) in *.
    assert (Hcl : c <> l).
    { intros Hf. pose proof (is_fresh (dom h1)) as Hn. fold c in Hn.
      rewrite Hf in Hn. apply Hn. unfold h1. rewrite dom_insert. set_solver. }
    assert (Hcc : is_Some (<[c := keys]> h1 !! c)).
    { rewrite lookup_insert_eq. eauto. }
    eexists _, _. split; [exact Heq|].
    match goal with |- context [scribble _ _ ?s] => set (st1 := s) end.
    split_and!; auto.
    + intros Hv [c0 Hc0]. destruct Hinv as [Hinv|Hinv]; congruence.
    + apply not_elem_of_dom, is_fresh.
    + simpl. intros [= Heq']. by apply Hcl.
    + intros c' [= <-]. simpl. exact Hcc.
    + apply (Hafter _ st1); simpl; [done|]. exists c. split_and!; done.
Qed.

Lemma GetSupportedServiceTypes_frame_witness :
  well_formed registered /\
  exists l st',
    GetSupportedServiceTypes id registered = (Some l, st') /\
    serviceFactories (globals st') = serviceFactories (globals registered) /\
    supportedTypesCache (globals st') <> Some l.
Proof.
  split; [exact registered_well_formed|].
  destruct (GetSupportedServiceTypes_frame id registered registered_well_formed)
    as (l & st' & H1 & H2 & _ & _ & _ & _ & H3 & _).
  exists l, st'. auto.
Defined.


(** *** Registration *)

(** X1: registering a factory for a kind makes that kind supported and
    makes [CreateService] run that factory for every configuration of the
    kind, also when another factory was registered for the kind before
    (the last registration wins); for every other kind,
    [IsServiceTypeSupported] and the result of [CreateService] are what
    they were.  Registering runs no factory and allocates nothing. *)
Theorem RegisterServiceFactory_then_use t f st :
  let st' := RegisterServiceFactory t f st in
  IsServiceTypeSupported t st' = true /\
  (forall config timeout, GetType config = t ->
     CreateService config timeout st' = call f config timeout st') /\
  (forall t', t' <> t ->
     IsServiceTypeSupported t' st' = IsServiceTypeSupported t' st /\
     forall config timeout, GetType config = t' ->
       (CreateService config timeout st').1 = (CreateService config timeout st).1) /\
  calls st' = calls st /\ heap st' = heap st.
Proof.
  simpl. split_and!; try reflexivity.
  - unfold IsServiceTypeSupported. rewrite RegisterServiceFactory_lookup.
    by rewrite decide_True.
  - intros config timeout <-. apply CreateService_after_register.
  - intros t' Hne. split.
    + unfold IsServiceTypeSupported. rewrite RegisterServiceFactory_lookup.
      by rewrite decide_False.
    + intros config timeout Ht. unfold CreateService.
      rewrite RegisterServiceFactory_lookup, Ht.
      rewrite decide_False by done.
      by destruct (serviceFactories (globals st) !! t').
Qed.

(** *** The listing over a history of calls *)

(** What the process does with the registry: it registers a factory,
    creates a service, asks for the listing, or writes into the slice the
    last listing handed out (a write out of range panics and writes
    nothing). *)
Inductive Op : Type :=
| OpRegister (t : ServiceType) (factory : ServiceFactory)
| OpCreate (config : ServiceConfig) (timeout : Duration)
| OpListing (visit : list ServiceType -> list ServiceType)
| OpWrite (i : nat) (v : ServiceType).

(** The registry and the slice last handed out. *)
Definition step (acc : State * slice) (o : Op) : State * slice :=
  let '(st, last) := acc in
  match o with
  | OpRegister t factory => (RegisterServiceFactory t factory st, last)
  | OpCreate config timeout => ((CreateService config timeout st).2, last)
  | OpListing visit =>
      ((GetSupportedServiceTypes visit st).2, (GetSupportedServiceTypes visit st).1)
  | OpWrite i v =>
      match last with
      | Some l => (default st (SliceSet l i v st), last)
      | None => (st, last)
      end
  end.

Definition run (ops : list Op) : State * slice := foldl step (initial, None) ops.

(** An iteration order visits every key once. *)
Definition permutes (visit : list ServiceType -> list ServiceType) : Prop :=
  forall l, visit l ≡ₚ l.

Definition fair (o : Op) : Prop :=
  match o with OpListing visit => permutes visit | _ => True end.

Definition kinds (st : State) : list ServiceType :=
  map fst (map_to_list (serviceFactories (globals st))).

(** The cache, when valid, holds the registered kinds, and is not the
    slice a caller holds. *)
Definition coherent (acc : State * slice) : Prop :=
  let '(st, last) := acc in
  (forall c, supportedTypesCache (globals st) = Some c -> is_Some (heap st !! c)) /\
  (forall l, last = Some l ->
     is_Some (heap st !! l) /\ supportedTypesCache (globals st) <> Some l) /\
  (cacheValid (globals st) = true ->
   exists c xs, supportedTypesCache (globals st) = Some c /\
                heap st !! c = Some xs /\ xs ≡ₚ kinds st).

Lemma coherent_step acc o : fair o -> coherent acc -> coherent (step acc o).
Proof.
  destruct acc as [st last]. intros Hfair (Hwf & Hlast & Hvalid).
  destruct o as [t f|config timeout|visit|i v]; simpl.
  - split_and!; [exact Hwf|exact Hlast|]. simpl. discriminate.
  - unfold CreateService.
    destruct (serviceFactories (globals st) !! GetType config); simpl;
      split_and!; done.
  - destruct (GetSupportedServiceTypes_cases visit st) as
      [(Hv & c & Hc & Heq) | (Hinv & Heq)]; simpl in Heq; rewrite Heq; simpl.
    + destruct (Hvalid Hv) as (c' & xs & Hc' & Hxs & Hperm).
      assert (c' = c) as -> by congruence.
      assert (Hfresh : fresh (dom (heap st)) <> c).
      { intros Hf. pose proof (is_fresh (dom (heap st))) as Hn.
        rewrite Hf in Hn. apply Hn. apply elem_of_dom. eauto. }
      split_and!.
      * intros c0 Hc0. rewrite Hc in Hc0. injection Hc0 as <-.
        rewrite lookup_insert_ne by done. eauto.
      * intros l [= <-]. split.
        -- rewrite lookup_insert_eq. eauto.
        -- rewrite Hc. intros [= ?]. by apply Hfresh.
      * intros _. exists c, xs. split_and!; try done.
        rewrite lookup_insert_ne by done. done.
    + set (keys := visit (map fst (map_to_list (serviceFactories (globals st))))) in *.
      set (l := fresh (dom (heap st))) in *.
      set (h1 := <[l := keys]> (heap st)) in *.
      set (c := fresh (dom h1)) in *.
      assert (Hcl : c <> l).
      { intros Hf. pose proof (is_fresh (dom h1)) as Hn. fold c in Hn.
        rewrite Hf in Hn. apply Hn. unfold h1. rewrite dom_insert. set_solver. }
      split_and!.
      * intros c0 [= <-]. rewrite lookup_insert_eq. eauto.
      * intros l0 [= <-]. split.
        -- rewrite lookup_insert_ne by done. unfold h1. rewrite lookup_insert_eq. eauto.
        -- intros [= ?]. done.
      * intros _. exists c, keys. split_and!; try done.
        -- apply lookup_insert_eq.
        -- apply Hfair.
  - destruct last as [l|]; [|done].
    destruct (SliceSet l i v st) as [st'|] eqn:Hset; simpl; [|done].
    destruct (SliceSet_shape _ _ _ _ _ Hset) as (Hg & Hc & Hd & Hk).
    destruct (Hlast l eq_refl) as [Hin Hne].
    split_and!.
    + intros c Hc0. rewrite Hg in Hc0.
      assert (c <> l) by congruence. rewrite Hk by done. auto.
    + intros l0 [= <-]. split.
      * apply elem_of_dom. rewrite Hd. by apply elem_of_dom.
      * by rewrite Hg.
    + rewrite Hg. intros Hv. destruct (Hvalid Hv) as (c & xs & Hc0 & Hxs & Hperm).
      exists c, xs. split_and!; try done.
      * rewrite Hk; [done|congruence].
      * unfold kinds. by rewrite Hg.
Qed.

Lemma coherent_run ops : Forall fair ops -> coherent (run ops).
Proof.
  unfold run. intros Hops.
  assert (Hinit : coherent (initial, None)).
  { split_and!; simpl; try done. }
  revert Hinit. generalize (initial, @None loc).
  induction Hops as [|o ops Ho _ IH]; intros acc Hacc; simpl; [done|].
  apply IH. by apply coherent_step.
Qed.

Lemma step_kinds acc o t :
  is_Some (serviceFactories (globals (step acc o).1) !! t) <->
  is_Some (serviceFactories (globals acc.1) !! t) \/
  exists f, o = OpRegister t f.
Proof.
  destruct acc as [st last].
  destruct o as [t0 f|config timeout|visit|i v]; simpl.
  - rewrite lookup_insert. case_decide as Heq.
    + subst. split; [intros _; right; eauto|eauto].
    + split; [auto|]. intros [H|[f' [= ? ?]]]; [done|congruence].
  - unfold CreateService.
    destruct (serviceFactories (globals st) !! GetType config); simpl;
      (split; [auto|intros [H|[? ?]]; [done|discriminate]]).
  - destruct (GetSupportedServiceTypes_cases visit st) as
      [(Hv & c & Hc & Heq) | (Hinv & Heq)]; simpl in Heq; rewrite Heq; simpl;
      (split; [auto|intros [H|[? ?]]; [done|discriminate]]).
  - destruct last as [l|]; simpl.
    + destruct (SliceSet l i v st) as [st'|] eqn:Hset; simpl.
      * destruct (SliceSet_shape _ _ _ _ _ Hset) as (Hg & _). rewrite Hg.
        split; [auto|intros [H|[? ?]]; [done|discriminate]].
      * split; [auto|intros [H|[? ?]]; [done|discriminate]].
    + split; [auto|intros [H|[? ?]]; [done|discriminate]].
Qed.

Lemma run_kinds ops t :
  is_Some (serviceFactories (globals (run ops).1) !! t) <->
  exists f, OpRegister t f ∈ ops.
Proof.
  unfold run.
  assert (H : forall acc,
    is_Some (serviceFactories (globals (foldl step acc ops).1) !! t) <->
    is_Some (serviceFactories (globals acc.1) !! t) \/
    exists f, OpRegister t f ∈ ops).
  { induction ops as [|o ops IH]; intros acc; simpl.
    - split; [auto|]. intros [H|[f H]]; [done|]. by apply elem_of_nil in H.
    - rewrite IH, step_kinds. split.
      + intros [[H|[f ->]]|[f H]]; [by left|right|right].
        * exists f. apply list_elem_of_here.
        * exists f. by apply list_elem_of_further.
      + intros [H|[f H]]; [by left; left|].
        apply elem_of_cons in H as [<-|H]; [left; right; eauto|right; eauto]. }
  rewrite H. simpl. rewrite lookup_empty. split.
  - intros [[? ?]|?]; [done|done].
  - auto.
Qed.

(** X2: after any history of registrations, creations, listings and
    caller writes into the slices handed out, starting from the empty
    registry, [GetSupportedServiceTypes] returns every kind registered so
    far exactly once, and nothing else: the cached listing is never stale
    and never damaged by a caller.  The kinds listed are those
    [IsServiceTypeSupported] accepts.  (Every iteration over the factory
    map is taken to visit each key once.) *)
Theorem listing_tracks_registrations ops visit :
  Forall fair ops -> permutes visit ->
  NoDup (listing visit (run ops).1) /\
  forall t,
    (t ∈ listing visit (run ops).1 <-> exists f, OpRegister t f ∈ ops) /\
    (t ∈ listing visit (run ops).1 <->
     IsServiceTypeSupported t (run ops).1 = true).
Proof.
  intros Hops Hvisit.
  pose proof (coherent_run ops Hops) as Hco.
  assert (Hk : forall t,
    is_Some (serviceFactories (globals (run ops).1) !! t) <->
    exists f, OpRegister t f ∈ ops) by (intros t; apply run_kinds).
  destruct (run ops) as [st last] eqn:Hrun. destruct Hco as (Hwf & Hlast & Hvalid).
  simpl in *.
  assert (Hperm : listing visit st ≡ₚ kinds st).
  { destruct (cacheValid (globals st)) eqn:Hv.
    - destruct (Hvalid eq_refl) as (c & xs & Hc & Hxs & Hperm).
      rewrite (listing_cached visit st c Hv Hc), Hxs. done.
    - rewrite listing_rebuilt by auto. apply Hvisit. }
  assert (Hmem : forall t,
    t ∈ listing visit st <-> is_Some (serviceFactories (globals st) !! t)).
  { intros t. rewrite Hperm. unfold kinds. rewrite list_elem_of_fmap. split.
    - intros [[t' f] [-> Hin]]. apply elem_of_map_to_list in Hin. eauto.
    - intros [f Hf]. exists (t, f). split; [done|]. by apply elem_of_map_to_list. }
  split.
  - rewrite Hperm. unfold kinds. apply NoDup_fst_map_to_list.
  - intros t. split.
    + by rewrite Hmem, Hk.
    + rewrite Hmem. unfold IsServiceTypeSupported.
      destruct (serviceFactories (globals st) !! t); split; try done; eauto.
Qed.

(** Both kinds are registered, with a listing taken in between and
    overwritten by its caller. *)
Definition history : list Op :=
  [ OpRegister ServiceTypeSuperset noFactory;
    OpListing id;
    OpWrite 0 "bogus";
    OpRegister ServiceTypePrometheus noFactory ].

Lemma listing_tracks_registrations_witness :
  Forall fair history /\ permutes id /\
  NoDup (listing id (run history).1) /\
  ServiceTypePrometheus ∈ listing id (run history).1.
Proof.
  assert (Hid : permutes id) by (intros l; reflexivity).
  assert (Hops : Forall fair history).
  { apply Forall_cons. split; [exact I|].
    apply Forall_cons. split; [exact Hid|].
    apply Forall_cons. split; [exact I|].
    apply Forall_cons. split; [exact I|apply Forall_nil_2]. }
  split; [exact Hops|]. split; [exact Hid|].
  destruct (listing_tracks_registrations history id Hops Hid) as [Hnd Hmem].
  split; [exact Hnd|].
  apply (proj2 (proj1 (Hmem ServiceTypePrometheus))).
  exists noFactory. unfold history.
  do 3 apply list_elem_of_further. apply list_elem_of_here.
Defined.

End CoreProps.

Module MultiplexerProps.
Import Core Multiplexer.

(** *** The mux built by [Start] *)

Definition mounted (m : gmap string Service) : option ServeMux :=
  if decide (is_Some (m !! "")) then None
  else Some (StreamableHTTPHandler <$> m).

Lemma mountAll_spec (m : gmap string Service) : mountAll m = mounted m.
Proof.
  unfold mountAll.
  apply (map_fold_weak_ind (fun r (m : gmap string Service) => r = mounted m)).
  - unfold mounted. rewrite decide_False; [by rewrite fmap_empty|].
    rewrite lookup_empty. by intros [? ?].
  - intros i x m0 r Hi ->. unfold Handle, mounted.
    destruct (decide (i = "")) as [->|Hne].
    + rewrite (decide_True (P := is_Some (<[""%string:=x]> m0 !! ""))).
      * by case_decide.
      * rewrite lookup_insert_eq. eauto.
    + rewrite lookup_insert_ne by done.
      destruct (decide (is_Some (m0 !! ""))); [done|].
      rewrite lookup_fmap, Hi. simpl. by rewrite fmap_insert.
Qed.

Lemma Start_spec p :
  Start p =
  if decide (is_Some (services (self p) !! "") \/
             is_Some (services (self p) !! rootPath))
  then None
  else Some (mkProc
         (mkServer (services (self p))
            (Some (mkHttpServer (":" +:+ port (self p))
                     (<[rootPath := handleRoot]>
                        (StreamableHTTPHandler <$> services (self p)))
                     readTimeout writeTimeout idleTimeout maxHeaderBytes))
            (port (self p)) (serverAddresses (self p)))
         (events p ++ startLog (self p) (services (self p)))).
Proof.
  unfold Start. rewrite mountAll_spec. unfold mounted.
  destruct (decide (is_Some (services (self p) !! ""))) as [He|He].
  { rewrite decide_True by auto. reflexivity. }
  unfold Handle. rewrite decide_False by done.
  rewrite lookup_fmap.
  destruct (services (self p) !! rootPath) as [a|] eqn:Hroot; simpl.
  - rewrite decide_True; [done|]. right. eauto.
  - rewrite decide_False; [done|]. intros [H|[? H]]; [done|discriminate].
Qed.

Lemma AddService_server service p :
  server (self (AddService service p)) = server (self p).
Proof. reflexivity. Qed.

Lemma RemoveService_server endpoint p :
  server (self (RemoveService endpoint p)) = server (self p).
Proof. unfold RemoveService. by destruct (services (self p) !! endpoint). Qed.

(** No call of [AddService] or [RemoveService] touches the listener. *)
Lemma mutate_server ms p : server (self (mutate ms p)) = server (self p).
Proof.
  revert p. induction ms as [|m ms IH]; intros p; [done|].
  unfold mutate in *; simpl. rewrite IH.
  destruct m; [apply AddService_server | apply RemoveService_server].
Qed.

(** *** Plain patterns and clean paths *)

(** The default endpoints are plain paths; a subtree pattern, a wildcard
    and a pattern with a method are not. *)
Example literal_patterns :
  literal <$> ["/superset/mcp"; "/prometheus/mcp"; "/superset/"; "/";
               "/{service}/mcp"; "POST /mcp"; "mcp"]
  = [true; true; false; false; false; false; false].
Proof. reflexivity. Qed.

Example clean_paths :
  clean <$> ["/superset/mcp"; "/"; "/superset/mcp/"; "/superset//mcp";
             "/superset/../mcp"; "/./mcp"; "/superset%2Fmcp"; "mcp"; ""]
  = [true; true; true; false; false; false; false; false; false].
Proof. reflexivity. Qed.

(** *** Two adapters for the same endpoint *)

Definition adapterA : Service := mkService 1 ServiceTypeSuperset "/superset/mcp" 10.
Definition adapterB : Service := mkService 2 ServiceTypeSuperset "/superset/mcp" 20.

Definition gatewayA : Proc := AddService adapterA (NewServer "8080" ["192.168.1.5"]).

(** C1, as stated, fails: with adapter A mounted at [/superset/mcp] when
    [Start] runs, a later [AddService] of adapter B for the same endpoint
    puts B in the routing table, and a later [RemoveService] empties the
    table at that endpoint, yet in both cases the next request to
    [/superset/mcp] is still handed to A. *)
Lemma request_after_Start_ignores_table :
  (AddService adapterB <$> Start gatewayA) ≫=
     (fun p => services (self p) !! "/superset/mcp") = Some adapterB /\
  (AddService adapterB <$> Start gatewayA) ≫=
     (fun p => ServeHTTP p "/superset/mcp") = Some (ToAdapter adapterA 10) /\
  (RemoveService "/superset/mcp" <$> Start gatewayA) ≫=
     (fun p => Some (services (self p) !! "/superset/mcp")) = Some None /\
  (RemoveService "/superset/mcp" <$> Start gatewayA) ≫=
     (fun p => ServeHTTP p "/superset/mcp") = Some (ToAdapter adapterA 10) /\
  adapterA <> adapterB.
Proof. vm_compute. split_and!; try reflexivity. discriminate. Qed.

(** C1, amended: let every endpoint in the routing table when [Start]
    runs be a plain path ([literal]: it begins with a slash, does not end
    with one, and holds no space, tab, brace or percent sign, as the
    default endpoints do), and let the request have a [clean] path.  Once
    [Start] has built the mux, a request to a path that was in the table
    when [Start] ran is handed to the adapter the table held at that path
    at that moment, whatever [AddService] and [RemoveService] calls have
    been made since; a request to any other path, an endpoint first
    mounted after [Start] included, reaches no adapter (it gets the status
    page for [/], rendered from the current table, and 404 otherwise).
    Calls made after [Start] change the table and the status page, not
    the routing. *)
Theorem Start_fixes_routing p p1 ms path :
  map_Forall (fun endpoint _ => literal endpoint = true) (services (self p)) ->
  clean path = true ->
  Start p = Some p1 ->
  ServeHTTP (mutate ms p1) path =
  Some match services (self p) !! path with
       | Some a => ToAdapter a (GetServer a)
       | None =>
           if decide (path = rootPath)
           then StatusPage (GetServiceInfo (self (mutate ms p1)))
           else NotFound
       end.
Proof.
  intros _ _.
  rewrite Start_spec. case_decide as Hbad; [done|]. intros [= <-].
  unfold ServeHTTP. rewrite mutate_server. simpl.
  unfold match_.
  destruct (decide (path = rootPath)) as [->|Hne].
  - rewrite lookup_insert_eq.
    destruct (services (self p) !! rootPath) eqn:Hr.
    + exfalso. apply Hbad. right. eauto.
    + reflexivity.
  - rewrite lookup_insert_ne by done. rewrite lookup_fmap.
    destruct (services (self p) !! path) as [a|]; simpl; [done|].
    by rewrite lookup_insert_eq.
Qed.

Lemma Start_fixes_routing_witness :
  map_Forall (fun endpoint _ => literal endpoint = true)
             (services (self gatewayA)) /\
  clean "/superset/mcp" = true /\
  Start gatewayA = Some (default gatewayA (Start gatewayA)) /\
  ServeHTTP (mutate [Add adapterB; Remove "/superset/mcp"]
                    (default gatewayA (Start gatewayA))) "/superset/mcp" =
  Some (ToAdapter adapterA 10).
Proof.
  assert (H1 : map_Forall (fun endpoint _ => literal endpoint = true)
                          (services (self gatewayA))).
  { apply map_Forall_insert_2; [reflexivity|apply map_Forall_empty]. }
  assert (H2 : clean "/superset/mcp" = true) by reflexivity.
  split; [exact H1|]. split; [exact H2|].
  split; [vm_compute; reflexivity|].
  exact (Start_fixes_routing gatewayA (default gatewayA (Start gatewayA))
           [Add adapterB; Remove "/superset/mcp"] "/superset/mcp" H1 H2 eq_refl).
Defined.

(** *** Removal *)

(** C10: at an endpoint where nothing is mounted [RemoveService] returns
    the gateway unchanged: same table, same listener, no [Close] call,
    nothing logged.  At an endpoint where adapter [a] is mounted the table
    loses exactly that entry, every other endpoint keeps its adapter, the
    listener is untouched, and the [Close] calls made are one call, on
    [a]. *)
Theorem RemoveService_effect endpoint p :
  match services (self p) !! endpoint with
  | None => RemoveService endpoint p = p
  | Some a =>
      services (self (RemoveService endpoint p)) =
        delete endpoint (services (self p)) /\
      services (self (RemoveService endpoint p)) !! endpoint = None /\
      (forall e, e <> endpoint ->
         services (self (RemoveService endpoint p)) !! e =
         services (self p) !! e) /\
      closed (events (RemoveService endpoint p)) = closed (events p) ++ [a] /\
      server (self (RemoveService endpoint p)) = server (self p)
  end.
Proof.
  unfold RemoveService.
  destruct (services (self p) !! endpoint) as [a|] eqn:Hm; [|done]. simpl.
  split_and!; auto.
  - apply lookup_delete_eq.
  - intros e He. by apply lookup_delete_ne.
  - unfold closed. rewrite omap_app. reflexivity.
Qed.


Import StringProps.

(** *** Mounting, unmounting, shutting down *)

Lemma closed_app evs evs' : closed (evs ++ evs') = closed evs ++ closed evs'.
Proof. unfold closed. apply omap_app. Qed.

Lemma closed_EvClose l : closed (EvClose <$> l) = l.
Proof. unfold closed. induction l as [|a l IH]; simpl; [done|by f_equal]. Qed.

(** X3: [AddService] puts the adapter in the table at its own endpoint,
    replacing whatever was mounted there, and leaves every other endpoint,
    the listener and the port alone.  It calls [Close] on nobody: an
    adapter it replaces is dropped from the table without being closed.
    A [RemoveService] of that endpoint right after closes the adapter just
    added, once, and leaves the table as the original one without that
    endpoint. *)
Theorem AddService_effect service p :
  let p' := AddService service p in
  services (self p') !! GetEndpoint service = Some service /\
  (forall e, e <> GetEndpoint service ->
     services (self p') !! e = services (self p) !! e) /\
  closed (events p') = closed (events p) /\
  server (self p') = server (self p) /\
  port (self p') = port (self p) /\
  services (self (RemoveService (GetEndpoint service) p')) =
    delete (GetEndpoint service) (services (self p)) /\
  closed (events (RemoveService (GetEndpoint service) p')) =
    closed (events p) ++ [service].
Proof.
  simpl. split_and!; try reflexivity.
  - apply lookup_insert_eq.
  - intros e He. by apply lookup_insert_ne.
  - rewrite closed_app. simpl. by rewrite app_nil_r.
  - unfold RemoveService, AddService. simpl. rewrite lookup_insert_eq. simpl.
    apply delete_insert_eq.
  - unfold RemoveService, AddService. simpl. rewrite lookup_insert_eq. simpl.
    rewrite !closed_app. simpl. by rewrite app_nil_r.
Qed.

(** X4: [Shutdown] calls [Close] once for every entry of the routing
    table (and on nothing else) and leaves the gateway value as it was:
    the adapters stay in the table.  It returns what shutting the listener
    down returns, and nil when [Start] never created a listener.  Since
    the table keeps its entries, a [RemoveService] after [Shutdown] calls
    [Close] on the same adapter a second time. *)
Theorem Shutdown_closes_every_adapter httpShutdown p :
  let p' := (Shutdown httpShutdown p).2 in
  self p' = self p /\
  (exists order,
     closed (events p') = closed (events p) ++ order /\
     length order = size (services (self p)) /\
     forall a, a ∈ order <-> exists e, services (self p) !! e = Some a) /\
  (Shutdown httpShutdown p).1 =
    match server (self p) with
    | Some srv => httpShutdown srv
    | None => None
    end /\
  forall e a,
    services (self p) !! e = Some a ->
    closed (events (RemoveService e p')) = closed (events p') ++ [a].
Proof.
  simpl.
  assert (Hrun : (Shutdown httpShutdown p).2 =
    mkProc (self p) (events p ++ (EvClose <$> (map_to_list (services (self p))).*2))).
  { unfold Shutdown. by destruct (server (self p)). }
  rewrite Hrun. simpl. split_and!.
  - reflexivity.
  - exists ((map_to_list (services (self p))).*2). split_and!.
    + by rewrite closed_app, closed_EvClose.
    + by rewrite length_fmap, length_map_to_list.
    + intros a. rewrite list_elem_of_fmap. split.
      * intros [[e a'] [-> Hin]]. exists e. by apply elem_of_map_to_list.
      * intros [e He]. exists (e, a). split; [done|]. by apply elem_of_map_to_list.
  - unfold Shutdown. by destruct (server (self p)).
  - intros e a He. unfold RemoveService. simpl. rewrite He. simpl.
    rewrite !closed_app. simpl. by rewrite <- !app_assoc.
Qed.

(** *** The status page *)

(** X5: [GetServiceInfo] lists the routing table as it is when called:
    one entry per mounted endpoint, no endpoint twice, every entry marked
    available, each carrying the type of the adapter mounted at its
    endpoint with the tools and the description of that type. *)
Theorem GetServiceInfo_lists_table s :
  length (GetServiceInfo s) = size (services s) /\
  NoDup (Endpoint <$> GetServiceInfo s) /\
  Forall (fun info => Available info = true) (GetServiceInfo s) /\
  forall info,
    info ∈ GetServiceInfo s <->
    exists a,
      services s !! Endpoint info = Some a /\
      info = mkServiceInfo (GetType a) (Endpoint info) true
               (getToolsForService (GetType a))
               (getDescriptionForService (GetType a)).
Proof.
  unfold GetServiceInfo. split_and!.
  - by rewrite length_fmap, length_map_to_list.
  - rewrite <- list_fmap_compose.
    assert (Heq : (Endpoint ∘ (fun '(endpoint, service) =>
               mkServiceInfo (GetType service) endpoint true
                 (getToolsForService (GetType service))
                 (getDescriptionForService (GetType service))))
            <$> map_to_list (services s) = (map_to_list (services s)).*1).
    { apply list_fmap_ext. by intros i [e a] _. }
    rewrite Heq. apply NoDup_fst_map_to_list.
  - apply Forall_fmap, Forall_forall. by intros [e a] _.
  - intros info. rewrite list_elem_of_fmap. split.
    + intros [[e a] [-> Hin]]. simpl. exists a. split; [|done].
      by apply elem_of_map_to_list.
    + intros [a [Ha Heq]]. exists (Endpoint info, a). split; [done|].
      by apply elem_of_map_to_list.
Qed.

(** *** An adapter at the root *)

(** X6: with an adapter mounted at the root path (or at the empty path),
    [Start] panics: the mux refuses the second registration of the root
    pattern (resp. the empty pattern), so no listener is created. *)
Theorem Start_root_conflict p :
  is_Some (services (self p) !! rootPath) \/ is_Some (services (self p) !! "") ->
  Start p = None.
Proof.
  intros H. rewrite Start_spec. rewrite decide_True; [done|]. tauto.
Qed.

(** A gateway whose only adapter was configured with the endpoint [/]. *)
Definition atRoot : Proc :=
  AddService (mkService 3 ServiceTypeSuperset "/" 30) (NewServer "8080" ["10.0.0.1"]).

Lemma Start_root_conflict_witness :
  is_Some (services (self atRoot) !! rootPath) /\ Start atRoot = None.
Proof.
  assert (H : is_Some (services (self atRoot) !! rootPath)).
  { exists (mkService 3 ServiceTypeSuperset "/" 30). reflexivity. }
  split; [exact H|]. exact (Start_root_conflict atRoot (or_introl H)).
Defined.

(** *** Address lines *)

Lemma endpointFormatting_rest_Join addresses port endpoint addr :
  "http://" +:+ addr +:+ ":" +:+ port +:+ endpoint +:+
    endpointFormatting_rest addresses port endpoint =
  Join ((fun addr => "http://" +:+ addr +:+ ":" +:+ port +:+ endpoint)
          <$> (addr :: addresses)) ", ".
Proof.
  revert addr. induction addresses as [|a rest IH]; intros addr.
  - cbn [endpointFormatting_rest fmap list_fmap Join].
    by rewrite append_nil_r.
  - specialize (IH a).
    cbn [endpointFormatting_rest fmap list_fmap Join] in *.
    rewrite <- IH. by rewrite !append_assoc.
Qed.

(** X7: the string [endpointFormatting] builds with its
    [strings.Builder] is the one the first revision of the gateway built
    with [fmt.Sprintf] and [strings.Join]: one URL per address, joined
    with a comma and a space, and the empty string for no address. *)
Theorem endpointFormatting_Join addresses port endpoint :
  endpointFormatting addresses port endpoint =
  legacyEndpoints addresses port endpoint.
Proof.
  unfold legacyEndpoints. destruct addresses as [|addr rest]; [done|].
  apply endpointFormatting_rest_Join.
Qed.

End MultiplexerProps.

Module AddressesProps.
Import Addresses.

(** *** Filtered networks *)

Definition byte (x : Z) : Prop := (0 <= x < 256)%Z.

Lemma land_255 x : byte x -> Z.land x 255 = x.
Proof.
  intros [H0 H1]. change 255%Z with (Z.ones 8). rewrite Z.land_ones by lia.
  apply Z.mod_small. change (2 ^ 8)%Z with 256%Z. lia.
Qed.

Lemma CIDRMask_16 : CIDRMask 16 32 = [255; 255; 0; 0]%Z.
Proof. reflexivity. Qed.

Lemma To4_IPv4 a b c d : To4 (IPv4 a b c d) = Some [a; b; c; d].
Proof. reflexivity. Qed.

Lemma To4_four ip ip4 : To4 ip = Some ip4 -> length ip4 = 4%nat.
Proof.
  unfold To4. destruct (length ip =? IPv4len)%nat eqn:H4.
  - intros [= <-]. by apply Nat.eqb_eq in H4.
  - destruct (length ip =? IPv6len)%nat eqn:H6; simpl; [|done].
    apply Nat.eqb_eq in H6.
    destruct (forallb _ _ && _ && _); [|done].
    intros [= <-]. rewrite length_drop, H6. reflexivity.
Qed.

Lemma To4_idem ip ip4 : To4 ip = Some ip4 -> To4 ip4 = Some ip4.
Proof.
  intros H%To4_four. unfold To4. by rewrite H.
Qed.

Lemma To4_byte ip ip4 : To4 ip = Some ip4 -> Forall byte ip -> Forall byte ip4.
Proof.
  unfold To4. destruct (length ip =? IPv4len)%nat.
  - by intros [= <-].
  - destruct (_ && _ && _ && _); [|done]. intros [= <-] H.
    by apply Forall_drop.
Qed.

Lemma Contains_slash16 i a b c d :
  byte a -> byte b ->
  Contains (mkIPNet (IPv4 172 i 0 0) (CIDRMask 16 32)) [a; b; c; d] =
  (172 =? a)%Z && (Z.land i 255 =? b)%Z.
Proof.
  intros Ha Hb. unfold Contains. simpl.
  rewrite (land_255 a Ha), (land_255 b Hb). 
  rewrite !Z.land_0_r. simpl. by rewrite !andb_true_r.
Qed.

Lemma Contains_slash16_other i ip :
  To4 ip = None ->
  Contains (mkIPNet (IPv4 172 i 0 0) (CIDRMask 16 32)) ip = false.
Proof.
  intros Hnone. unfold Contains. simpl. rewrite Hnone. simpl.
  destruct (length ip =? 4)%nat eqn:Hlen; [|done].
  unfold To4 in Hnone. unfold IPv4len in Hnone. by rewrite Hlen in Hnone.
Qed.

(** X8: for an address given as bytes, [isDockerOrVirtualIP] answers
    true exactly when the address has a 4-byte form whose first byte is
    172 and whose second byte lies between 17 and 31: the sixteen-bit
    networks 172.17 to 172.31.  The rest of the private range 172.16/12,
    that is 172.16.x.x, is not filtered, and no 16-byte address without a
    4-byte form is. *)
Theorem isDockerOrVirtualIP_range ip :
  Forall byte ip ->
  isDockerOrVirtualIP ip = true <->
  exists a b c d, To4 ip = Some [a; b; c; d] /\ a = 172%Z /\ (17 <= b <= 31)%Z.
Proof.
  intros Hbytes. destruct (To4 ip) as [ip4|] eqn:H4.
  - pose proof (To4_four _ _ H4) as Hlen.
    pose proof (To4_byte _ _ H4 Hbytes) as Hb4.
    destruct ip4 as [|a [|b [|c [|d [|]]]]]; try done.
    apply Forall_cons in Hb4 as [Ha Hb4]. apply Forall_cons in Hb4 as [Hb _].
    assert (Hsame : forall i,
      Contains (mkIPNet (IPv4 172 i 0 0) (CIDRMask 16 32)) ip =
      Contains (mkIPNet (IPv4 172 i 0 0) (CIDRMask 16 32)) [a; b; c; d]).
    { intros i. unfold Contains. simpl. rewrite H4. reflexivity. }
    unfold isDockerOrVirtualIP. rewrite Hsame.
    rewrite (Contains_slash16 17 a b c d Ha Hb).
    change (Z.land 17 255) with 17%Z.
    split.
    + intros Hrun. exists a, b, c, d. split; [done|].
      destruct (existsb _ _) eqn:Hex.
      * apply existsb_exists in Hex as (i & Hi & Hc).
        rewrite Hsame, (Contains_slash16 i a b c d Ha Hb) in Hc.
        apply list_elem_of_In, elem_of_seqZ in Hi.
        rewrite (land_255 i) in Hc by (unfold byte; lia).
        apply andb_true_iff in Hc as [?%Z.eqb_eq ?%Z.eqb_eq]. lia.
      * apply andb_true_iff in Hrun as [?%Z.eqb_eq ?%Z.eqb_eq].
        simpl in *. lia.
    + intros (a' & b' & c' & d' & [= <- <- <- <-] & -> & Hrange).
      destruct (existsb _ _) eqn:Hex; [done|].
      destruct (decide (b = 17%Z)) as [->|Hne]; [done|].
      exfalso. rewrite <- not_true_iff_false in Hex. apply Hex.
      apply existsb_exists. exists b. split.
      * apply list_elem_of_In, elem_of_seqZ. lia.
      * rewrite Hsame, (Contains_slash16 b 172 b c d Ha Hb).
        rewrite (land_255 b Hb). rewrite !Z.eqb_refl. done.
  - split.
    + unfold isDockerOrVirtualIP.
      rewrite (Contains_slash16_other 17 ip H4).
      destruct (existsb _ _) eqn:Hex; [|done]. intros _.
      apply existsb_exists in Hex as (i & _ & Hc).
      by rewrite (Contains_slash16_other i ip H4) in Hc.
    + intros (a & b & c & d & ? & _). done.
Qed.

Lemma isDockerOrVirtualIP_range_witness :
  Forall byte [172; 20; 0; 5]%Z /\
  isDockerOrVirtualIP [172; 20; 0; 5]%Z = true.
Proof.
  assert (H : Forall byte [172; 20; 0; 5]%Z).
  { repeat (apply Forall_cons; split; [unfold byte; lia|]). apply Forall_nil_2. }
  split; [exact H|].
  apply (proj2 (isDockerOrVirtualIP_range [172; 20; 0; 5]%Z H)).
  exists 172%Z, 20%Z, 0%Z, 5%Z. split; [reflexivity|]. split; [reflexivity|lia].
Defined.

(** *** The addresses found *)

(** What one address contributes. *)
Definition offers (addr : Addr) (x : string) : Prop :=
  exists ipnet ip4,
    addr = AddrIPNet ipnet /\ To4 (netIP ipnet) = Some ip4 /\
    IsLoopback ip4 = false /\ isDockerOrVirtualIP ip4 = false /\
    x = IPString ip4.

Definition usable (ifaces : list Interface) (x : string) : Prop :=
  exists iface addrs addr,
    iface ∈ ifaces /\
    Z.land (Flags iface) FlagLoopback = 0%Z /\
    Z.land (Flags iface) FlagUp <> 0%Z /\
    Addrs iface = inl addrs /\ addr ∈ addrs /\ offers addr x.

(** The set and the list hold the same strings, none twice. *)
Definition in_step (acc : Scan) : Prop :=
  NoDup (addresses acc) /\
  forall x, default false (addressSet acc !! x) = true <-> x ∈ addresses acc.

Lemma scanAddr_spec acc addr :
  in_step acc ->
  in_step (scanAddr acc addr) /\
  forall x, x ∈ addresses (scanAddr acc addr) <->
            x ∈ addresses acc \/ offers addr x.
Proof.
  intros [Hnd Hset]. unfold scanAddr, offers.
  destruct addr as [ipnet|ip].
  2:{ split; [done|]. intros x. split; [auto|].
      intros [H|(? & ? & ? & _)]; [done|discriminate]. }
  destruct (To4 (netIP ipnet)) as [ip4|] eqn:H4.
  2:{ split; [done|]. intros x. split; [auto|].
      intros [H|(? & ? & [= <-] & ? & _)]; [done|congruence]. }
  destruct (IsLoopback ip4) eqn:Hloop; simpl.
  { split; [done|]. intros x. split; [auto|].
    intros [H|(? & ? & [= <-] & ? & ? & _)]; [done|congruence]. }
  destruct (isDockerOrVirtualIP ip4) eqn:Hdock; simpl.
  { split; [done|]. intros x. split; [auto|].
    intros [H|(? & ? & [= <-] & ? & ? & ? & _)]; [done|congruence]. }
  destruct (default false (addressSet acc !! IPString ip4)) eqn:Hseen; simpl.
  - split; [done|]. intros x. split; [auto|].
    intros [H|(? & ? & [= <-] & ? & ? & ? & ->)]; [done|].
    apply Hset. congruence.
  - assert (Hnew : IPString ip4 ∉ addresses acc).
    { intros Hin. apply Hset in Hin. congruence. }
    split.
    + split; simpl.
      * apply NoDup_app. split_and!; [done| |apply NoDup_singleton].
        intros x Hx ->%list_elem_of_singleton. done.
      * intros x. rewrite elem_of_app, list_elem_of_singleton.
        destruct (decide (x = IPString ip4)) as [->|Hne].
        -- rewrite lookup_insert_eq. simpl. tauto.
        -- rewrite lookup_insert_ne by done. rewrite Hset. tauto.
    + intros x. simpl. rewrite elem_of_app, list_elem_of_singleton. split.
      * intros [H| ->]; [by left|]. right. exists ipnet, ip4. done.
      * intros [H|(? & ? & [= <-] & ? & ? & ? & ->)]; [by left|].
        right. congruence.
Qed.

Lemma scanAddrs_spec addrs acc :
  in_step acc ->
  in_step (foldl scanAddr acc addrs) /\
  logged (foldl scanAddr acc addrs) = logged acc /\
  forall x, x ∈ addresses (foldl scanAddr acc addrs) <->
            x ∈ addresses acc \/ exists addr, addr ∈ addrs /\ offers addr x.
Proof.
  revert acc. induction addrs as [|addr addrs IH]; intros acc Hacc; simpl.
  - split; [done|]. split; [done|]. intros x. split; [auto|].
    intros [H|(? & H & _)]; [done|]. by apply elem_of_nil in H.
  - destruct (scanAddr_spec acc addr Hacc) as [Hacc' Hmem].
    destruct (IH _ Hacc') as (Hin & Hlog & Hall). split; [done|]. split.
    { rewrite Hlog. unfold scanAddr.
      repeat match goal with
      | |- context [match ?x with _ => _ end] => destruct x
      end; reflexivity. }
    intros x. rewrite Hall, Hmem. split.
    + intros [[H|H]|(a & Ha & Hoff)]; [by left|right|right].
      * exists addr. split; [apply list_elem_of_here|done].
      * exists a. split; [by apply list_elem_of_further|done].
    + intros [H|(a & Ha & Hoff)]; [by left; left|].
      apply elem_of_cons in Ha as [->|Ha]; [left; by right|right; eauto].
Qed.

Lemma scanInterfaces_spec ifaces acc :
  in_step acc ->
  in_step (foldl scanInterface acc ifaces) /\
  forall x, x ∈ addresses (foldl scanInterface acc ifaces) <->
            x ∈ addresses acc \/ usable ifaces x.
Proof.
  revert acc. induction ifaces as [|iface ifaces IH]; intros acc Hacc; simpl.
  - split; [done|]. intros x. split; [auto|].
    intros [H|(? & ? & ? & H & _)]; [done|]. by apply elem_of_nil in H.
  - assert (Hone : in_step (scanInterface acc iface) /\
      forall x, x ∈ addresses (scanInterface acc iface) <->
                x ∈ addresses acc \/ usable [iface] x).
    { unfold scanInterface, usable.
      destruct (Z.land (Flags iface) FlagLoopback =? 0)%Z eqn:Hl; simpl.
      2:{ split; [done|]. intros x. split; [auto|].
          intros [H|(i & ? & ? & ->%list_elem_of_singleton & Hz & _)]; [done|].
          apply Z.eqb_neq in Hl. done. }
      destruct (Z.land (Flags iface) FlagUp =? 0)%Z eqn:Hu; simpl.
      { split; [done|]. intros x. split; [auto|].
        intros [H|(i & ? & ? & ->%list_elem_of_singleton & _ & Hz & _)]; [done|].
        apply Z.eqb_eq in Hu. done. }
      apply Z.eqb_eq in Hl. apply Z.eqb_neq in Hu.
      destruct (Addrs iface) as [addrs|err] eqn:Ha.
      - destruct (scanAddrs_spec addrs acc Hacc) as (Hin & _ & Hall).
        split; [done|]. intros x. rewrite Hall. split.
        + intros [H|(a & Hin' & Hoff)]; [by left|]. right.
          exists iface, addrs, a. split_and!; try done. apply list_elem_of_here.
        + intros [H|(i & as' & a & ->%list_elem_of_singleton & _ & _ & Has & Hin' & Hoff)];
            [by left|]. right. exists a. split; [congruence|done].
      - split; [done|]. simpl. intros x. split; [auto|].
        intros [H|(i & ? & ? & ->%list_elem_of_singleton & _ & _ & Has & _)]; [done|].
        congruence. }
    destruct Hone as [Hacc' Hmem].
    destruct (IH _ Hacc') as (Hin & Hall). split; [done|].
    intros x. rewrite Hall, Hmem. unfold usable. split.
    + intros [[H|(i & as' & a & ->%list_elem_of_singleton & H)]|(i & as' & a & Hi & H)].
      * by left.
      * right. exists iface, as', a. split; [apply list_elem_of_here|done].
      * right. exists i, as', a. split; [by apply list_elem_of_further|done].
    + intros [H|(i & as' & a & Hi & H)]; [by left; left|].
      apply elem_of_cons in Hi as [->|Hi].
      * left; right. exists iface, as', a. split; [apply list_elem_of_here|done].
      * right. exists i, as', a. done.
Qed.

(** X9: the list [getServerAddresses] returns is never empty and holds
    no address twice.  When the interfaces cannot be listed it is the
    single name localhost.  Otherwise it holds exactly the dotted forms of
    the IPv4 addresses that an interface which is up and not a loopback
    interface carries as an IP network, that are not in 127/8 and that
    [isDockerOrVirtualIP] does not filter; when there is no such address,
    it is the single name localhost. *)
Theorem getServerAddresses_result interfaces :
  let out := (getServerAddresses interfaces).1 in
  out <> [] /\ NoDup out /\
  match interfaces with
  | inr _ => out = ["localhost"]
  | inl ifaces =>
      (forall x, usable ifaces x -> x ∈ out) /\
      (forall x, x ∈ out ->
         usable ifaces x \/ (out = ["localhost"] /\ forall y, ~ usable ifaces y))
  end.
Proof.
  simpl. destruct interfaces as [ifaces|err]; simpl.
  2:{ split_and!; [done|apply NoDup_singleton|done]. }
  assert (Hinit : in_step (mkScan ∅ [] [])).
  { split; simpl; [apply NoDup_nil_2|]. intros x. rewrite lookup_empty. simpl.
    split; [done|]. intros H. by apply elem_of_nil in H. }
  destruct (scanInterfaces_spec ifaces _ Hinit) as ([Hnd _] & Hall). simpl in Hall.
  destruct (addresses (foldl scanInterface (mkScan ∅ [] []) ifaces))
    as [|x0 rest] eqn:Hout; simpl.
  - split_and!; [done|apply NoDup_singleton| |].
    + intros x Hx. exfalso. assert (H : x ∈ @nil string) by (apply Hall; by right).
      by apply elem_of_nil in H.
    + intros x _. right. split; [done|]. intros y Hy.
      assert (H : y ∈ @nil string) by (apply Hall; by right).
      by apply elem_of_nil in H.
  - split_and!; [done|done| |].
    + intros x Hx. apply Hall. by right.
    + intros x Hx. left. apply Hall in Hx as [H|H]; [|done].
      by apply elem_of_nil in H.
Qed.

End AddressesProps.

Module ConfigProps.
Import Core Config.

(** What each validator accepts. *)
Definition prometheusOk (p : PrometheusConfig.t) : Prop :=
  PrometheusConfig.Enabled p = true -> PrometheusConfig.URL p <> "".

Definition supersetOk (s : SupersetConfig.t) : Prop :=
  SupersetConfig.Enabled s = true ->
  SupersetConfig.URL s <> "" /\ SupersetConfig.User s <> "" /\
  SupersetConfig.Pass s <> "".

Lemma ValidatePrometheusConfig_valid p :
  IsValid (ValidatePrometheusConfig (Some p)) = true <-> prometheusOk p.
Proof.
  unfold prometheusOk. destruct p as [[] url ep]; simpl.
  - case_bool_decide; simpl; split; try done. intros Hok. by destruct Hok.
  - split; done.
Qed.

Lemma ValidateSupersetConfig_valid s :
  IsValid (ValidateSupersetConfig (Some s)) = true <-> supersetOk s.
Proof.
  unfold supersetOk. destruct s as [[] url user pass ep]; simpl.
  - repeat case_bool_decide; simpl; split; try done; intros Hok;
      try (destruct (Hok eq_refl) as (? & ? & ?); done).
  - split; done.
Qed.

Lemma validator_flag vr :
  (exists p, vr = ValidatePrometheusConfig p) \/
  (exists s, vr = ValidateSupersetConfig s) \/
  (exists c, vr = ValidateConfig c) \/
  (exists v, vr = ValidateServiceConfig v) ->
  Valid vr = IsValid vr /\ (Valid vr = true <-> Errors vr = []).
Proof.
  assert (Hp : forall p, let vr := ValidatePrometheusConfig p in
     Valid vr = IsValid vr /\ (Valid vr = true <-> Errors vr = [])).
  { intros [[[] url ep]|]; simpl; repeat case_bool_decide; simpl; split; done. }
  assert (Hs : forall s, let vr := ValidateSupersetConfig s in
     Valid vr = IsValid vr /\ (Valid vr = true <-> Errors vr = [])).
  { intros [[[] url user pass ep]|]; simpl; repeat case_bool_decide; simpl;
      split; done. }
  assert (Hc : forall c, let vr := ValidateConfig c in
     Valid vr = IsValid vr /\ (Valid vr = true <-> Errors vr = [])).
  { intros [c|]; simpl; [|split; done].
    unfold IsValid; simpl. rewrite andb_diag. split; [done|].
    rewrite Nat.eqb_eq. apply length_zero_iff_nil. }
  intros [[p ->]|[[s ->]|[[c ->]|[v ->]]]]; [apply Hp|apply Hs|apply Hc|].
  destruct v; simpl; [apply Hp|apply Hs|split; done].
Qed.

(** X10: the [Validate] method of a section and the validator function
    for that section accept the same configurations; when the method
    rejects one, the error it returns is the first error of the
    validator's list, worded with the name of the service in front. *)
Theorem Validate_agrees_with_validators :
  (forall p,
     (PrometheusConfig.Validate p = None <->
      IsValid (ValidatePrometheusConfig (Some p)) = true) /\
     forall msg, PrometheusConfig.Validate p = Some msg ->
       exists e, GetFirstError (ValidatePrometheusConfig (Some p)) = Some e /\
                 msg = "prometheus" +:+ Message e) /\
  (forall s,
     (SupersetConfig.Validate s = None <->
      IsValid (ValidateSupersetConfig (Some s)) = true) /\
     forall msg, SupersetConfig.Validate s = Some msg ->
       exists e, GetFirstError (ValidateSupersetConfig (Some s)) = Some e /\
                 msg = "superset" +:+ Message e).
Proof.
  split.
  - intros [[] url ep]; unfold PrometheusConfig.Validate; simpl;
      repeat case_bool_decide; simpl; split; try done.
    intros msg [= <-]. eexists. split; reflexivity.
  - intros [[] url user pass ep]; unfold SupersetConfig.Validate; simpl;
      repeat case_bool_decide; simpl; split; try done;
      intros msg [= <-]; eexists; split; reflexivity.
Qed.

Lemma ValidateConfig_errors c :
  Errors (ValidateConfig (Some c)) =
  Errors (ValidatePrometheusConfig (Prometheus c)) ++
  Errors (ValidateSupersetConfig (Superset c)).
Proof.
  simpl.
  destruct (validator_flag (ValidatePrometheusConfig (Prometheus c)))
    as [Hp1 Hp2]; [left; eauto|].
  destruct (validator_flag (ValidateSupersetConfig (Superset c)))
    as [Hs1 Hs2]; [right; left; eauto|].
  rewrite <- Hp1, <- Hs1.
  destruct (Valid (ValidatePrometheusConfig (Prometheus c))) eqn:Vp;
    destruct (Valid (ValidateSupersetConfig (Superset c))) eqn:Vs; simpl.
  - rewrite (proj1 Hp2 eq_refl), (proj1 Hs2 eq_refl). done.
  - rewrite (proj1 Hp2 eq_refl). done.
  - rewrite (proj1 Hs2 eq_refl). by rewrite app_nil_r.
  - done.
Qed.

Lemma ValidateConfig_valid cfg :
  IsValid (ValidateConfig cfg) = true <->
  exists c p s,
    cfg = Some c /\ Prometheus c = Some p /\ Superset c = Some s /\
    prometheusOk p /\ supersetOk s.
Proof.
  destruct cfg as [c|]; [|split; [done|intros (? & ? & ? & ? & _); done]].
  destruct (validator_flag (ValidateConfig (Some c))) as [H1 H2];
    [right; right; left; eauto|].
  rewrite <- H1, H2, ValidateConfig_errors.
  destruct (validator_flag (ValidatePrometheusConfig (Prometheus c)))
    as [Hp1 Hp2]; [left; eauto|].
  destruct (validator_flag (ValidateSupersetConfig (Superset c)))
    as [Hs1 Hs2]; [right; left; eauto|].
  split.
  - intros [Hp Hs]%app_eq_nil.
    apply Hp2 in Hp. apply Hs2 in Hs. rewrite Hp1 in Hp. rewrite Hs1 in Hs.
    destruct (Prometheus c) as [p|] eqn:Ep; [|done].
    destruct (Superset c) as [s|] eqn:Es; [|done].
    exists c, p, s. split_and!; try done.
    + by apply ValidatePrometheusConfig_valid.
    + by apply ValidateSupersetConfig_valid.
  - intros (c' & p & s & [= <-] & Ep & Es & Hp & Hs).
    rewrite Ep in *. rewrite Es in *.
    apply ValidatePrometheusConfig_valid in Hp.
    apply ValidateSupersetConfig_valid in Hs.
    rewrite <- Hp1 in Hp. rewrite <- Hs1 in Hs.
    apply Hp2 in Hp. apply Hs2 in Hs. by rewrite Hp, Hs.
Qed.

Lemma Validate_None cfg :
  Validate cfg = None <-> IsValid (ValidateConfig cfg) = true.
Proof.
  unfold Validate.
  destruct (validator_flag (ValidateConfig cfg)) as [H1 H2];
    [right; right; left; eauto|].
  destruct (IsValid (ValidateConfig cfg)) eqn:Hv; simpl; [done|].
  split; [|done]. unfold GetFirstError.
  destruct (Errors (ValidateConfig cfg)) eqn:He; [|done].
  intros _. rewrite <- H1. by apply H2.
Qed.

(** X11: [ValidateConfig] accepts a configuration exactly when it is not
    nil, both sections are present, the Prometheus section is not enabled
    without a URL, and the Superset section is not enabled without a URL,
    a user or a password.  [Config.Validate] returns nil for exactly the
    configurations it accepts.  In its result the [Valid] flag is set
    exactly when there is no error, and the errors are those of the
    Prometheus section followed by those of the Superset section. *)
Theorem ValidateConfig_accepts cfg :
  (IsValid (ValidateConfig cfg) = true <->
   exists c p s,
     cfg = Some c /\ Prometheus c = Some p /\ Superset c = Some s /\
     prometheusOk p /\ supersetOk s) /\
  (Validate cfg = None <-> IsValid (ValidateConfig cfg) = true) /\
  (Valid (ValidateConfig cfg) = true <-> Errors (ValidateConfig cfg) = []) /\
  forall c, cfg = Some c ->
    Errors (ValidateConfig cfg) =
    Errors (ValidatePrometheusConfig (Prometheus c)) ++
    Errors (ValidateSupersetConfig (Superset c)).
Proof.
  split_and!.
  - apply ValidateConfig_valid.
  - apply Validate_None.
  - apply validator_flag. right; right; left; eauto.
  - intros c ->. apply ValidateConfig_errors.
Qed.

Lemma FilterEnabledServices_mem cfg v :
  v ∈ FilterEnabledServices cfg <->
  exists c, cfg = Some c /\
    ((exists p, v = ofPrometheus (Some p) /\ Prometheus c = Some p /\
                PrometheusConfig.Enabled p = true /\
                PrometheusConfig.URL p <> "") \/
     (exists s, v = ofSuperset (Some s) /\ Superset c = Some s /\
                SupersetConfig.Enabled s = true /\
                SupersetConfig.URL s <> "")).
Proof.
  destruct cfg as [c|]; simpl.
  2:{ split; [intros H; by apply elem_of_nil in H|intros (? & ? & _); done]. }
  assert (Hp : forall p, PrometheusConfig.IsEnabled p = true <->
            PrometheusConfig.Enabled p = true /\ PrometheusConfig.URL p <> "").
  { intros p. unfold PrometheusConfig.IsEnabled.
    rewrite andb_true_iff, negb_true_iff, bool_decide_eq_false. done. }
  assert (Hs : forall s, SupersetConfig.IsEnabled s = true <->
            SupersetConfig.Enabled s = true /\ SupersetConfig.URL s <> "").
  { intros s. unfold SupersetConfig.IsEnabled.
    rewrite andb_true_iff, negb_true_iff, bool_decide_eq_false. done. }
  split.
  - intros Hin. exists c. split; [done|].
    destruct (Prometheus c) as [p|] eqn:Ep; destruct (Superset c) as [s|] eqn:Es;
      repeat match type of Hin with
      | context [if ?b then _ else _] => destruct b eqn:?
      end; simpl in Hin;
      repeat match goal with
      | H : _ ∈ _ :: _ |- _ => apply elem_of_cons in H as [->|H]
      | H : _ ∈ [] |- _ => by apply elem_of_nil in H
      | H : PrometheusConfig.IsEnabled _ = true |- _ => apply Hp in H as [? ?]
      | H : SupersetConfig.IsEnabled _ = true |- _ => apply Hs in H as [? ?]
      end; eauto 10.
  - intros (c' & [= <-] & [(p & -> & Ep & He & Hu)|(s & -> & Es & He & Hu)]).
    + rewrite Ep. rewrite (proj2 (Hp p)) by done.
      destruct (Superset c) as [s|]; [destruct (SupersetConfig.IsEnabled s)|];
        simpl; apply list_elem_of_here.
    + rewrite Es. rewrite (proj2 (Hs s)) by done.
      destruct (Prometheus c) as [p|]; [destruct (PrometheusConfig.IsEnabled p)|];
        simpl; repeat constructor.
Qed.

(** X12: [FilterEnabledServices] returns, without repetition, the
    sections of the configuration that are present, enabled and have a
    URL, and nothing else (a section enabled without a URL is left out
    silently).  A Prometheus section it returns always passes
    [ValidateServiceConfig]; a Superset section it returns has a user and
    a password, and passes, whenever the whole configuration passes
    [ValidateConfig]. *)
Theorem FilterEnabledServices_spec cfg :
  NoDup (FilterEnabledServices cfg) /\
  (forall v,
     v ∈ FilterEnabledServices cfg <->
     exists c, cfg = Some c /\
       ((exists p, v = ofPrometheus (Some p) /\ Prometheus c = Some p /\
                   PrometheusConfig.Enabled p = true /\
                   PrometheusConfig.URL p <> "") \/
        (exists s, v = ofSuperset (Some s) /\ Superset c = Some s /\
                   SupersetConfig.Enabled s = true /\
                   SupersetConfig.URL s <> ""))) /\
  (forall p, ofPrometheus (Some p) ∈ FilterEnabledServices cfg ->
     IsValid (ValidateServiceConfig (ofPrometheus (Some p))) = true) /\
  (forall s, ofSuperset (Some s) ∈ FilterEnabledServices cfg ->
     IsValid (ValidateConfig cfg) = true ->
     SupersetConfig.User s <> "" /\ SupersetConfig.Pass s <> "" /\
     IsValid (ValidateServiceConfig (ofSuperset (Some s))) = true).
Proof.
  pose proof (FilterEnabledServices_mem cfg) as Hmem.
  split_and!.
  - destruct cfg as [c|]; simpl; [|apply NoDup_nil_2].
    destruct (Prometheus c) as [p|]; destruct (Superset c) as [s|];
      repeat match goal with
      | |- context [if ?b then _ else _] => destruct b
      end; simpl; repeat constructor; set_solver.
  - exact Hmem.
  - intros p Hin. apply Hmem in Hin as (c & -> & [(p' & [= <-] & _ & He & Hu)|(s & ? & _)]);
      [|done].
    simpl. apply ValidatePrometheusConfig_valid. by intros _.
  - intros s Hin Hvalid.
    apply Hmem in Hin as (c & -> & [(p' & ? & _)|(s' & [= <-] & Es & He & Hu)]); [done|].
    apply ValidateConfig_valid in Hvalid as (c' & p & s' & [= <-] & _ & Es' & _ & Hok).
    assert (s' = s) as -> by congruence.
    destruct (Hok He) as (? & ? & ?). split_and!; try done.
    simpl. by apply ValidateSupersetConfig_valid.
Qed.

Lemma setDefaults_shape cfg :
  exists p s,
    Prometheus (setDefaults cfg) = Some p /\ Superset (setDefaults cfg) = Some s /\
    PrometheusConfig.URL p <> "" /\ SupersetConfig.URL s <> "" /\
    HTTPPort (setDefaults cfg) <> "" /\ Timeout (setDefaults cfg) <> 0%Z /\
    (supersetOk s \/
     exists s0, Superset cfg = Some s0 /\ SupersetConfig.URL s0 <> "" /\
                SupersetConfig.Enabled s0 = true /\
                (SupersetConfig.User s0 = "" \/ SupersetConfig.Pass s0 = "")).
Proof.
  unfold setDefaults. eexists _, _. split; [reflexivity|]. split; [reflexivity|].
  split_and!.
  - destruct (Prometheus cfg) as [p|]; simpl; try case_decide; done.
  - destruct (Superset cfg) as [s|]; simpl; try case_decide; done.
  - simpl. case_decide; done.
  - simpl. case_decide; [done|done].
  - unfold supersetOk. destruct (Superset cfg) as [s|] eqn:Es; simpl.
    + case_decide as Hurl; simpl; [by left|].
      destruct (SupersetConfig.Enabled s) eqn:He; [|by left].
      destruct (decide (SupersetConfig.User s = "")) as [Hu|Hu];
        [right; exists s; auto|].
      destruct (decide (SupersetConfig.Pass s = "")) as [Hp|Hp];
        [right; exists s; auto|].
      by left.
    + by left.
Qed.

(** X13: for a file that decodes, [LoadConfigFromYAML] returns the
    decoded configuration with the defaults filled in, and that
    configuration is valid, has a port, a timeout, both sections and a URL
    in each.  It fails only when the file gives the Superset section a
    URL, enables it, and leaves its user or its password empty. *)
Theorem LoadConfigFromYAML_outcome cfg :
  match LoadConfigFromYAML (Decoded cfg) with
  | inl c =>
      c = setDefaults cfg /\ Validate (Some c) = None /\
      HTTPPort c <> "" /\ Timeout c <> 0%Z /\
      exists p s,
        Prometheus c = Some p /\ Superset c = Some s /\
        PrometheusConfig.URL p <> "" /\ SupersetConfig.URL s <> "" /\
        supersetOk s
  | inr _ =>
      exists s, Superset cfg = Some s /\ SupersetConfig.URL s <> "" /\
                SupersetConfig.Enabled s = true /\
                (SupersetConfig.User s = "" \/ SupersetConfig.Pass s = "")
  end.
Proof.
  unfold LoadConfigFromYAML.
  destruct (setDefaults_shape cfg) as (p & s & Ep & Es & Hp & Hs & Hport & Htime & Hok).
  destruct (Validate (Some (setDefaults cfg))) as [err|] eqn:Hv.
  - destruct Hok as [Hyes|Hbad]; [|exact Hbad].
    assert (Hnone : Validate (Some (setDefaults cfg)) = None).
    { apply Validate_None, ValidateConfig_valid.
      exists (setDefaults cfg), p, s. split_and!; try done. by intros _. }
    congruence.
  - split_and!; try done. exists p, s. split_and!; try done.
    apply Validate_None, ValidateConfig_valid in Hv
      as (c & p' & s' & [= <-] & Ep' & Es' & _ & Hok').
    rewrite Es in Es'. by injection Es' as <-.
Qed.

Lemma setDefaults_sections cfg :
  Prometheus (setDefaults cfg) =
    Some match Prometheus cfg with
         | Some p =>
             if decide (PrometheusConfig.URL p = "")
             then PrometheusConfig.mk true "http://hd-piko.prometheus.qiniu.io/"
                                      (PrometheusConfig.Endpoint p)
             else p
         | None => PrometheusConfig.mk true "http://hd-piko.prometheus.qiniu.io/" ""
         end /\
  Superset (setDefaults cfg) =
    Some match Superset cfg with
         | Some s =>
             if decide (SupersetConfig.URL s = "")
             then SupersetConfig.mk true "http://superset.yzh-logverse.k8s.qiniu.io"
                                    "dingnanjia" "nanjia123" (SupersetConfig.Endpoint s)
             else s
         | None => SupersetConfig.mk true "http://superset.yzh-logverse.k8s.qiniu.io"
                                     "dingnanjia" "nanjia123" ""
         end.
Proof.
  unfold setDefaults; simpl. split.
  - by destruct (Prometheus cfg).
  - by destruct (Superset cfg).
Qed.

(** X14: [setDefaults] changes nothing when applied a second time.
    After it, a service is among the enabled services unless the file
    gives its section a URL and does not enable it: a section that is
    missing, or has no URL, is given the default URL and enabled, whatever
    its [enabled] flag says. *)
Theorem setDefaults_serves cfg :
  setDefaults (setDefaults cfg) = setDefaults cfg /\
  ((exists p, ofPrometheus (Some p) ∈ GetServices (Some (setDefaults cfg))) <->
   forall p, Prometheus cfg = Some p -> PrometheusConfig.URL p <> "" ->
             PrometheusConfig.Enabled p = true) /\
  ((exists s, ofSuperset (Some s) ∈ GetServices (Some (setDefaults cfg))) <->
   forall s, Superset cfg = Some s -> SupersetConfig.URL s <> "" ->
             SupersetConfig.Enabled s = true).
Proof.
  pose proof (FilterEnabledServices_mem (Some (setDefaults cfg))) as Hmem.
  destruct (setDefaults_sections cfg) as [HP HS].
  unfold GetServices. split_and!.
  - destruct cfg as [port tmo [[pe pu pp]|] [[se su sus sp sep]|]]; unfold setDefaults; simpl;
      repeat case_decide; simpl; repeat case_decide; try done; congruence.
  - split.
    + intros [p Hin].
      apply Hmem in Hin as (c & [= <-] & [(p' & [= <-] & Hp & He & Hu)|(s & ? & _)]);
        [|done].
      intros p0 Hp0 Hu0. rewrite HP, Hp0 in Hp.
      rewrite decide_False in Hp by done. congruence.
    + intros Hall. eexists. apply Hmem. eexists. split; [reflexivity|]. left.
      eexists. split; [reflexivity|]. split; [exact HP|].
      destruct (Prometheus cfg) as [p|] eqn:Ep; [|done].
      case_decide; [done|]. split; [by apply Hall|done].
  - split.
    + intros [s Hin].
      apply Hmem in Hin as (c & [= <-] & [(p & ? & _)|(s' & [= <-] & Hs & He & Hu)]);
        [done|].
      intros s0 Hs0 Hu0. rewrite HS, Hs0 in Hs.
      rewrite decide_False in Hs by done. congruence.
    + intros Hall. eexists. apply Hmem. eexists. split; [reflexivity|]. right.
      eexists. split; [reflexivity|]. split; [exact HS|].
      destruct (Superset cfg) as [s|] eqn:Es; [|done].
      case_decide; [done|]. split; [by apply Hall|done].
Qed.

End ConfigProps.

Module CommonProps.
Import Common.

Lemma envelope_exclusive r payload message :
  success_envelope r payload -> error_envelope r message -> False.
Proof. intros [Hs _] [He _]. congruence. Qed.

(** C9: each response constructor returns an envelope together with a nil
    Go error, and the envelope is of exactly one kind.
    [CreateSuccessResponse] (and its alias [CreateJSONResponse]) returns
    the success envelope carrying the encoded payload when [json.Marshal]
    succeeds; when [json.Marshal] fails it returns, still with a nil Go
    error, the error envelope ([IsError] set) whose text is the formatted
    failure message.  [CreateErrorResponse] always returns the error
    envelope carrying the formatted message.  No value is both a success
    and an error envelope. *)
Theorem constructors_return_one_envelope
  {any : Type} (Marshal : any -> string + any)
  (Sprintf : string -> list any -> string) :
  (forall data,
     (CreateSuccessResponse Marshal Sprintf data).2 = None /\
     CreateJSONResponse Marshal Sprintf data =
       CreateSuccessResponse Marshal Sprintf data /\
     match Marshal data with
     | inl jsonData =>
         success_envelope (CreateSuccessResponse Marshal Sprintf data).1 jsonData /\
         forall m, ~ error_envelope (CreateSuccessResponse Marshal Sprintf data).1 m
     | inr err =>
         error_envelope (CreateSuccessResponse Marshal Sprintf data).1
                        (Sprintf errJSONMarshalFailed [err]) /\
         forall j, ~ success_envelope (CreateSuccessResponse Marshal Sprintf data).1 j
     end) /\
  (forall format args,
     (CreateErrorResponse Sprintf format args).2 = None /\
     error_envelope (CreateErrorResponse Sprintf format args).1
                    (Sprintf format args) /\
     forall j, ~ success_envelope (CreateErrorResponse Sprintf format args).1 j) /\
  (forall r : CallToolResult, forall payload message,
     ~ (success_envelope r payload /\ error_envelope r message)).
Proof.
  split_and!.
  - intros data. unfold CreateJSONResponse, CreateSuccessResponse.
    destruct (Marshal data) as [jsonData|err]; simpl.
    + split_and!; try done. intros m [He _]. discriminate He.
    + split_and!; try done. intros j [Hs _]. discriminate Hs.
  - intros format args. split_and!; try done.
    intros j [Hs _]. discriminate Hs.
  - intros r payload message [Hs He]. exact (envelope_exclusive _ _ _ Hs He).
Qed.

(** The constructors of the second revision build envelopes of the same
    two kinds. *)
Lemma keyed_constructors_return_one_envelope
  {any : Type} (Sprintf : string -> list any -> string) (ofString : string -> any) :
  (forall format args,
     exists m, CreateErrorResponse_keyed Sprintf format args =
               (mkCallToolResult true [TextContent m], None)) /\
  (forall key,
     exists m, CreateErrorResponseWithKey Sprintf ofString key =
               (mkCallToolResult true [TextContent m], None)) /\
  (forall message,
     CreateSimpleSuccessResponse (any := any) message =
     (mkCallToolResult false [TextContent message], None)).
Proof.
  split_and!.
  - intros format args. unfold CreateErrorResponse_keyed. eauto.
  - intros key. unfold CreateErrorResponseWithKey.
    destruct (commonErrorTexts !! key); [eauto|].
    unfold CreateErrorResponse_keyed. eauto.
  - reflexivity.
Qed.

(** A payload type with a value [json.Marshal] rejects (as it does a
    channel or a NaN), to run both branches. *)
Definition toyMarshal (v : option string) : string + option string :=
  match v with
  | Some s => inl ("[" +:+ s +:+ "]")
  | None => inr (Some "json: unsupported type: chan int")
  end.

Definition toySprintf (format : string) (args : list (option string)) : string :=
  match args with
  | [Some s] => "结果转换失败: " +:+ s
  | _ => format
  end.

Example CreateSuccessResponse_ok :
  CreateSuccessResponse toyMarshal toySprintf (Some "up") =
  (mkCallToolResult false [TextContent "[up]"], None).
Proof. reflexivity. Qed.

Example CreateSuccessResponse_marshal_failure :
  CreateSuccessResponse toyMarshal toySprintf None =
  (mkCallToolResult true
     [TextContent "结果转换失败: json: unsupported type: chan int"], None).
Proof. reflexivity. Qed.


(** X15: the keyed error constructors of the second revision always
    return an error envelope and a nil Go error.  For a key of the
    predefined table [CreateErrorResponseWithKey] and [CreateErrorResponse]
    called with the key alone return the same envelope, holding the
    table's text; for any other key they differ: [CreateErrorResponse]
    returns the key itself as the text, [CreateErrorResponseWithKey] the
    text formatted from the unknown-error pattern and the key. *)
Theorem keyed_error_texts {any : Type}
  (Sprintf : string -> list any -> string) (ofString : string -> any)
  (errorKey : string) :
  (exists m,
     CreateErrorResponseWithKey Sprintf ofString errorKey =
     (mkCallToolResult true [TextContent m], None)) /\
  (forall text, commonErrorTexts !! errorKey = Some text ->
     CreateErrorResponseWithKey Sprintf ofString errorKey =
       (mkCallToolResult true [TextContent text], None) /\
     CreateErrorResponse_keyed Sprintf errorKey [] =
       CreateErrorResponseWithKey Sprintf ofString errorKey) /\
  (commonErrorTexts !! errorKey = None ->
     CreateErrorResponseWithKey Sprintf ofString errorKey =
       (mkCallToolResult true
          [TextContent (Sprintf "未知错误: %s" [ofString errorKey])], None) /\
     CreateErrorResponse_keyed Sprintf errorKey [] =
       (mkCallToolResult true [TextContent errorKey], None)).
Proof.
  unfold CreateErrorResponseWithKey, CreateErrorResponse_keyed.
  destruct (commonErrorTexts !! errorKey) as [text|] eqn:Hkey.
  - split_and!; [eauto| |done]. by intros ? [= <-].
  - split_and!; [eauto|done|done].
Qed.

End CommonProps.

Module SupersetProps.
Import Superset.

(** *** Running the monad *)

Lemma bind_run {A B : Type} (m : M A) (f : A -> M B) st :
  (x ← m; f x) st =
  match m st with
  | (Ok a, st') => f a st'
  | (Fail e, st') => (Fail e, st')
  end.
Proof. reflexivity. Qed.

Lemma bind_Ok_inv {A B : Type} (m : M A) (f : A -> M B) st b st' :
  (x ← m; f x) st = (Ok b, st') ->
  exists a st1, m st = (Ok a, st1) /\ f a st1 = (Ok b, st').
Proof.
  rewrite bind_run. destruct (m st) as [[a|e] st1]; [eauto|discriminate].
Qed.

Lemma wrap_Ok_inv {A : Type} format (m : M A) st a st' :
  wrap format m st = (Ok a, st') -> m st = (Ok a, st').
Proof.
  unfold wrap. destruct (m st) as [[a0|e] st1]; [done|discriminate].
Qed.

Lemma NewRequestWithContext_run format req st :
  wrap format (NewRequestWithContext req) st =
  match script (world st) with
  | Unbuilt reason :: _ => (Fail (Errorf format [argError (urlError reason)]), st)
  | _ => (Ok req, st)
  end.
Proof.
  unfold wrap, NewRequestWithContext.
  by destruct (script (world st)) as [|[reason|reason|resp] rest].
Qed.

(** *** A small backend to run the client against *)

Definition loginPage : string :=
  "<form><input type=" +:+ String dquote ("hidden" +:+ String dquote
  (" name=" +:+ String dquote ("csrf_token" +:+ String dquote
  (" id=" +:+ String dquote ("t" +:+ String dquote
  (" value=" +:+ String dquote ("tok123" +:+ String dquote "></form>"))))))).

Definition html (status : Z) (location body : string) : Response :=
  mkResponse status location body false None.

(** A JSON text for a value (enough of an encoder for the values used
    below), and the 200 response carrying it. *)
Definition backslash : Ascii.ascii := Ascii.ascii_of_nat 92.

Fixpoint escape (s : string) : string :=
  match s with
  | EmptyString => EmptyString
  | String c rest =>
      if Ascii.eqb c dquote || Ascii.eqb c backslash
      then String backslash (String c (escape rest))
      else String c (escape rest)
  end.

Definition quote (s : string) : string :=
  String dquote (escape s +:+ String dquote EmptyString).

Fixpoint commas (parts : list string) : string :=
  match parts with
  | [] => ""
  | [x] => x
  | x :: rest => x +:+ "," +:+ commas rest
  end.

Fixpoint render (j : json) : string :=
  match j with
  | JNull => "null"
  | JBool b => if b then "true" else "false"
  | JInt z => pretty z
  | JFloat m e => pretty m +:+ "e" +:+ pretty e
  | JString s => quote s
  | JArray items => "[" +:+ commas (map render items) +:+ "]"
  | JObject members =>
      "{" +:+ commas (map (fun kv => quote kv.1 +:+ ":" +:+ render kv.2) members)
      +:+ "}"
  end.

Definition jsonAnswer (value : json) : Response :=
  mkResponse 200 "" (render value) false (Some value).

Definition alice : Client :=
  NewClient "http://superset:8088" "alice" "secret" 30000000000.

(** A new client at instant 1000 facing a backend that will answer as
    scripted. *)
Definition facing (script : list Exchange) : Conf :=
  mkConf alice (mkWorld 1000 [] script []).

Example FindStringSubmatch_loginPage :
  FindStringSubmatch loginPage = Some "tok123".
Proof. reflexivity. Qed.

Example FindStringSubmatch_no_input :
  FindStringSubmatch "<html><body>Service unavailable</body></html>" = None.
Proof. reflexivity. Qed.

(** Of two value attributes in the same tag the greedy star reaches the
    last. *)
Example FindStringSubmatch_greedy :
  FindStringSubmatch
    (csrfNameAttr +:+ " " +:+ csrfValueOpen +:+ "a" +:+ String dquote
       (" " +:+ csrfValueOpen +:+ "b" +:+ String dquote ">")) = Some "b".
Proof. reflexivity. Qed.

(** *** The CSRF token cache *)



(** What the page fetched from the backend yields: the token found in a
    page that was read in full. *)
Definition scraped (x : list Exchange) : option string :=
  match x with
  | Answer resp :: _ =>
      if ReadFails resp then None else FindStringSubmatch (Body resp)
  | _ => None
  end.






(** An empty token in the page is a token: it is returned and cached,
    and the cache then still counts as empty. *)
Example getCSRFToken_empty_token :
  (getCSRFToken
     (facing [Answer (html 200 "" (csrfNameAttr +:+ " " +:+ csrfValueOpen
                                   +:+ String dquote ">"))])).1 = Ok "".
Proof. reflexivity. Qed.

(** *** Login *)

(** How [Login] classifies the response to its POST. *)
Definition accepted (resp : Response) : bool :=
  bool_decide (StatusCode resp = StatusFound \/ StatusCode resp = StatusSeeOther)
    && isSuccessfulRedirect (Location resp)
  || bool_decide (StatusCode resp = StatusOK)
     && negb (isLoginError (Body resp)) && isLoginSuccess (Body resp).

(** The response to the POST, if the exchange gets that far: the login
    page must have been fetched, read and found to hold a token. *)
Definition postResponse (x : list Exchange) : option Response :=
  match scraped x, x with
  | Some _, _ :: Answer resp :: _ => Some resp
  | _, _ => None
  end.

Lemma checkLogin_run resp st :
  loggedIn (self st) = false ->
  if accepted resp
  then (checkLogin resp st).1 = Ok tt /\
       loggedIn (self (checkLogin resp st).2) = true /\
       world (checkLogin resp st).2 = world st
  else (exists e, (checkLogin resp st).1 = Fail e) /\ (checkLogin resp st).2 = st.
Proof.
  intros Hout. unfold accepted, checkLogin.
  destruct (bool_decide (StatusCode resp = StatusFound \/
                         StatusCode resp = StatusSeeOther)
            && isSuccessfulRedirect (Location resp)) eqn:Hredirect; simpl.
  { done. }
  destruct (bool_decide (StatusCode resp = StatusOK)); simpl; [|eauto].
  destruct (isLoginError (Body resp)); simpl; [eauto|].
  destruct (isLoginSuccess (Body resp)); simpl; [done|eauto].
Qed.

(** A response that [Do] can return and whose body holds a failure
    marker is not classified as success: the redirect test needs a
    [Location], which such a response with status 302 or 303 does not
    carry. *)
Lemma accepted_returnable resp :
  redirects resp = false -> accepted resp = true ->
  StatusCode resp = StatusOK /\ isLoginError (Body resp) = false /\
  isLoginSuccess (Body resp) = true.
Proof.
  unfold redirects, accepted. intros Hret Hacc.
  destruct (bool_decide (StatusCode resp = StatusFound \/
                         StatusCode resp = StatusSeeOther)) eqn:Hcode; simpl in Hacc.
  - apply bool_decide_eq_true in Hcode.
    rewrite bool_decide_eq_true_2 in Hret by (destruct Hcode as [-> | ->]; set_solver).
    simpl in Hret. apply negb_false_iff, bool_decide_eq_true in Hret.
    rewrite Hret in Hacc. simpl in Hacc.
    destruct (bool_decide (StatusCode resp = StatusOK)) eqn:Hok; [|done].
    apply bool_decide_eq_true in Hok. simpl in Hacc.
    destruct (isLoginError (Body resp)); [done|]. done.
  - destruct (bool_decide (StatusCode resp = StatusOK)) eqn:Hok; [|done].
    apply bool_decide_eq_true in Hok. simpl in Hacc.
    destruct (isLoginError (Body resp)); [done|]. done.
Qed.

Lemma postResponse_returnable x resp :
  Forall (fun e => returnable e = true) x -> postResponse x = Some resp ->
  redirects resp = false.
Proof.
  unfold postResponse. intros Hall.
  destruct (scraped x); [|done].
  destruct x as [|e [|[reason|reason|resp'] rest]]; try done.
  intros [= ->]. apply Forall_cons in Hall as [_ Hall].
  apply Forall_cons in Hall as [Hr _]. by apply negb_true_iff in Hr.
Qed.

(** C4: called on a client that is not logged in, whatever the backend
    does (the responses being such as [Do] can return: a client that
    follows redirects never hands back a redirect that carries a
    [Location]), [Login] sets [loggedIn] and returns nil exactly when its
    POST is answered by a response that it classifies as success, and a
    response whose body contains a failure marker is never one.  In every
    other case (a response not classified as success, or no response
    because a request could not be built, or the token fetch or the POST
    failed) it returns an error and [loggedIn] stays false.  In all cases
    it sends at most the GET of the login page and one POST: nothing is
    retried. *)
Theorem Login_outcome st :
  loggedIn (self st) = false ->
  Forall (fun x => returnable x = true) (script (world st)) ->
  match postResponse (script (world st)) with
  | Some resp =>
      if accepted resp
      then (Login st).1 = Ok tt /\ loggedIn (self (Login st).2) = true
      else (exists e, (Login st).1 = Fail e) /\ loggedIn (self (Login st).2) = false
  | None =>
      (exists e, (Login st).1 = Fail e) /\ loggedIn (self (Login st).2) = false
  end /\
  (forall resp,
     postResponse (script (world st)) = Some resp ->
     accepted resp = true ->
     StatusCode resp = StatusOK /\ isLoginError (Body resp) = false /\
     isLoginSuccess (Body resp) = true) /\
  (forall resp,
     postResponse (script (world st)) = Some resp ->
     isLoginError (Body resp) = true ->
     (exists e, (Login st).1 = Fail e) /\ loggedIn (self (Login st).2) = false) /\
  (sent (world (Login st).2) = sent (world st) \/
   sent (world (Login st).2) = sent (world st) ++ [loginPageRequest (self st)] \/
   exists csrfToken,
     sent (world (Login st).2) =
       sent (world st) ++ [loginPageRequest (self st);
                           loginRequest (self st) csrfToken]).
Proof.
  intros Hout Hall.
  assert (Hmain :
    match postResponse (script (world st)) with
    | Some resp =>
        (if accepted resp
         then (Login st).1 = Ok tt /\ loggedIn (self (Login st).2) = true
         else (exists e, (Login st).1 = Fail e) /\
              loggedIn (self (Login st).2) = false) /\
        exists csrfToken,
          sent (world (Login st).2) =
            sent (world st) ++ [loginPageRequest (self st);
                                loginRequest (self st) csrfToken]
    | None =>
        ((exists e, (Login st).1 = Fail e) /\
         loggedIn (self (Login st).2) = false) /\
        (sent (world (Login st).2) = sent (world st) \/
         sent (world (Login st).2) =
           sent (world st) ++ [loginPageRequest (self st)] \/
         exists csrfToken,
           sent (world (Login st).2) =
             sent (world st) ++ [loginPageRequest (self st);
                                 loginRequest (self st) csrfToken])
    end).
  { clear Hall. remember (Login st) as res eqn:Hres.
    unfold Login in Hres. rewrite bind_run in Hres.
    unfold client at 1 in Hres. rewrite Hout in Hres.
    rewrite bind_run in Hres.
    unfold wrap at 1, getCSRFTokenForLogin in Hres.
    rewrite bind_run in Hres. unfold client at 1 in Hres.
    rewrite bind_run, NewRequestWithContext_run in Hres.
    unfold postResponse, scraped.
    destruct st as [c w]. simpl in *.
    destruct (script w) as [|[reason|reason|page] rest] eqn:Hscript; simpl in Hres.
    2:{ subst res; simpl. split; [split; [eauto|done]|]. by left. }
    1,2: rewrite bind_run in Hres; unfold wrap at 1, Do at 1 in Hres;
         simpl in Hres; rewrite Hscript in Hres; simpl in Hres.
    { subst res; simpl. split; [split; [eauto|done]|]. right; left. done. }
    { subst res; simpl. split; [split; [eauto|done]|]. right; left. done. }
    rewrite bind_run in Hres. unfold wrap at 1, Do at 1 in Hres.
    simpl in Hres. rewrite Hscript in Hres. simpl in Hres.
    rewrite bind_run in Hres. unfold wrap at 1, ReadAll in Hres.
    destruct (ReadFails page); simpl in Hres.
    { subst res; simpl. split; [split; [eauto|done]|]. right; left. done. }
    destruct (FindStringSubmatch (Body page)) as [tok|]; simpl in Hres.
    2:{ subst res; simpl. split; [split; [eauto|done]|]. right; left. done. }
    rewrite bind_run, NewRequestWithContext_run in Hres. simpl in Hres.
    destruct rest as [|[reason|reason|resp] rest']; simpl in Hres.
    2:{ subst res; simpl. split; [split; [eauto|done]|]. right; left. done. }
    1,2: rewrite bind_run in Hres; unfold wrap at 1, Do at 1 in Hres;
         simpl in Hres.
    { subst res; simpl. split; [split; [eauto|done]|].
      right; right. exists tok. by rewrite <- app_assoc. }
    { subst res; simpl. split; [split; [eauto|done]|].
      right; right. exists tok. by rewrite <- app_assoc. }
    rewrite bind_run in Hres. unfold wrap at 1, Do at 1 in Hres. simpl in Hres.
    match type of Hres with _ = checkLogin resp ?s =>
      pose proof (checkLogin_run resp s Hout) as Hcheck;
      rewrite <- Hres in Hcheck end.
    split.
    - destruct (accepted resp).
      + destruct Hcheck as (? & ? & ?). done.
      + destruct Hcheck as (? & ->). done.
    - exists tok. destruct (accepted resp).
      + destruct Hcheck as (_ & _ & ->). simpl. by rewrite <- app_assoc.
      + destruct Hcheck as (_ & ->). simpl. by rewrite <- app_assoc. }
  split_and!.
  - destruct (postResponse (script (world st))); apply Hmain.
  - intros resp Hresp Hacc. apply accepted_returnable; [|done].
    by apply (postResponse_returnable (script (world st))).
  - intros resp Hresp Herr. rewrite Hresp in Hmain.
    destruct Hmain as [Hm _].
    destruct (accepted resp) eqn:Hacc; [|done].
    destruct (accepted_returnable resp) as (_ & Hno & _); [|done|congruence].
    by apply (postResponse_returnable (script (world st))).
  - destruct (postResponse (script (world st))); [right; right|]; apply Hmain.
Qed.

(** A backend that answers the POST with the login page again, now
    showing a failure marker. *)
Definition rejected : Conf :=
  facing [Answer (html 200 "" loginPage);
          Answer (html 200 "" "<p>Invalid login</p>")].

Lemma Login_outcome_witness :
  loggedIn (self rejected) = false /\
  Forall (fun x => returnable x = true) (script (world rejected)) /\
  (exists e, (Login rejected).1 = Fail e) /\
  loggedIn (self (Login rejected).2) = false.
Proof.
  assert (Hall : Forall (fun x => returnable x = true) (script (world rejected))).
  { apply Forall_cons. split; [reflexivity|].
    apply Forall_cons. split; [reflexivity|]. apply Forall_nil_2. }
  split; [reflexivity|]. split; [exact Hall|].
  destruct (Login_outcome rejected eq_refl Hall) as (_ & _ & H & _).
  apply (H (html 200 "" "<p>Invalid login</p>")); reflexivity.
Defined.

(** The page a browser lands on after a login that succeeded, and a
    backend that answers the POST with it. *)
Definition welcomePage : string :=
  "<html><title>superset</title><a href=/dashboard/list/>dashboards</a></html>".

Example Login_welcome :
  Login (facing [Answer (html 200 "" loginPage); Answer (html 200 "" welcomePage)]) =
  (Ok tt,
   mkConf (mkClient (baseURL alice) (username alice) (password alice) true
                    (timeout alice) (csrfCache alice) (sqlLabURL alice))
          (mkWorld 1000 [] []
                   [loginPageRequest alice; loginRequest alice "tok123"])).
Proof. reflexivity. Qed.

Lemma ensureLoggedIn_slow_path st :
  loggedIn (self st) = false -> ensureLoggedIn st = Login st.
Proof.
  intros H. unfold ensureLoggedIn. rewrite bind_run. unfold client. by rewrite H.
Qed.

(** *** Every response the client sees comes from the backend's script *)

(** A method consumes the script from the front and never puts anything
    back. *)
Definition steady {A : Type} (m : M A) : Prop :=
  forall st, script (world (m st).2) `suffix_of` script (world st).

Lemma steady_ret {A : Type} (a : A) : steady (mret a).
Proof. intros st. done. Qed.

Lemma steady_fail {A : Type} e : steady (fail (A := A) e).
Proof. intros st. done. Qed.

Lemma steady_bind {A B : Type} (m : M A) (f : A -> M B) :
  steady m -> (forall a, steady (f a)) -> steady (x ← m; f x).
Proof.
  intros Hm Hf st. rewrite bind_run. specialize (Hm st).
  destruct (m st) as [[a|e] st1]; simpl in *; [|done].
  etrans; [apply Hf|done].
Qed.

Lemma steady_wrap {A : Type} format (m : M A) : steady m -> steady (wrap format m).
Proof.
  intros Hm st. unfold wrap. specialize (Hm st).
  by destruct (m st) as [[a|e] st1].
Qed.

Lemma steady_client : steady client.
Proof. intros st. done. Qed.

Lemma steady_Now : steady Now.
Proof. intros st. done. Qed.

Lemma steady_setLoggedIn b : steady (setLoggedIn b).
Proof. intros st. done. Qed.

Lemma steady_setCsrfCache c : steady (setCsrfCache c).
Proof. intros st. done. Qed.

Lemma steady_NewRequestWithContext req : steady (NewRequestWithContext req).
Proof.
  intros st. unfold NewRequestWithContext.
  destruct (script (world st)) as [|[reason|reason|resp] rest] eqn:Hs; simpl;
    by rewrite Hs.
Qed.

Lemma steady_Do req : steady (Do req).
Proof.
  intros st. unfold Do.
  destruct (script (world st)) as [|[reason|reason|resp] rest] eqn:Hs; simpl;
    rewrite ?Hs; simpl; try done; by apply suffix_cons_r.
Qed.

Lemma steady_ReadAll resp : steady (ReadAll resp).
Proof. unfold ReadAll. destruct (ReadFails resp); [apply steady_fail|apply steady_ret]. Qed.

Lemma steady_cacheFresh cache : steady (cacheFresh cache).
Proof.
  unfold cacheFresh. case_decide; [apply steady_ret|].
  apply steady_bind; [apply steady_Now|]. intros; apply steady_ret.
Qed.

Create HintDb steady.

#[local] Hint Resolve steady_ret steady_fail steady_wrap steady_client steady_Now
  steady_setLoggedIn steady_setCsrfCache steady_NewRequestWithContext steady_Do
  steady_ReadAll steady_cacheFresh : steady.

Ltac steady_step :=
  repeat first
    [ assumption
    | solve [eauto with steady]
    | apply steady_bind; [|intros]
    | apply steady_wrap
    | match goal with
      | |- steady (if ?b then _ else _) => destruct b
      | |- steady (match ?x with _ => _ end) => destruct x
      end ].

Lemma steady_getCSRFToken : steady getCSRFToken.
Proof. unfold getCSRFToken. steady_step. Qed.

Lemma steady_getCSRFTokenForLogin : steady getCSRFTokenForLogin.
Proof. unfold getCSRFTokenForLogin. steady_step. Qed.

Lemma steady_checkLogin resp : steady (checkLogin resp).
Proof. unfold checkLogin. steady_step. Qed.

Lemma steady_Login : steady Login.
Proof.
  unfold Login. pose proof steady_getCSRFTokenForLogin.
  pose proof steady_checkLogin. steady_step.
Qed.

Lemma steady_ensureLoggedIn : steady ensureLoggedIn.
Proof. unfold ensureLoggedIn. pose proof steady_Login. steady_step. Qed.

(** The response a successful [Do] returns stands in the script it ran
    against. *)
Lemma Do_Ok_inv req st resp st' :
  Do req st = (Ok resp, st') -> Answer resp ∈ script (world st).
Proof.
  unfold Do.
  destruct (script (world st)) as [|[reason|reason|r] rest]; try discriminate.
  intros [= -> _]. apply list_elem_of_here.
Qed.

(** A request that could be built is the request asked for, and building
    it changes nothing. *)
Lemma NewRequestWithContext_Ok_inv req st req' st' :
  NewRequestWithContext req st = (Ok req', st') -> req' = req /\ st' = st.
Proof.
  unfold NewRequestWithContext.
  destruct (script (world st)) as [|[reason|reason|r] rest]; try discriminate;
    by intros [= -> ->].
Qed.

(** *** SQL results *)

Lemma projectRows_aligned columns rows :
  length (projectRows columns rows) = length rows /\
  Forall (fun r => length r = length (columnNames columns))
         (projectRows columns rows) /\
  forall i j row name,
    rows !! i = Some row -> columnNames columns !! j = Some name ->
    projectRows columns rows !! i ≫= (.!! j) = Some (cell row name).
Proof.
  unfold projectRows, columnNames. split_and!.
  - by rewrite length_fmap.
  - apply Forall_fmap, Forall_forall. intros row _. simpl.
    by rewrite !length_fmap.
  - intros i j row name Hi Hj.
    rewrite list_lookup_fmap, Hi. simpl.
    rewrite list_lookup_fmap in Hj. rewrite list_lookup_fmap.
    destruct (columns !! j) as [col|]; simpl in *; [|done].
    by injection Hj as <-.
Qed.

Lemma executeSQLInternal_Ok_inv sql databaseID schema st result st' :
  executeSQLInternal sql databaseID schema st = (Ok result, st') ->
  exists resp backend,
    Answer resp ∈ script (world st) /\
    StatusCode resp = StatusOK /\
    Unmarshal decodeSupersetResponse zeroSupersetResponse resp = Some backend /\
    result = normalize backend.
Proof.
  unfold executeSQLInternal. intros Hrun.
  apply bind_Ok_inv in Hrun as (? & st1 & H1 & Hrun).
  apply bind_Ok_inv in Hrun as (csrfToken & st2 & H2 & Hrun).
  apply bind_Ok_inv in Hrun as (c & st3 & H3 & Hrun).
  apply bind_Ok_inv in Hrun as (req & st3' & Hreq & Hrun).
  apply bind_Ok_inv in Hrun as (resp & st4 & H4 & Hrun).
  apply bind_Ok_inv in Hrun as (body & st5 & H5 & Hrun).
  apply wrap_Ok_inv in H1, H2, H4, Hreq.
  injection H3 as <- <-.
  apply NewRequestWithContext_Ok_inv in Hreq as [-> ->].
  apply Do_Ok_inv in H4.
  destruct (bool_decide (StatusCode resp = StatusOK)) eqn:Hcode; [|discriminate].
  apply bool_decide_eq_true in Hcode.
  destruct (Unmarshal decodeSupersetResponse zeroSupersetResponse resp)
    as [backend|] eqn:Hdec; [|discriminate].
  injection Hrun as <- _.
  exists resp, backend. split_and!; try done.
  pose proof (steady_ensureLoggedIn st) as Hs1.
  pose proof (steady_getCSRFToken st1) as Hs2.
  rewrite H1 in Hs1. rewrite H2 in Hs2. simpl in *.
  assert (Hsuf : script (world st2) `suffix_of` script (world st))
    by (etrans; done).
  destruct Hsuf as [pre ->]. apply elem_of_app. by right.
Qed.

(** C6: whenever [ExecuteSQL] or [ExecuteSQLWithSchema] returns a result,
    the result was built from a 200 response of the backend that decoded
    into the response struct; its column list is the backend's column
    names in the backend's order; it has one row per backend row; every
    row has exactly as many cells as there are columns; and cell [j] of
    row [i] is what backend row [i] stores under the name of column [j],
    nil when the row has no such key. *)
Theorem executeSQL_rows_aligned sql databaseID schema st result st' :
  ExecuteSQLWithSchema sql databaseID schema st = (Ok result, st') \/
  (schema = "" /\ ExecuteSQL sql databaseID st = (Ok result, st')) ->
  exists resp backend,
    Answer resp ∈ script (world st) /\
    StatusCode resp = StatusOK /\
    Unmarshal decodeSupersetResponse zeroSupersetResponse resp = Some backend /\
    Columns result = Name <$> items_ (Columns_ backend) /\
    length (Data result) = length (items_ (Data_ backend)) /\
    Forall (fun row => length row = length (Columns result)) (Data result) /\
    forall i j row name,
      items_ (Data_ backend) !! i = Some row ->
      Columns result !! j = Some name ->
      Data result !! i ≫= (.!! j) = Some (cell row name).
Proof.
  intros Hrun.
  assert (Hint : executeSQLInternal sql databaseID schema st = (Ok result, st')).
  { destruct Hrun as [H|[-> H]]; exact H. }
  apply executeSQLInternal_Ok_inv in Hint as (resp & backend & Hin & Hc & Hd & ->).
  exists resp, backend.
  destruct (projectRows_aligned (items_ (Columns_ backend))
                                (items_ (Data_ backend))) as (Hl & Hf & Hcell).
  split_and!; try done.
Qed.

(** A backend whose rows list their keys in another order than the
    columns, and leave one out. *)
Definition sqlAnswer : Response :=
  jsonAnswer
    (JObject
       [("query_id", JInt 7);
        ("status", JString "success");
        ("columns", JArray [JObject [("name", JString "a"); ("type", JString "INT")];
                            JObject [("name", JString "b"); ("type", JString "INT")]]);
        ("data", JArray [JObject [("b", JInt 2); ("a", JInt 1)];
                         JObject [("a", JInt 5)]]);
        ("query", JObject [("sql", JString "select a, b from t")])]).

Definition sqlSession : Conf :=
  facing [Answer (html 200 "" loginPage);
          Answer (html 200 "" "superset dashboard");
          Answer (html 200 "" loginPage);
          Answer sqlAnswer].

Definition sqlResult : SQLResult :=
  mkSQLResult ["a"; "b"] [[JInt 1; JInt 2]; [JInt 5; JNull]]
              "select a, b from t" "success".

Lemma executeSQL_rows_aligned_witness :
  ExecuteSQL "select a, b from t" 3 sqlSession =
    (Ok sqlResult, (ExecuteSQL "select a, b from t" 3 sqlSession).2) /\
  Forall (fun row => length row = length (Columns sqlResult)) (Data sqlResult).
Proof.
  assert (H : ExecuteSQL "select a, b from t" 3 sqlSession =
              (Ok sqlResult, (ExecuteSQL "select a, b from t" 3 sqlSession).2))
    by reflexivity.
  split; [exact H|].
  destruct (executeSQL_rows_aligned "select a, b from t" 3 "" sqlSession sqlResult
              _ (or_intror (conj eq_refl H)))
    as (_ & _ & _ & _ & _ & _ & _ & Hall & _).
  exact Hall.
Defined.

(** *** Database listing *)

(** The object the backend writes for a database. *)
Definition encodeDatabase (d : Database) : json :=
  JObject [("id", JInt (ID d));
           ("database_name", JString (DatabaseName d));
           ("backend", JString (Backend d));
           ("sqlalchemy_uri", JString (SQLAlchemyURI d));
           ("created_on", JString (CreatedOn d));
           ("changed_on", JString (ChangedOn d))].

(** A key that selects no field of the envelope struct. *)
Definition notResult (kv : string * json) : Prop := findField ["result"] kv.1 = None.

(** The client is logged in and holds a token that is still fresh at the
    next reading of the clock: the listing goes straight to its request. *)
Definition ready (st : Conf) : Prop :=
  loggedIn (self st) = true /\
  token (csrfCache (self st)) <> "" /\
  (clock (world st) + Z.of_N (hd 0%N (ticks (world st)))
   < expiresAt (csrfCache (self st)))%Z.

(** What the two decoding attempts make of a response. *)
Definition listed (resp : Response) : option (list Database) :=
  match Unmarshal decodeEnvelope nilSlice resp with
  | Some result => Some (items_ result)
  | None => items_ <$> Unmarshal decodeDatabases nilSlice resp
  end.

Lemma GetDatabases_ready st resp rest :
  ready st ->
  script (world st) = Answer resp :: rest ->
  StatusCode resp = StatusOK -> ReadFails resp = false ->
  (GetDatabases st).1 =
  match listed resp with
  | Some databases => Ok databases
  | None => Fail (Errorf "解析响应失败: %w, 响应体: %s"
                         [argError jsonError; argString (Body resp)])
  end.
Proof.
  intros (Hin & Htok & Hfresh) Hscript Hcode Hread.
  unfold GetDatabases. rewrite bind_run.
  unfold wrap at 1, ensureLoggedIn. rewrite bind_run. unfold client at 1.
  rewrite Hin. simpl.
  rewrite bind_run. unfold wrap at 1, getCSRFToken.
  rewrite bind_run. unfold client at 1. rewrite bind_run.
  unfold cacheFresh at 1. rewrite decide_False by done.
  rewrite bind_run. unfold Now at 1. simpl.
  rewrite bool_decide_eq_true_2 by done. simpl.
  rewrite Hscript.
  rewrite bind_run. unfold client at 1.
  rewrite bind_run, NewRequestWithContext_run. simpl.
  rewrite bind_run. unfold wrap at 1, Do. simpl.
  rewrite bind_run. unfold wrap, ReadAll. rewrite Hread. simpl.
  rewrite bool_decide_eq_true_2 by done.
  unfold decodeDatabaseList, listed.
  destruct (Unmarshal decodeEnvelope nilSlice resp); [done|].
  destruct (Unmarshal decodeDatabases nilSlice resp); done.
Qed.

Lemma decodeDatabase_encode cur d :
  fitsInt (ID d) = true -> decodeDatabase cur (encodeDatabase d) = Some d.
Proof.
  intros Hfit. unfold decodeDatabase, decodeStruct, encodeDatabase.
  cbn [foldl fst snd].
  change (findField databaseFields "id") with (Some 0%nat).
  change (findField databaseFields "database_name") with (Some 1%nat).
  change (findField databaseFields "backend") with (Some 2%nat).
  change (findField databaseFields "sqlalchemy_uri") with (Some 3%nat).
  change (findField databaseFields "created_on") with (Some 4%nat).
  change (findField databaseFields "changed_on") with (Some 5%nat).
  cbn. rewrite Hfit. cbn. by destruct d.
Qed.

Lemma decodeElems_encode pool dbs :
  Forall (fun d => fitsInt (ID d) = true) dbs ->
  decodeElems decodeDatabase zeroDatabase pool (encodeDatabase <$> dbs) = Some dbs.
Proof.
  intros Hall. revert pool. induction Hall as [|d dbs Hd _ IH]; intros pool; [done|].
  cbn [fmap list_fmap decodeElems]. rewrite (decodeDatabase_encode _ d Hd).
  cbn. rewrite IH. done.
Qed.

Lemma decodeDatabases_encode cur dbs :
  Forall (fun d => fitsInt (ID d) = true) dbs ->
  items_ <$> decodeDatabases cur (JArray (encodeDatabase <$> dbs)) = Some dbs.
Proof.
  intros Hall. unfold decodeDatabases, decodeSlice.
  destruct dbs as [|d dbs]; [done|].
  cbn [fmap list_fmap].
  change (encodeDatabase d :: list_fmap _ _ encodeDatabase dbs)
    with (encodeDatabase <$> (d :: dbs)).
  rewrite (decodeElems_encode _ _ Hall). done.
Qed.

Lemma envelope_skip cur members :
  Forall notResult members ->
  foldl (fun acc kv =>
           acc ≫= fun d =>
           match findField ["result"] kv.1 with
           | Some i => match i with 0 => decodeDatabases d kv.2 | _ => Some d end
           | None => Some d
           end) (Some cur) members = Some cur.
Proof.
  induction 1 as [|kv members Hkv _ IH]; [done|].
  cbn [foldl]. unfold notResult in Hkv. rewrite Hkv. exact IH.
Qed.

Lemma decodeEnvelope_encode pre post dbs :
  Forall notResult pre -> Forall notResult post ->
  Forall (fun d => fitsInt (ID d) = true) dbs ->
  items_ <$> decodeEnvelope nilSlice
    (JObject (pre ++ ("result", JArray (encodeDatabase <$> dbs)) :: post)) = Some dbs.
Proof.
  intros Hpre Hpost Hall. unfold decodeEnvelope, decodeStruct.
  rewrite foldl_app, (envelope_skip _ _ Hpre). cbn [foldl fst snd].
  change (findField ["result"] "result") with (Some 0%nat). cbn [mbind option_bind].
  pose proof (decodeDatabases_encode nilSlice dbs Hall) as Hd.
  destruct (decodeDatabases nilSlice (JArray (encodeDatabase <$> dbs)))
    as [sl|]; [|done].
  rewrite (envelope_skip _ _ Hpost). exact Hd.
Qed.

(** Two sessions whose listing request is answered, with status 200, by
    the empty object and by an object with only a [message] member. *)
Definition listingOf (value : json) : Conf :=
  facing [Answer (html 200 "" loginPage);
          Answer (html 200 "" "superset dashboard");
          Answer (html 200 "" loginPage);
          Answer (jsonAnswer value)].

Definition emptyObjectSession : Conf := listingOf (JObject []).

Definition messageSession : Conf :=
  listingOf (JObject [("message", JString "no databases for you")]).

Example emptyObject_body : Body (jsonAnswer (JObject [])) = "{}".
Proof. reflexivity. Qed.

(** C7, as stated, fails in its last part: a 200 response whose body is
    an object without a [result] member has neither shape, yet
    [GetDatabases] returns the empty list and no error. *)
Lemma GetDatabases_object_without_result_no_error :
  (GetDatabases emptyObjectSession).1 = Ok [] /\
  (GetDatabases messageSession).1 = Ok [].
Proof. split; reflexivity. Qed.

(** C7, amended: on a 200 response, [GetDatabases] first decodes the body
    into the envelope struct and returns its [Result] if that succeeds;
    only if it fails does it decode the body as an array of databases; if
    both fail it returns an error.  An envelope object whose [result]
    member is the array of databases (other members, if any, naming no
    field) yields that list, and so does the bare array.  A body that is
    not JSON, or whose value is a boolean, a number or a string, yields an
    error.  A body that is [null], or an object with no [result] member
    at all, decodes into the envelope with nothing set and yields the
    empty list without an error. *)
Theorem GetDatabases_decoding st resp rest :
  ready st ->
  script (world st) = Answer resp :: rest ->
  StatusCode resp = StatusOK -> ReadFails resp = false ->
  match Unmarshal decodeEnvelope nilSlice resp,
        Unmarshal decodeDatabases nilSlice resp with
  | Some result, _ => (GetDatabases st).1 = Ok (items_ result)
  | None, Some databases => (GetDatabases st).1 = Ok (items_ databases)
  | None, None => exists e, (GetDatabases st).1 = Fail e
  end /\
  (forall pre post dbs,
     Forall notResult pre -> Forall notResult post ->
     Forall (fun d => fitsInt (ID d) = true) dbs ->
     Json resp = Some (JObject (pre ++ ("result", JArray (encodeDatabase <$> dbs)) :: post)) ->
     (GetDatabases st).1 = Ok dbs) /\
  (forall dbs,
     Forall (fun d => fitsInt (ID d) = true) dbs ->
     Json resp = Some (JArray (encodeDatabase <$> dbs)) ->
     (GetDatabases st).1 = Ok dbs) /\
  (Json resp = None \/
   (exists b, Json resp = Some (JBool b)) \/
   (exists z, Json resp = Some (JInt z)) \/
   (exists m e, Json resp = Some (JFloat m e)) \/
   (exists s, Json resp = Some (JString s)) ->
   exists e, (GetDatabases st).1 = Fail e) /\
  (Json resp = Some JNull \/
   (exists members, Json resp = Some (JObject members) /\ Forall notResult members) ->
   (GetDatabases st).1 = Ok []).
Proof.
  intros Hready Hscript Hcode Hread.
  rewrite (GetDatabases_ready st resp rest Hready Hscript Hcode Hread).
  unfold listed. split_and!.
  - destruct (Unmarshal decodeEnvelope nilSlice resp); [done|].
    destruct (Unmarshal decodeDatabases nilSlice resp); simpl; eauto.
  - intros pre post dbs Hpre Hpost Hall Hj.
    pose proof (decodeEnvelope_encode pre post dbs Hpre Hpost Hall) as He.
    unfold Unmarshal. rewrite Hj. cbn [mbind option_bind].
    destruct (decodeEnvelope nilSlice _) as [sl|]; [|done].
    simpl in He. injection He as Heq. by rewrite Heq.
  - intros dbs Hall Hj.
    pose proof (decodeDatabases_encode nilSlice dbs Hall) as Hd.
    unfold Unmarshal. rewrite Hj. cbn [mbind option_bind].
    destruct (decodeDatabases nilSlice _) as [sl|] eqn:Hdec; [|done].
    simpl in Hd. injection Hd as Heq.
    change (decodeEnvelope nilSlice (JArray (encodeDatabase <$> dbs)))
      with (@None (Slice Database)).
    simpl. by rewrite Heq.
  - unfold Unmarshal.
    intros [->|[[b ->]|[[z ->]|[(m & e & ->)|[s ->]]]]]; simpl; eauto.
  - unfold Unmarshal.
    intros [->|(members & -> & Hskip)]; simpl; [done|].
    unfold decodeEnvelope, decodeStruct. by rewrite (envelope_skip _ _ Hskip).
Qed.

(** A logged-in client with a fresh token, facing the envelope the
    backend sends for one database. *)
Definition analytics : Database :=
  mkDatabase 3 "analytics" "postgresql" "postgresql://db/analytics"
             "2024-01-01" "2024-02-01".

Definition listingAnswer : Response :=
  jsonAnswer (JObject [("count", JInt 1);
                       ("result", JArray [encodeDatabase analytics])]).

Definition listingSession : Conf :=
  mkConf (mkClient "http://superset:8088" "alice" "secret" true 30000000000
                   (mkCache "tok123" 5000) "http://superset:8088/superset/sqllab")
         (mkWorld 1000 [] [Answer listingAnswer] []).

Lemma GetDatabases_decoding_witness :
  ready listingSession /\
  script (world listingSession) = [Answer listingAnswer] /\
  (GetDatabases listingSession).1 = Ok [analytics].
Proof.
  assert (Hr : ready listingSession).
  { split_and!; [reflexivity|discriminate|reflexivity]. }
  split; [exact Hr|]. split; [reflexivity|].
  destruct (GetDatabases_decoding listingSession listingAnswer [] Hr
              eq_refl eq_refl eq_refl) as (_ & Henv & _).
  apply (Henv [("count", JInt 1)] [] [analytics]).
  - apply Forall_cons. split; [reflexivity|apply Forall_nil_2].
  - apply Forall_nil_2.
  - apply Forall_cons. split; [reflexivity|apply Forall_nil_2].
  - reflexivity.
Defined.

Example GetDatabases_bare_array :
  (GetDatabases
     (mkConf (self listingSession)
        (mkWorld 1000 []
           [Answer (jsonAnswer (JArray [encodeDatabase analytics]))] []))).1
  = Ok [analytics].
Proof. reflexivity. Qed.

(** A key is matched to a field up to case. *)
Example GetDatabases_folded_key :
  listed (jsonAnswer (JObject [("RESULT", JArray [JObject [("Id", JInt 9)]])]))
  = Some [mkDatabase 9 "" "" "" "" ""].
Proof. reflexivity. Qed.


Import StringProps.

(** *** The token pattern *)

(** [s] holds no byte [c]. *)
Fixpoint lacks (c : Ascii.ascii) (s : string) : Prop :=
  match s with
  | EmptyString => True
  | String a rest => a <> c /\ lacks c rest
  end.

(** The pattern matches [body] at the end of [pre], with the run before
    the value attribute being [mid] and the group capturing [tok]. *)
Definition matchesAt (body pre mid tok post : string) : Prop :=
  body = pre +:+ csrfNameAttr +:+ mid +:+ csrfValueOpen +:+ tok +:+ String dquote post /\
  lacks rangle mid /\ lacks dquote tok.

Lemma TrimPrefix_Some p s r : TrimPrefix p s = Some r <-> s = p +:+ r.
Proof.
  revert s. induction p as [|a p IH]; intros s; simpl.
  - rewrite append_nil_l. split; [by intros [= ->]|by intros ->].
  - destruct s as [|b s]; [split; discriminate|].
    rewrite append_cons. destruct (Ascii.eqb a b) eqn:Hab.
    + apply Ascii.eqb_eq in Hab as ->. rewrite IH. split; [by intros ->|by intros [= ->]].
    + apply Ascii.eqb_neq in Hab. split; [done|]. intros [= ? _]. congruence.
Qed.

Lemma untilQuote_Some s t :
  untilQuote s = Some t <-> exists post, s = t +:+ String dquote post /\ lacks dquote t.
Proof.
  revert t. induction s as [|c s IH]; intros t; simpl.
  - split; [done|]. intros (post & H & _). by destruct t.
  - destruct (Ascii.eqb c dquote) eqn:Hc.
    + apply Ascii.eqb_eq in Hc as ->. split.
      * intros [= <-]. exists s. done.
      * intros (post & H & Hl). destruct t as [|a t]; [done|].
        rewrite append_cons in H. injection H as <- _. by destruct Hl.
    + apply Ascii.eqb_neq in Hc. split.
      * destruct (untilQuote s) as [t'|] eqn:Hu; [|done]. intros [= <-].
        destruct (proj1 (IH t') eq_refl) as (post & -> & Hl).
        exists post. done.
      * intros (post & H & Hl). destruct t as [|a t].
        { injection H as -> _. done. }
        rewrite append_cons in H. injection H as -> ->. destruct Hl as [_ Hl].
        assert (Hu : untilQuote (t +:+ String dquote post) = Some t)
          by (apply IH; eauto).
        by rewrite Hu.
Qed.

Lemma valueAttr_Some s tok :
  valueAttr s = Some tok <->
  exists post, s = csrfValueOpen +:+ tok +:+ String dquote post /\ lacks dquote tok.
Proof.
  unfold valueAttr. split.
  - destruct (TrimPrefix csrfValueOpen s) as [r|] eqn:Hp; [|done]. simpl.
    apply TrimPrefix_Some in Hp as ->.
    intros (post & -> & Hl)%untilQuote_Some. eauto.
  - intros (post & -> & Hl).
    assert (Hp : TrimPrefix csrfValueOpen
                   (csrfValueOpen +:+ tok +:+ String dquote post) =
                 Some (tok +:+ String dquote post)) by (by apply TrimPrefix_Some).
    rewrite Hp. simpl. apply untilQuote_Some. eauto.
Qed.

Lemma afterName_sound s tok :
  afterName s = Some tok ->
  exists mid rest, s = mid +:+ rest /\ lacks rangle mid /\ valueAttr rest = Some tok.
Proof.
  induction s as [|c s IH]; simpl.
  - intros H. exists "", "". done.
  - destruct (Ascii.eqb c rangle) eqn:Hc.
    + intros H. exists "", (String c s). done.
    + apply Ascii.eqb_neq in Hc.
      destruct (afterName s) as [t|] eqn:Ha.
      * intros [= <-]. destruct (IH eq_refl) as (mid & rest & -> & Hl & Hv).
        exists (String c mid), rest. done.
      * intros H. exists "", (String c s). done.
Qed.

Lemma afterName_complete mid rest tok :
  lacks rangle mid -> valueAttr rest = Some tok ->
  is_Some (afterName (mid +:+ rest)).
Proof.
  intros Hl Hv. induction mid as [|c mid IH].
  - rewrite append_nil_l.
    destruct rest as [|c rest]; simpl; [by rewrite Hv|].
    destruct (Ascii.eqb c rangle); [by rewrite Hv|].
    destruct (afterName rest); [done|by rewrite Hv].
  - destruct Hl as [Hc Hl]. rewrite append_cons. simpl.
    apply Ascii.eqb_neq in Hc. rewrite Hc.
    destruct (IH Hl) as [t Ht]. by rewrite Ht.
Qed.

Lemma FindStringSubmatch_sound body tok :
  FindStringSubmatch body = Some tok ->
  exists pre mid post, matchesAt body pre mid tok post.
Proof.
  induction body as [|c body IH].
  - simpl. destruct (TrimPrefix csrfNameAttr "" ≫= afterName) eqn:H; [|done].
    by vm_compute in H.
  - cbn [FindStringSubmatch].
    destruct (TrimPrefix csrfNameAttr (String c body) ≫= afterName) as [t|] eqn:Hhere.
    + intros [= <-].
      destruct (TrimPrefix csrfNameAttr (String c body)) as [r|] eqn:Hp; [|done].
      simpl in Hhere. apply TrimPrefix_Some in Hp.
      apply afterName_sound in Hhere as (mid & rest & -> & Hl & Hv).
      apply valueAttr_Some in Hv as (post & -> & Hq).
      exists "", mid, post. split_and!; done.
    + intros H. destruct (IH H) as (pre & mid & post & -> & Hl & Hq).
      exists (String c pre), mid, post. done.
Qed.

Lemma FindStringSubmatch_complete body pre mid tok post :
  matchesAt body pre mid tok post -> is_Some (FindStringSubmatch body).
Proof.
  intros (-> & Hl & Hq).
  assert (Hhere : forall s, s = csrfNameAttr +:+ mid +:+ csrfValueOpen +:+ tok +:+ String dquote post ->
    is_Some (TrimPrefix csrfNameAttr s ≫= afterName)).
  { intros s ->.
    assert (Hp : TrimPrefix csrfNameAttr
              (csrfNameAttr +:+ mid +:+ csrfValueOpen +:+ tok +:+ String dquote post) =
            Some (mid +:+ csrfValueOpen +:+ tok +:+ String dquote post))
      by (by apply TrimPrefix_Some).
    rewrite Hp. simpl. apply (afterName_complete mid _ tok Hl).
    apply valueAttr_Some. eauto. }
  induction pre as [|c pre IH].
  - rewrite append_nil_l.
    destruct (Hhere _ eq_refl) as [t Ht].
    destruct (csrfNameAttr +:+ mid +:+ csrfValueOpen +:+ tok +:+ String dquote post)
      as [|c s] eqn:Hs; cbn [FindStringSubmatch]; rewrite Ht; done.
  - rewrite append_cons. cbn [FindStringSubmatch].
    destruct (TrimPrefix csrfNameAttr _ ≫= afterName); [done|]. exact IH.
Qed.

(** The star is greedy: the run found is the longest that a value
    attribute follows. *)
Lemma afterName_greedy s tok :
  afterName s = Some tok ->
  exists mid rest,
    s = mid +:+ rest /\ lacks rangle mid /\ valueAttr rest = Some tok /\
    forall mid' rest' tok',
      s = mid' +:+ rest' -> lacks rangle mid' -> valueAttr rest' = Some tok' ->
      String.length mid' <= String.length mid.
Proof.
  induction s as [|c s IH]; simpl.
  - intros H. exists "", "". split_and!; done.
  - destruct (Ascii.eqb c rangle) eqn:Hc.
    + apply Ascii.eqb_eq in Hc as ->.
      intros H. exists "", (String rangle s). split_and!; done.
    + apply Ascii.eqb_neq in Hc.
      destruct (afterName s) as [t|] eqn:Ha.
      * intros [= <-].
        destruct (IH eq_refl) as (mid & rest & -> & Hl & Hv & Hmax).
        exists (String c mid), rest. split_and!; try done.
        intros [|a m] r t' Hs Hl' Hv'; [simpl; lia|].
        rewrite !append_cons in Hs. injection Hs as _ Hs.
        destruct Hl' as [_ Hl']. specialize (Hmax m r t' Hs Hl' Hv'). simpl. lia.
      * intros H. exists "", (String c s). split_and!; try done.
        intros [|a m] r t' Hs Hl' Hv'; [done|].
        rewrite append_cons in Hs. injection Hs as _ ->. destruct Hl' as [_ Hl'].
        destruct (afterName_complete m r t' Hl' Hv') as [? Hsome]. congruence.
Qed.

Lemma match_here mid tok post s :
  s = csrfNameAttr +:+ mid +:+ csrfValueOpen +:+ tok +:+ String dquote post ->
  lacks rangle mid -> lacks dquote tok ->
  TrimPrefix csrfNameAttr s = Some (mid +:+ csrfValueOpen +:+ tok +:+ String dquote post) /\
  is_Some (TrimPrefix csrfNameAttr s ≫= afterName).
Proof.
  intros -> Hl Hq.
  assert (Hp : TrimPrefix csrfNameAttr
            (csrfNameAttr +:+ mid +:+ csrfValueOpen +:+ tok +:+ String dquote post) =
          Some (mid +:+ csrfValueOpen +:+ tok +:+ String dquote post))
    by (by apply TrimPrefix_Some).
  split; [done|]. rewrite Hp. simpl. apply (afterName_complete mid _ tok Hl).
  apply valueAttr_Some. eauto.
Qed.

(** The match reported is the leftmost, and at that place the one with
    the longest run before the value attribute. *)
Lemma FindStringSubmatch_leftmost body tok :
  FindStringSubmatch body = Some tok ->
  exists pre mid post,
    matchesAt body pre mid tok post /\
    forall pre' mid' tok' post',
      matchesAt body pre' mid' tok' post' ->
      String.length pre <= String.length pre' /\
      (String.length pre' = String.length pre ->
       String.length mid' <= String.length mid).
Proof.
  induction body as [|c body IH].
  - simpl. destruct (TrimPrefix csrfNameAttr "" ≫= afterName) eqn:H; [|done].
    by vm_compute in H.
  - cbn [FindStringSubmatch].
    destruct (TrimPrefix csrfNameAttr (String c body) ≫= afterName) as [t|] eqn:Hhere.
    + intros [= <-].
      destruct (TrimPrefix csrfNameAttr (String c body)) as [r|] eqn:Hp; [|done].
      simpl in Hhere. pose proof Hp as Hp'. apply TrimPrefix_Some in Hp.
      apply afterName_greedy in Hhere as (mid & rest & -> & Hl & Hv & Hmax).
      apply valueAttr_Some in Hv as (post & -> & Hq).
      exists "", mid, post. split; [split_and!; done|].
      intros pre' mid' tok' post' (Hb & Hl' & Hq'). split; [simpl; lia|].
      intros Hlen. destruct pre' as [|? ?]; [|done]. rewrite append_nil_l in Hb.
      destruct (match_here mid' tok' post' _ Hb Hl' Hq') as [Hp2 _].
      rewrite Hp' in Hp2. injection Hp2 as Hr.
      apply (Hmax mid' _ tok' Hr Hl'). apply valueAttr_Some. eauto.
    + intros H. destruct (IH H) as (pre & mid & post & (-> & Hl & Hq) & Hmin).
      exists (String c pre), mid, post. split; [done|].
      intros pre' mid' tok' post' (Hb & Hl' & Hq').
      destruct pre' as [|c' pre'].
      * rewrite append_nil_l in Hb.
        destruct (match_here mid' tok' post' _ Hb Hl' Hq') as [_ [? Hsome]].
        congruence.
      * rewrite !append_cons in Hb. injection Hb as _ Hb.
        destruct (Hmin pre' mid' tok' post') as [H1 H2]; [done|].
        simpl. split; [lia|]. intros Hlen. apply H2. lia.
Qed.

(** X16: [FindStringSubmatch], the search for [csrfTokenRegex], finds a
    token exactly when the page holds, somewhere, the name attribute of
    the token field, then a run of bytes free of the closing angle
    bracket, then a value attribute whose value is free of double quotes.
    The token reported is the value of such an occurrence: the leftmost
    one, and at that place the one with the longest run before the value
    attribute (the last value attribute inside the tag). *)
Theorem FindStringSubmatch_matches body :
  (is_Some (FindStringSubmatch body) <->
   exists pre mid tok post, matchesAt body pre mid tok post) /\
  forall tok, FindStringSubmatch body = Some tok ->
    exists pre mid post,
      matchesAt body pre mid tok post /\
      forall pre' mid' tok' post',
        matchesAt body pre' mid' tok' post' ->
        String.length pre <= String.length pre' /\
        (String.length pre' = String.length pre ->
         String.length mid' <= String.length mid).
Proof.
  split; [|apply FindStringSubmatch_leftmost]. split.
  - intros [tok H]. destruct (FindStringSubmatch_sound _ _ H) as (pre & mid & post & Hm).
    eauto.
  - intros (pre & mid & tok & post & Hm). by eapply FindStringSubmatch_complete.
Qed.

(** *** Redirect targets *)

Lemma prefix_app a b s : String.prefix (a +:+ b) s = true -> String.prefix a s = true.
Proof.
  revert s. induction a as [|c a IH]; intros s; [by destruct s|].
  rewrite append_cons. destruct s as [|d s]; simpl; [done|].
  destruct (Ascii.ascii_dec c d); [apply IH|done].
Qed.

Lemma Contains_app s a b : Contains s (a +:+ b) = true -> Contains s a = true.
Proof.
  induction s as [|c s IH]; cbn [Contains].
  - rewrite !orb_false_r. apply prefix_app.
  - intros [H|H]%orb_true_iff; apply orb_true_iff; [left|right]; eauto using prefix_app.
Qed.

(** X17: [isSuccessfulRedirect] accepts a location exactly when it is
    the root path or contains [/superset] anywhere; its first test, for
    the welcome page, never decides. *)
Theorem isSuccessfulRedirect_simplified location :
  isSuccessfulRedirect location =
  bool_decide (location = "/") || Contains location "/superset".
Proof.
  unfold isSuccessfulRedirect.
  destruct (Contains location "/superset/welcome") eqn:Hw; [|done].
  change "/superset/welcome" with ("/superset" +:+ "/welcome") in Hw.
  apply Contains_app in Hw. rewrite Hw. simpl. by rewrite orb_true_r.
Qed.


(** *** The token cache, again *)

Ltac methods :=
  unfold getCSRFToken, getCSRFTokenForLogin, cacheFresh, client, wrap, ReadAll,
    Now, NewRequestWithContext, Do, fail, setCsrfCache, setLoggedIn, mbind, mret,
    M_bind, M_ret;
  simpl.

(** After a successful call the cache holds the token returned. *)
Lemma getCSRFToken_Ok_inv st tok st1 :
  getCSRFToken st = (Ok tok, st1) ->
  token (csrfCache (self st1)) = tok /\
  (tok <> "" -> (clock (world st1) < expiresAt (csrfCache (self st1)))%Z) /\
  loggedIn (self st1) = loggedIn (self st) /\
  baseURL (self st1) = baseURL (self st) /\
  sqlLabURL (self st1) = sqlLabURL (self st) /\
  (sent (world st1) = sent (world st) \/
   sent (world st1) = sent (world st) ++ [loginPageRequest (self st)] /\
   expiresAt (csrfCache (self st1)) =
     (clock (world st1) + csrfTokenCacheDuration)%Z).
Proof.
  assert (Httl : (0 < csrfTokenCacheDuration)%Z) by reflexivity.
  destruct st as [[url user pass inside tmo [tk ex] lab] [clk tks scr snt]].
  methods.
  destruct (decide (tk = "")) as [->|Htk]; simpl.
  - destruct scr as [|[reason|reason|resp] rest]; simpl; try discriminate.
    destruct (ReadFails resp); simpl; try discriminate.
    destruct (FindStringSubmatch (Body resp)) as [t|]; simpl; try discriminate.
    intros Heq; inversion Heq; subst; clear Heq; simpl.
    split_and!; try done; [intros _; lia|by right].
  - destruct (bool_decide (clk + Z.of_N (hd 0%N tks) < ex)%Z) eqn:Hfresh; simpl.
    + intros Heq; inversion Heq; subst; clear Heq; simpl.
      apply bool_decide_eq_true in Hfresh.
      split_and!; try done; by left.
    + destruct (decide (tk = "")) as [|_]; [done|]. simpl.
      destruct (bool_decide (clk + Z.of_N (hd 0%N tks) + _ < ex)%Z) eqn:Hfresh2; simpl.
      * intros Heq; inversion Heq; subst; clear Heq; simpl.
        apply bool_decide_eq_true in Hfresh2.
        split_and!; try done; by left.
      * destruct scr as [|[reason|reason|resp] rest]; simpl; try discriminate.
        destruct (ReadFails resp); simpl; try discriminate.
        destruct (FindStringSubmatch (Body resp)) as [t|]; simpl; try discriminate.
        intros Heq; inversion Heq; subst; clear Heq; simpl.
        split_and!; try done; [intros _; lia|by right].
Qed.

(** A call that finds a token in the cache, not yet expired at the
    instant the clock is read. *)
Lemma getCSRFToken_hit st :
  token (csrfCache (self st)) <> "" ->
  (clock (world st) + Z.of_N (hd 0%N (ticks (world st)))
   < expiresAt (csrfCache (self st)))%Z ->
  getCSRFToken st =
  (Ok (token (csrfCache (self st))),
   mkConf (self st)
          (mkWorld (clock (world st) + Z.of_N (hd 0%N (ticks (world st))))
                   (tl (ticks (world st))) (script (world st)) (sent (world st)))).
Proof.
  destruct st as [[url user pass inside tmo [tk ex] lab] [clk tks scr snt]].
  simpl. intros Htk Hfresh. methods.
  destruct (decide (tk = "")) as [|_]; [done|]. simpl.
  by rewrite bool_decide_eq_true_2.
Qed.

(** X18: after a call of [getCSRFToken] that returned a non-empty
    token, the cache holds that token with an expiry after the current
    instant (the instant of caching plus [csrfTokenCacheDuration] when the
    call fetched it); and a next call at which the clock still reads
    before that expiry returns the same token without sending a request
    and without changing the client. *)
Theorem getCSRFToken_again st tok st1 :
  getCSRFToken st = (Ok tok, st1) -> tok <> "" ->
  token (csrfCache (self st1)) = tok /\
  (clock (world st1) < expiresAt (csrfCache (self st1)))%Z /\
  (sent (world st1) <> sent (world st) ->
   expiresAt (csrfCache (self st1)) =
     (clock (world st1) + csrfTokenCacheDuration)%Z) /\
  ((clock (world st1) + Z.of_N (hd 0%N (ticks (world st1)))
    < expiresAt (csrfCache (self st1)))%Z ->
   (getCSRFToken st1).1 = Ok tok /\
   self (getCSRFToken st1).2 = self st1 /\
   sent (world (getCSRFToken st1).2) = sent (world st1) /\
   script (world (getCSRFToken st1).2) = script (world st1)).
Proof.
  intros Hrun Htok.
  destruct (getCSRFToken_Ok_inv _ _ _ Hrun) as (Hc & Hexp & _ & _ & _ & Hsent).
  split_and!; [done|auto| |].
  - intros Hne. destruct Hsent as [?|[_ ?]]; done.
  - intros Hfresh. rewrite getCSRFToken_hit by (rewrite ?Hc; done).
    simpl. by rewrite Hc.
Qed.

(** What a call of [getCSRFToken] does to the client and the request
    log, whatever it returns. *)
Lemma getCSRFToken_effect st :
  loggedIn (self (getCSRFToken st).2) = loggedIn (self st) /\
  baseURL (self (getCSRFToken st).2) = baseURL (self st) /\
  sqlLabURL (self (getCSRFToken st).2) = sqlLabURL (self st) /\
  (sent (world (getCSRFToken st).2) = sent (world st) \/
   sent (world (getCSRFToken st).2) = sent (world st) ++ [loginPageRequest (self st)]).
Proof.
  destruct st as [[url user pass inside tmo [tk ex] lab] [clk tks scr snt]].
  methods.
  destruct (decide (tk = "")) as [->|Htk]; simpl.
  - destruct scr as [|[reason|reason|resp] rest]; simpl; auto.
    destruct (ReadFails resp); simpl; auto.
    destruct (FindStringSubmatch (Body resp)) as [t|]; simpl; auto.
  - destruct (bool_decide (clk + Z.of_N (hd 0%N tks) < ex)%Z) eqn:Hfresh; simpl; auto.
    destruct (decide (tk = "")) as [|_]; [done|]. simpl.
    destruct (bool_decide (clk + Z.of_N (hd 0%N tks) + _ < ex)%Z) eqn:Hfresh2;
      simpl; auto.
    destruct scr as [|[reason|reason|resp] rest]; simpl; auto.
    destruct (ReadFails resp); simpl; auto.
    destruct (FindStringSubmatch (Body resp)) as [t|]; simpl; auto.
Qed.

(** The client with [loggedIn] set. *)
Definition inside (c : Client) : Client :=
  mkClient (baseURL c) (username c) (password c) true (timeout c)
           (csrfCache c) (sqlLabURL c).

(** An answer to the POST that [Login] accepts logs the client in. *)
Lemma checkLogin_accepted resp st :
  accepted resp = true -> loggedIn (self st) = false ->
  checkLogin resp st = (Ok tt, mkConf (inside (self st)) (world st)).
Proof.
  unfold accepted, checkLogin. intros Hacc Hout.
  destruct (bool_decide (StatusCode resp = StatusFound \/
                         StatusCode resp = StatusSeeOther)
            && isSuccessfulRedirect (Location resp)); [done|].
  simpl in Hacc.
  destruct (bool_decide (StatusCode resp = StatusOK)); [|done]. simpl in Hacc.
  destruct (isLoginError (Body resp)); [done|]. simpl in Hacc.
  by rewrite Hacc.
Qed.

(** What a call of [Login] does on a client that is not logged in. *)
Lemma Login_effect st :
  loggedIn (self st) = false ->
  ((exists e, (Login st).1 = Fail e) /\ self (Login st).2 = self st \/
   (Login st).1 = Ok tt /\ self (Login st).2 = inside (self st)) /\
  (sent (world (Login st).2) = sent (world st) \/
   sent (world (Login st).2) = sent (world st) ++ [loginPageRequest (self st)] \/
   exists csrfToken,
     sent (world (Login st).2) =
     sent (world st) ++ [loginPageRequest (self st); loginRequest (self st) csrfToken]).
Proof.
  intros Hout. remember (Login st) as res eqn:Hres.
  unfold Login in Hres. rewrite bind_run in Hres.
  unfold client at 1 in Hres. rewrite Hout in Hres.
  rewrite bind_run in Hres.
  unfold wrap at 1, getCSRFTokenForLogin in Hres.
  rewrite bind_run in Hres. unfold client at 1 in Hres.
  rewrite bind_run, NewRequestWithContext_run in Hres.
  destruct st as [c w]. simpl in *.
  destruct (script w) as [|[reason|reason|page] rest] eqn:Hscript; simpl in Hres.
  2:{ subst res; simpl. split; [left; eauto|by left]. }
  1,2: rewrite bind_run in Hres; unfold wrap at 1, Do at 1 in Hres;
       simpl in Hres; rewrite Hscript in Hres; simpl in Hres.
  { subst res; simpl. split; [left; eauto|right; by left]. }
  { subst res; simpl. split; [left; eauto|right; by left]. }
  rewrite bind_run in Hres. unfold wrap at 1, Do at 1 in Hres.
  simpl in Hres. rewrite Hscript in Hres. simpl in Hres.
  rewrite bind_run in Hres. unfold wrap at 1, ReadAll in Hres.
  destruct (ReadFails page); simpl in Hres.
  { subst res; simpl. split; [left; eauto|right; by left]. }
  destruct (FindStringSubmatch (Body page)) as [tok|]; simpl in Hres.
  2:{ subst res; simpl. split; [left; eauto|right; by left]. }
  rewrite bind_run, NewRequestWithContext_run in Hres. simpl in Hres.
  destruct rest as [|[reason|reason|resp] rest']; simpl in Hres.
  2:{ subst res; simpl. split; [left; eauto|right; by left]. }
  1,2: rewrite bind_run in Hres; unfold wrap at 1, Do at 1 in Hres;
       simpl in Hres.
  { subst res; simpl. split; [left; eauto|].
    right; right. exists tok. by rewrite <- app_assoc. }
  { subst res; simpl. split; [left; eauto|].
    right; right. exists tok. by rewrite <- app_assoc. }
  rewrite bind_run in Hres. unfold wrap at 1, Do at 1 in Hres. simpl in Hres.
  match type of Hres with _ = checkLogin resp ?s =>
    pose proof (checkLogin_run resp s Hout) as Hcheck;
    rewrite <- Hres in Hcheck;
    assert (Hself : self (checkLogin resp s).2 = self s \/
                    self (checkLogin resp s).2 = inside (self s));
    [unfold checkLogin, setLoggedIn, fail;
     repeat match goal with
     | |- context [if ?b then _ else _] => destruct b
     end; simpl; auto|];
    assert (Hworld : world (checkLogin resp s).2 = world s);
    [unfold checkLogin, setLoggedIn, fail;
     repeat match goal with
     | |- context [if ?b then _ else _] => destruct b
     end; simpl; auto|];
    rewrite <- Hres in Hself, Hworld
  end.
  simpl in Hself, Hworld. split.
  - destruct (accepted resp).
    + destruct Hcheck as (Hok & Hin & _). right. split; [done|].
      destruct Hself as [Hs|Hs]; [|done].
      rewrite Hs in Hin. congruence.
    + destruct Hcheck as (Hfail & ->). left. done.
  - right; right. exists tok. rewrite Hworld. simpl. by rewrite <- app_assoc.
Qed.

(** X19: [Login] returns nil exactly when the client is logged in
    afterwards.  It changes nothing of the client but [loggedIn], which it
    never clears; in particular it does not keep the token it fetched in
    the cache.  On a client that is logged in it does nothing, so a second
    [Login] after a successful one sends nothing. *)
Theorem Login_result_iff_loggedIn st :
  ((Login st).1 = Ok tt <-> loggedIn (self (Login st).2) = true) /\
  (self (Login st).2 = self st \/ self (Login st).2 = inside (self st)) /\
  (loggedIn (self st) = true -> Login st = (Ok tt, st)) /\
  ((Login st).1 = Ok tt -> Login (Login st).2 = (Ok tt, (Login st).2)).
Proof.
  assert (Hin : forall st, loggedIn (self st) = true -> Login st = (Ok tt, st)).
  { intros st0 H. unfold Login. rewrite bind_run. unfold client. by rewrite H. }
  destruct (loggedIn (self st)) eqn:Hlog.
  - rewrite (Hin st Hlog). simpl. split_and!; [split; done|by left|done|auto].
  - destruct (Login_effect st Hlog) as [[[[e He] Hs]|[Hok Hs]] _].
    + split_and!; [|by left|done|].
      * rewrite He, Hs, Hlog. split; done.
      * rewrite He. done.
    + split_and!; [|by right|done|].
      * rewrite Hok, Hs. done.
      * intros _. apply Hin. by rewrite Hs.
Qed.

Definition toLogin (c : Client) (r : Request) : Prop :=
  URL r = baseURL c +:+ loginEndpoint.

Lemma ensureLoggedIn_effect st :
  exists pre,
    sent (world (ensureLoggedIn st).2) = sent (world st) ++ pre /\
    Forall (toLogin (self st)) pre /\
    length pre <= 2 /\
    (loggedIn (self st) = true -> pre = []) /\
    ((ensureLoggedIn st).1 = Ok tt -> loggedIn (self (ensureLoggedIn st).2) = true) /\
    (self (ensureLoggedIn st).2 = self st \/
     self (ensureLoggedIn st).2 = inside (self st)).
Proof.
  destruct (loggedIn (self st)) eqn:Hlog.
  - exists []. unfold ensureLoggedIn. rewrite bind_run. unfold client.
    rewrite Hlog. simpl. rewrite app_nil_r. split_and!; auto.
  - rewrite (ensureLoggedIn_slow_path st Hlog).
    destruct (Login_effect st Hlog) as [Hres Hsent].
    assert (Hself : self (Login st).2 = self st \/ self (Login st).2 = inside (self st)).
    { destruct Hres as [[_ ?]|[_ ?]]; auto. }
    assert (Hok : (Login st).1 = Ok tt -> loggedIn (self (Login st).2) = true).
    { destruct Hres as [[[e He] ?]|[_ Hs]]; [by rewrite He|by rewrite Hs]. }
    destruct Hsent as [Hs|[Hs|[tok Hs]]].
    + exists []. rewrite app_nil_r. split_and!; try done; simpl; lia.
    + exists [loginPageRequest (self st)].
      split_and!; try done; [|simpl; lia].
      apply Forall_cons. split; [reflexivity|apply Forall_nil_2].
    + exists [loginPageRequest (self st); loginRequest (self st) tok].
      split_and!; try done.
      apply Forall_cons. split; [reflexivity|].
      apply Forall_cons. split; [reflexivity|apply Forall_nil_2].
Qed.

(** The common shape of [GetDatabases] and [executeSQLInternal]: log in
    if need be, obtain the token, build one request from the client and
    the token, send it, and work on the response without sending
    anything. *)
Definition apiCall {A : Type} (format : string)
  (request : Client -> string -> Request) (k : Response -> M A) : M A :=
  _ ← wrap "登录失败: %w" ensureLoggedIn;
  csrfToken ← wrap "获取CSRF令牌失败: %w" getCSRFToken;
  c ← client;
  req ← wrap "创建请求失败: %w" (NewRequestWithContext (request c csrfToken));
  resp ← wrap format (Do req);
  k resp.

(** What a call leaves in the request log: login traffic [pre], then the
    request of the call, if it came to that. *)
Definition discipline {A : Type} (st : Conf) (out : Result A * Conf)
  (request : Client -> string -> Request) : Prop :=
  exists pre,
    Forall (toLogin (self st)) pre /\ length pre <= 3 /\
    (loggedIn (self st) = true ->
     pre = [] \/ pre = [loginPageRequest (self st)]) /\
    (sent (world out.2) = sent (world st) ++ pre /\ (exists e, out.1 = Fail e) \/
     sent (world out.2) =
       sent (world st) ++ pre ++
       [request (self out.2) (token (csrfCache (self out.2)))] /\
     loggedIn (self out.2) = true).

Lemma wrap_run {A : Type} format (m : M A) st :
  (wrap format m st).2 = (m st).2 /\
  (forall a, (wrap format m st).1 = Ok a <-> (m st).1 = Ok a) /\
  ((exists e, (m st).1 = Fail e) -> exists e, (wrap format m st).1 = Fail e).
Proof.
  unfold wrap. destruct (m st) as [[a|e] st1]; simpl; split_and!; eauto.
  - intros a. split; intros [= ?]; done.
Qed.

Lemma apiCall_run {A : Type} format request (k : Response -> M A) st :
  apiCall format request k st =
  match wrap "登录失败: %w" ensureLoggedIn st with
  | (Ok _, st1) =>
      match wrap "获取CSRF令牌失败: %w" getCSRFToken st1 with
      | (Ok csrfToken, st2) =>
          match script (world st2) with
          | Unbuilt reason :: _ =>
              (Fail (Errorf "创建请求失败: %w" [argError (urlError reason)]), st2)
          | _ =>
              match wrap format (Do (request (self st2) csrfToken)) st2 with
              | (Ok resp, st3) => k resp st3
              | (Fail e, st3) => (Fail e, st3)
              end
          end
      | (Fail e, st2) => (Fail e, st2)
      end
  | (Fail e, st1) => (Fail e, st1)
  end.
Proof.
  unfold apiCall. rewrite bind_run.
  destruct (wrap "登录失败: %w" ensureLoggedIn st) as [[[]|e1] st1]; [|done].
  rewrite bind_run.
  destruct (wrap "获取CSRF令牌失败: %w" getCSRFToken st1) as [[tok|e2] st2]; [|done].
  rewrite bind_run. unfold client at 1.
  rewrite bind_run, NewRequestWithContext_run. simpl.
  destruct (script (world st2)) as [|[reason|reason|resp] rest]; try done;
    by rewrite bind_run.
Qed.

Lemma Do_effect req st :
  self (Do req st).2 = self st /\
  sent (world (Do req st).2) = sent (world st) ++ [req].
Proof.
  unfold Do. by destruct (script (world st)) as [|[reason|reason|resp] rest].
Qed.

Lemma apiCall_discipline {A : Type} format request (k : Response -> M A) st :
  (forall resp st0, (k resp st0).2 = st0) ->
  discipline st (apiCall format request k st) request.
Proof.
  intros Hk. unfold discipline. rewrite apiCall_run.
  destruct (ensureLoggedIn_effect st) as (pre1 & Hs1 & Hall1 & Hlen1 & Hin1 & Hok1 & Hself1).
  destruct (wrap_run "登录失败: %w" ensureLoggedIn st) as (W1 & W2 & _).
  destruct (wrap "登录失败: %w" ensureLoggedIn st) as [[[]|e1] st1] eqn:E1; simpl in *.
  2:{ exists pre1. rewrite W1.
      split; [done|]. split; [lia|]. split; [intros H; left; auto|].
      left. split; [done|eauto]. }
  assert (Hlog1 : loggedIn (self st1) = true).
  { rewrite W1. apply Hok1. by apply W2. }
  assert (Hbase1 : baseURL (self st1) = baseURL (self st)).
  { rewrite W1. destruct Hself1 as [->| ->]; done. }
  destruct (getCSRFToken_effect st1) as (Hlog2 & Hbase2 & _ & Hs2).
  destruct (wrap_run "获取CSRF令牌失败: %w" getCSRFToken st1) as (V1 & V2 & _).
  assert (Hpre : exists pre,
    sent (world (getCSRFToken st1).2) = sent (world st) ++ pre /\
    Forall (toLogin (self st)) pre /\ length pre <= 3 /\
    (loggedIn (self st) = true -> pre = [] \/ pre = [loginPageRequest (self st)])).
  { destruct Hs2 as [Hs2|Hs2]; rewrite Hs2, W1, Hs1.
    - exists pre1. split; [done|]. split; [done|]. split; [lia|].
      intros H. left. auto.
    - exists (pre1 ++ [loginPageRequest (self st1)]). rewrite <- app_assoc.
      split; [by rewrite W1|]. split; [|split].
      + apply Forall_app. split; [done|].
        apply Forall_cons. split; [|apply Forall_nil_2].
        unfold toLogin. simpl. by rewrite Hbase1.
      + rewrite length_app. simpl. lia.
      + intros H. right. rewrite (Hin1 H). simpl.
        rewrite W1. destruct Hself1 as [->| Hs]; [done|].
        rewrite Hs. reflexivity. }
  destruct Hpre as (pre & Hsent & Hall & Hlen & Hin).
  destruct (wrap "获取CSRF令牌失败: %w" getCSRFToken st1) as [[tok|e2] st2] eqn:E2;
    simpl in *.
  2:{ exists pre. rewrite V1. split; [done|]. split; [done|]. split; [done|].
      left. split; [done|eauto]. }
  assert (Htok : token (csrfCache (self st2)) = tok).
  { pose proof (proj1 (V2 tok) eq_refl) as Hrun.
    destruct (getCSRFToken st1) as [r st2'] eqn:E. simpl in *. subst.
    by destruct (getCSRFToken_Ok_inv _ _ _ E) as (? & _). }
  assert (Hlog : loggedIn (self st2) = true) by (rewrite V1, Hlog2; done).
  destruct (wrap_run format (Do (request (self st2) tok)) st2) as (U1 & _ & _).
  destruct (Do_effect (request (self st2) tok) st2) as (D1 & D2).
  exists pre. split; [done|]. split; [done|]. split; [done|].
  assert (Hgoal : forall out : Result A * Conf,
    out.2 = (Do (request (self st2) tok) st2).2 ->
    sent (world out.2) =
      sent (world st) ++ pre ++ [request (self out.2) (token (csrfCache (self out.2)))] /\
    loggedIn (self out.2) = true).
  { intros out ->. rewrite D1, D2, Htok. split; [|done].
    rewrite V1, Hsent. by rewrite <- app_assoc. }
  destruct (script (world st2)) as [|[reason|reason|resp0] rest0] eqn:Hscript.
  2:{ left. simpl. rewrite V1. split; [done|eauto]. }
  all: right;
    destruct (wrap format (Do (request (self st2) tok)) st2) as [[resp|e3] st3] eqn:E3;
    simpl in U1; apply Hgoal; simpl; [|done]; by rewrite Hk.
Qed.

(** X20: whatever the backend answers, a call of [executeSQLInternal]
    or [GetDatabases] sends at most three requests to the login endpoint
    and then at most one request of its own, last; that request is sent
    only with the client logged in, and carries the token now in the
    cache; when it is not sent the call returns an error.  On a client
    that is already logged in the login traffic is at most one GET of the
    login page: the credentials are not posted again, whatever the
    backend answers. *)
Theorem api_requests sql databaseID schema st :
  discipline st (executeSQLInternal sql databaseID schema st)
    (fun c csrfToken => executeRequest c csrfToken sql databaseID schema) /\
  discipline st (GetDatabases st) databasesRequest.
Proof.
  split.
  - apply (apiCall_discipline "执行SQL失败: %w"
             (fun c csrfToken => executeRequest c csrfToken sql databaseID schema)
             (fun resp =>
                body ← wrap "读取响应失败: %w" (ReadAll resp);
                if bool_decide (StatusCode resp = StatusOK) then
                  match Unmarshal decodeSupersetResponse zeroSupersetResponse resp with
                  | None =>
                      fail (Errorf "解析响应失败: %w, 响应体: %s"
                                   [argError jsonError; argString body])
                  | Some supersetResponse => mret (normalize supersetResponse)
                  end
                else fail (Errorf "API请求失败，状态码: %d, 响应: %s"
                                  [argInt (StatusCode resp); argString body]))).
    intros resp st0. rewrite bind_run. unfold wrap, ReadAll.
    destruct (ReadFails resp); simpl; [done|].
    destruct (bool_decide (StatusCode resp = StatusOK)); [|done].
    by destruct (Unmarshal decodeSupersetResponse zeroSupersetResponse resp).
  - apply (apiCall_discipline "获取数据库列表失败: %w" databasesRequest
             (fun resp =>
                body ← wrap "读取响应失败: %w" (ReadAll resp);
                if bool_decide (StatusCode resp = StatusOK)
                then decodeDatabaseList resp body
                else fail (Errorf "API请求失败，状态码: %d, 响应: %s"
                                  [argInt (StatusCode resp); argString body]))).
    intros resp st0. rewrite bind_run. unfold wrap, ReadAll.
    destruct (ReadFails resp); simpl; [done|].
    destruct (bool_decide (StatusCode resp = StatusOK)); [|done].
    unfold decodeDatabaseList.
    destruct (Unmarshal decodeEnvelope nilSlice resp); [done|].
    by destruct (Unmarshal decodeDatabases nilSlice resp).
Qed.

(** The state in which a ready client sends its request. *)
Definition primed (st : Conf) : Conf :=
  mkConf (self st)
         (mkWorld (clock (world st) + Z.of_N (hd 0%N (ticks (world st))))
                  (tl (ticks (world st))) (script (world st)) (sent (world st))).

Lemma apiCall_ready {A : Type} format request (k : Response -> M A) st resp rest :
  ready st -> script (world st) = Answer resp :: rest ->
  apiCall format request k st =
  match wrap format (Do (request (self st) (token (csrfCache (self st))))) (primed st) with
  | (Ok resp, st3) => k resp st3
  | (Fail e, st3) => (Fail e, st3)
  end.
Proof.
  intros (Hin & Htok & Hfresh) Hscript. rewrite apiCall_run.
  assert (H1 : wrap "登录失败: %w" ensureLoggedIn st = (Ok tt, st)).
  { unfold wrap, ensureLoggedIn. rewrite bind_run. unfold client. by rewrite Hin. }
  rewrite H1.
  assert (H2 : wrap "获取CSRF令牌失败: %w" getCSRFToken st =
               (Ok (token (csrfCache (self st))), primed st)).
  { unfold wrap. by rewrite getCSRFToken_hit. }
  rewrite H2. simpl. by rewrite Hscript.
Qed.

Definition apiError (resp : Response) : error :=
  Errorf "API请求失败，状态码: %d, 响应: %s"
         [argInt (StatusCode resp); argString (Body resp)].

(** X21: on a client that is logged in and holds a fresh token, an
    answer whose status is not 200 makes [executeSQLInternal] and
    [GetDatabases] return the error that carries the status code and the
    body as received, after exactly one request; the client is left as it
    was, still counting as logged in and with the same token. *)
Theorem api_rejects_non_200 st resp rest :
  ready st ->
  script (world st) = Answer resp :: rest ->
  ReadFails resp = false -> StatusCode resp <> StatusOK ->
  (forall sql databaseID schema,
     (executeSQLInternal sql databaseID schema st).1 = Fail (apiError resp) /\
     self (executeSQLInternal sql databaseID schema st).2 = self st /\
     sent (world (executeSQLInternal sql databaseID schema st).2) =
       sent (world st) ++
       [executeRequest (self st) (token (csrfCache (self st))) sql databaseID schema]) /\
  (GetDatabases st).1 = Fail (apiError resp) /\
  self (GetDatabases st).2 = self st /\
  sent (world (GetDatabases st).2) =
    sent (world st) ++ [databasesRequest (self st) (token (csrfCache (self st)))].
Proof.
  intros Hready Hscript Hread Hcode.
  assert (Hrun : forall (A : Type) format request (k : Response -> string -> M A),
    let out :=
      apiCall format request
        (fun resp =>
           body ← wrap "读取响应失败: %w" (ReadAll resp);
           if bool_decide (StatusCode resp = StatusOK) then k resp body
           else fail (Errorf "API请求失败，状态码: %d, 响应: %s"
                             [argInt (StatusCode resp); argString body])) st in
    out.1 = Fail (apiError resp) /\ self out.2 = self st /\
    sent (world out.2) =
      sent (world st) ++ [request (self st) (token (csrfCache (self st)))]).
  { intros A format request k. simpl. rewrite (apiCall_ready _ _ _ st resp rest Hready Hscript).
    assert (Hdo : wrap format (Do (request (self st) (token (csrfCache (self st)))))
                    (primed st) =
                  (Ok resp,
                   mkConf (self st)
                     (mkWorld (clock (world (primed st))) (ticks (world (primed st))) rest
                        (sent (world st) ++
                         [request (self st) (token (csrfCache (self st)))])))).
    { unfold wrap, Do. simpl. by rewrite Hscript. }
    rewrite Hdo. rewrite bind_run. unfold wrap, ReadAll. rewrite Hread. simpl.
    rewrite bool_decide_eq_false_2 by done. done. }
  split.
  - intros sql databaseID schema.
    apply (Hrun SQLResult "执行SQL失败: %w"
             (fun c csrfToken => executeRequest c csrfToken sql databaseID schema)
             (fun resp body =>
                match Unmarshal decodeSupersetResponse zeroSupersetResponse resp with
                | None =>
                    fail (Errorf "解析响应失败: %w, 响应体: %s"
                                 [argError jsonError; argString body])
                | Some supersetResponse => mret (normalize supersetResponse)
                end)).
  - apply (Hrun (list Database) "获取数据库列表失败: %w" databasesRequest
             (fun resp body => decodeDatabaseList resp body)).
Qed.

(** A logged-in client whose session the backend no longer accepts. *)
Definition expiredSession : Conf :=
  mkConf (mkClient "http://superset:8088" "alice" "secret" true 30000000000
                   (mkCache "tok123" 5000) "http://superset:8088/superset/sqllab")
         (mkWorld 1000 [] [Answer (html 401 "" "{}")] []).

Lemma api_rejects_non_200_witness :
  ready expiredSession /\
  (GetDatabases expiredSession).1 = Fail (apiError (html 401 "" "{}")) /\
  loggedIn (self (GetDatabases expiredSession).2) = true.
Proof.
  assert (Hr : ready expiredSession).
  { split_and!; [reflexivity|discriminate|reflexivity]. }
  split; [exact Hr|].
  assert (Hcode : StatusCode (html 401 "" "{}") <> StatusOK) by discriminate.
  destruct (api_rejects_non_200 expiredSession (html 401 "" "{}") [] Hr
              eq_refl eq_refl Hcode) as (_ & Hres & Hself & _).
  split; [exact Hres|]. rewrite Hself. reflexivity.
Defined.

(** A new client facing a backend that serves the login page. *)
Definition fetched : Conf :=
  (getCSRFToken (facing [Answer (html 200 "" loginPage)])).2.

Lemma getCSRFToken_again_witness :
  getCSRFToken (facing [Answer (html 200 "" loginPage)]) = (Ok "tok123", fetched) /\
  (getCSRFToken fetched).1 = Ok "tok123" /\
  sent (world (getCSRFToken fetched).2) = sent (world fetched).
Proof.
  assert (H : getCSRFToken (facing [Answer (html 200 "" loginPage)]) =
              (Ok "tok123", fetched)) by reflexivity.
  split; [exact H|].
  assert (Hne : "tok123" <> "") by discriminate.
  destruct (getCSRFToken_again _ _ _ H Hne) as (_ & _ & _ & Hagain).
  assert (Hfresh : (clock (world fetched) + Z.of_N (hd 0%N (ticks (world fetched)))
                    < expiresAt (csrfCache (self fetched)))%Z) by reflexivity.
  destruct (Hagain Hfresh) as (H1 & _ & H2 & _). split; [exact H1|exact H2].
Defined.


End SupersetProps.

Module LockingProps.
Import Superset Locking SupersetProps.

(** *** Counting goroutines *)

Lemma count_insert (f : pc -> bool) (ts : list pc) (i : nat) p p' :
  ts !! i = Some p ->
  count f (<[i := p']> ts) + (if f p then 1 else 0) =
  count f ts + (if f p' then 1 else 0).
Proof.
  revert i. induction ts as [|q ts IH]; intros [|i] H; simpl in *; try done.
  - injection H as ->. lia.
  - specialize (IH i H). lia.
Qed.

Lemma count_lookup (f : pc -> bool) (ts : list pc) (i : nat) p :
  ts !! i = Some p -> (if f p then 1 else 0) <= count f ts.
Proof.
  revert i. induction ts as [|q ts IH]; intros [|i] H; simpl in *; try done.
  - injection H as ->. lia.
  - specialize (IH i H). lia.
Qed.

Lemma count_two (f : pc -> bool) (ts : list pc) (i j : nat) p q :
  i <> j -> ts !! i = Some p -> ts !! j = Some q ->
  (if f p then 1 else 0) + (if f q then 1 else 0) <= count f ts.
Proof.
  revert i j. induction ts as [|r ts IH]; intros [|i] [|j] Hne Hi Hj;
    simpl in *; try done.
  - injection Hi as ->. pose proof (count_lookup f ts j q Hj). lia.
  - injection Hj as ->. pose proof (count_lookup f ts i p Hi). lia.
  - assert (i <> j) by congruence. specialize (IH i j H Hi Hj). lia.
Qed.

Lemma count_mono f g ts :
  (forall p, f p = true -> g p = true) -> count f ts <= count g ts.
Proof.
  intros Hfg. induction ts as [|p ts IH]; simpl; [done|].
  specialize (Hfg p). destruct (f p), (g p); try lia.
Qed.

Lemma count_pos (f : pc -> bool) (ts : list pc) :
  0 < count f ts -> exists j q, ts !! j = Some q /\ f q = true.
Proof.
  induction ts as [|p ts IH]; simpl; [lia|].
  destruct (f p) eqn:Hp.
  - intros _. exists 0%nat, p. done.
  - intros H. destruct IH as (j & q & Hj & Hq); [lia|]. exists (S j), q. done.
Qed.

Lemma count_entry f calls :
  (forall p, entry p = true -> f p = false) ->
  Forall (fun p => entry p = true) calls -> count f calls = 0.
Proof.
  intros Hf. induction 1 as [|p ts Hp _ IH]; simpl; [done|].
  by rewrite (Hf p Hp), IH.
Qed.

(** *** The mutex *)

(** The mutex state agrees with where the goroutines stand: as many read
    locks are held as goroutines stand at read-locked points, the write
    lock is held exactly when one goroutine stands at a write-locked
    point, and never while a read lock is held. *)
Definition lock_inv (sys : System) : Prop :=
  count holdsR (threads sys) = readers (shared sys) /\
  count holdsW (threads sys) = (if writer (shared sys) then 1 else 0) /\
  (writer (shared sys) = true -> readers (shared sys) = 0).

Lemma thread_step_mutex p s p' s' :
  thread_step p s = Some (p', s') ->
  (holdsR p = true -> 1 <= readers s) ->
  (holdsW p = true -> writer s = true) ->
  (writer s = true -> readers s = 0) ->
  readers s' + (if holdsR p then 1 else 0) =
    readers s + (if holdsR p' then 1 else 0) /\
  (if writer s' then 1 else 0) + (if holdsW p then 1 else 0) =
    (if writer s then 1 else 0) + (if holdsW p' then 1 else 0) /\
  (writer s' = true -> readers s' = 0).
Proof.
  intros Hstep HR HW Hex.
  destruct p; simpl in *.
  all: repeat match type of Hstep with
    | context [if ?b then _ else _] => destruct b eqn:?
    | context [match ?x with _ => _ end] => destruct x eqn:?
    end.
  all: try discriminate Hstep.
  all: injection Hstep as <- <-.
  all: simpl in *.
  all: try (specialize (HR eq_refl)); try (specialize (HW eq_refl)).
  all: repeat match goal with
    | H : _ || _ = false |- _ => apply orb_false_iff in H as [? ?]
    | H : negb _ = false |- _ => apply negb_false_iff in H
    | H : (_ =? _)%nat = true |- _ => apply Nat.eqb_eq in H
    end.
  all: repeat match goal with
    | H : writer ?s = _ |- _ => rewrite H in *
    end.
  all: split_and!; try lia; try done; try (intros; lia).
  all: intros Hw; specialize (Hex Hw); lia.
Qed.

Lemma lock_inv_exec a sys sys' :
  lock_inv sys -> exec a sys = Some sys' -> lock_inv sys'.
Proof.
  intros (HR & HW & Hex) Hexec. destruct a as [i|d]; simpl in Hexec.
  - destruct (threads sys !! i) as [p|] eqn:Hp; [|done]. simpl in Hexec.
    destruct (thread_step p (shared sys)) as [[p' s']|] eqn:Hstep; [|done].
    simpl in Hexec. injection Hexec as <-.
    pose proof (count_lookup holdsR _ _ _ Hp) as HcR.
    pose proof (count_lookup holdsW _ _ _ Hp) as HcW.
    pose proof (count_insert holdsR _ _ _ p' Hp) as HiR.
    pose proof (count_insert holdsW _ _ _ p' Hp) as HiW.
    destruct (thread_step_mutex _ _ _ _ Hstep) as (H1 & H2 & H3).
    + intros H. rewrite H in HcR. lia.
    + intros H. rewrite H in HcW. destruct (writer (shared sys)); [done|lia].
    + exact Hex.
    + unfold lock_inv; simpl. split_and!; [lia|lia|exact H3].
  - injection Hexec as <-. unfold lock_inv; simpl. done.
Qed.

Lemma lock_inv_boot c t script calls :
  Forall (fun p => entry p = true) calls -> lock_inv (boot c t script calls).
Proof.
  intros Hcalls. unfold lock_inv, boot; simpl.
  rewrite !count_entry; try done; by intros [].
Qed.

Lemma lock_inv_execs schedule sys sys' :
  lock_inv sys -> execs schedule sys = Some sys' -> lock_inv sys'.
Proof.
  revert sys. induction schedule as [|a rest IH]; intros sys Hinv Hrun; simpl in *.
  - by injection Hrun as <-.
  - destruct (exec a sys) as [sys1|] eqn:Ha; [|done]. simpl in Hrun.
    eapply IH; [|exact Hrun]. eapply lock_inv_exec; done.
Qed.

(** A goroutine at a write-locked point is alone with the mutex. *)
Lemma alone sys i p :
  lock_inv sys -> threads sys !! i = Some p -> holdsW p = true ->
  forall j q, j <> i -> threads sys !! j = Some q ->
              holdsW q = false /\ holdsR q = false.
Proof.
  intros (HR & HW & Hex) Hi Hp j q Hne Hj.
  pose proof (count_two holdsW _ _ _ _ _ (not_eq_sym Hne) Hi Hj) as H2.
  pose proof (count_lookup holdsW _ _ _ Hi) as H1.
  pose proof (count_lookup holdsR _ _ _ Hj) as H3.
  rewrite Hp in H1, H2.
  destruct (writer (shared sys)); [|lia].
  rewrite (Hex eq_refl) in HR.
  split; [destruct (holdsW q)|destruct (holdsR q)]; try done; lia.
Qed.

Lemma holding_writer sys i p :
  lock_inv sys -> threads sys !! i = Some p -> holdsW p = true ->
  writer (shared sys) = true /\ readers (shared sys) = 0.
Proof.
  intros (HR & HW & Hex) Hi Hp.
  pose proof (count_lookup holdsW _ _ _ Hi) as H1. rewrite Hp in H1.
  destruct (writer (shared sys)); [auto|lia].
Qed.

Lemma exec_instant a sys sys' :
  exec a sys = Some sys' -> (instant (shared sys) <= instant (shared sys'))%Z.
Proof.
  destruct a as [i|d]; simpl.
  - destruct (threads sys !! i) as [p|]; [|done]. simpl.
    destruct (thread_step p (shared sys)) as [[p' s']|] eqn:Hstep; [|done].
    simpl. intros [= <-]. simpl.
    destruct p; simpl in Hstep;
      repeat match type of Hstep with
      | context [if ?b then _ else _] => destruct b
      | context [match ?x with _ => _ end] => destruct x
      end; try discriminate Hstep; injection Hstep as <- <-; simpl; lia.
  - intros [= <-]. simpl. lia.
Qed.

Lemma execs_instant schedule sys sys' :
  execs schedule sys = Some sys' ->
  (instant (shared sys) <= instant (shared sys'))%Z.
Proof.
  revert sys. induction schedule as [|a rest IH]; intros sys Hrun; simpl in *.
  - injection Hrun as <-. lia.
  - destruct (exec a sys) as [sys1|] eqn:Ha; [|done]. simpl in Hrun.
    pose proof (exec_instant _ _ _ Ha). specialize (IH _ Hrun). lia.
Qed.

(** *** One fetch for all callers of [getCSRFToken] *)

Section OneFetch.

(** The backend's script begins with a login page holding the non-empty
    token [tok]; the calls start at instant [t0]. *)
Variable script0 : list Exchange.
Variable tok : string.
Variable t0 : Z.
Hypothesis Hpage : received script0 = Ok tok.
Hypothesis Hne : tok <> "".

(** The cache holds the token of the first page, valid for at least the
    time to live counted from [t0], and one request has been sent. *)
Definition full (s : Shared) : Prop :=
  token (csrfCache (me s)) = tok /\
  (t0 + csrfTokenCacheDuration <= expiresAt (csrfCache (me s)))%Z /\
  backend s = tl script0 /\
  length (requests s) = 1.

(** What must hold of the shared state for a goroutine to stand where it
    stands. *)
Definition good (s : Shared) (p : pc) : Prop :=
  match p with
  | TokStart | TokRLocked | TokMiss | TokUnlocked | TokLocked => True
  | TokFetching =>
      token (csrfCache (me s)) = "" /\ backend s = script0 /\
      length (requests s) = 1
  | TokStoring t =>
      t = tok /\ token (csrfCache (me s)) = "" /\ backend s = tl script0 /\
      length (requests s) = 1
  | TokStoringExpiry t e =>
      t = tok /\ (t0 + csrfTokenCacheDuration <= e)%Z /\
      token (csrfCache (me s)) = tok /\ backend s = tl script0 /\
      length (requests s) = 1
  | TokHit t | TokReturning (Ok t) | TokDone (Ok t) => t = tok /\ full s
  | _ => False
  end.

Definition busy (p : pc) : bool :=
  match p with
  | TokFetching | TokStoring _ | TokStoringExpiry _ _ => true
  | _ => false
  end.

(** Nothing fetched yet; or the one fetch is under way; or it is done. *)
Definition phase (sys : System) : Prop :=
  let s := shared sys in
  (requests s = [] /\ token (csrfCache (me s)) = "" /\ backend s = script0 /\
   count busy (threads sys) = 0) \/
  (length (requests s) = 1 /\ count busy (threads sys) = 1) \/
  (full s /\ count busy (threads sys) = 0).

Definition single (sys : System) : Prop :=
  lock_inv sys /\
  (t0 <= instant (shared sys))%Z /\
  (forall j q, threads sys !! j = Some q -> good (shared sys) q) /\
  phase sys.

(** The first exchange of the script is an answer: the request for the
    login page can be built. *)
Lemma script0_answer : exists page more, script0 = Answer page :: more.
Proof.
  destruct script0 as [|[reason|reason|page] more]; try discriminate Hpage. eauto.
Qed.

Lemma good_ext s s' q :
  me s' = me s -> backend s' = backend s -> requests s' = requests s ->
  good s q -> good s' q.
Proof.
  intros Hm Hb Hr. unfold good, full. rewrite Hm, Hb, Hr. done.
Qed.

Lemma full_cached s :
  full s -> (instant s < t0 + csrfTokenCacheDuration)%Z -> cached s = true.
Proof.
  intros (Ht & He & _) Hclk. unfold cached. rewrite Ht.
  rewrite bool_decide_eq_false_2 by done.
  rewrite bool_decide_eq_true_2 by lia. done.
Qed.

Lemma cached_token s : cached s = true -> token (csrfCache (me s)) <> "".
Proof.
  unfold cached. intros H%andb_true_iff. destruct H as [H _].
  apply negb_true_iff, bool_decide_eq_false in H. done.
Qed.

(** While the fetch is under way nobody else holds the mutex. *)
Lemma busy_other sys i p :
  lock_inv sys -> count busy (threads sys) = 1 ->
  threads sys !! i = Some p -> busy p = false ->
  holdsW p = false /\ holdsR p = false /\ writer (shared sys) = true.
Proof.
  intros Hlock Hbusy Hi Hp.
  destruct (count_pos busy (threads sys)) as (j & q & Hj & Hq); [lia|].
  assert (HqW : holdsW q = true) by (by destruct q).
  assert (Hji : i <> j) by (intros ->; congruence).
  destruct (alone sys j q Hlock Hj HqW i p Hji Hi) as [? ?].
  destruct (holding_writer sys j q Hlock Hj HqW) as [? ?]. done.
Qed.

(** A step that leaves the cache, the script and the request log alone. *)
Lemma single_frame sys i p p' s' :
  single sys -> threads sys !! i = Some p ->
  lock_inv (mkSystem s' (<[i := p']> (threads sys))) ->
  me s' = me (shared sys) -> backend s' = backend (shared sys) ->
  requests s' = requests (shared sys) ->
  (instant (shared sys) <= instant s')%Z ->
  busy p = busy p' -> good (shared sys) p' ->
  single (mkSystem s' (<[i := p']> (threads sys))).
Proof.
  intros (Hlock & Ht & Hgood & Hphase) Hi Hlock' Hm Hb Hr Hclk Hbusy Hp'.
  pose proof (count_insert busy _ _ _ p' Hi) as Hcount. rewrite Hbusy in Hcount.
  assert (Hc : count busy (<[i := p']> (threads sys)) = count busy (threads sys)) by lia.
  split_and!; simpl.
  - exact Hlock'.
  - lia.
  - intros j q Hj. apply list_lookup_insert_Some in Hj as [(-> & <- & _)|[_ Hj]].
    + by apply (good_ext (shared sys)).
    + apply (good_ext (shared sys)); eauto.
  - unfold phase, full in *; simpl. rewrite Hc, Hm, Hb, Hr. exact Hphase.
Qed.

(** A step by the goroutine holding the write lock that changes the
    cache, the script or the request log. *)
Lemma single_writer sys i p p' s' :
  single sys -> threads sys !! i = Some p -> holdsW p = true ->
  lock_inv (mkSystem s' (<[i := p']> (threads sys))) ->
  (instant (shared sys) <= instant s')%Z ->
  (full (shared sys) -> full s') ->
  good s' p' ->
  phase (mkSystem s' (<[i := p']> (threads sys))) ->
  single (mkSystem s' (<[i := p']> (threads sys))).
Proof.
  intros (Hlock & Ht & Hgood & Hphase) Hi HpW Hlock' Hclk Hfull Hp' Hphase'.
  split_and!; simpl; [exact Hlock'|lia| |exact Hphase'].
  intros j q Hj. apply list_lookup_insert_Some in Hj as [(-> & <- & _)|[Hne' Hj]].
  - exact Hp'.
  - destruct (alone sys i p Hlock Hi HpW j q (not_eq_sym Hne') Hj) as [HqW HqR].
    specialize (Hgood j q Hj).
    destruct q as [| | | | | | | | | |r| | | | | | | | |]; try done.
    destruct r as [t|e]; [|done]. destruct Hgood as [-> Hf]. split; auto.
Qed.

Lemma single_exec a sys sys' :
  single sys ->
  (instant (shared sys) < t0 + csrfTokenCacheDuration)%Z ->
  exec a sys = Some sys' -> single sys'.
Proof.
  intros Hsingle Hclk Hexec.
  pose proof Hsingle as (Hlock & Ht & Hgood & Hphase).
  pose proof (lock_inv_exec _ _ _ Hlock Hexec) as Hlock'.
  destruct a as [i|d]; simpl in Hexec.
  2:{ injection Hexec as <-. split_and!; simpl; [exact Hlock'|lia|exact Hgood|exact Hphase]. }
  destruct (threads sys !! i) as [p|] eqn:Hi; [|done]. simpl in Hexec.
  destruct (thread_step p (shared sys)) as [[p' s']|] eqn:Hstep; [|done].
  simpl in Hexec. injection Hexec as <-.
  pose proof (Hgood i p Hi) as Hp.
  pose proof (count_insert busy _ _ _ p' Hi) as Hcount.
  pose proof (count_lookup busy _ _ _ Hi) as Hle.
  destruct p; simpl in Hstep, Hp; try done.
  - (* TokStart *)
    destruct (writer (shared sys)); [done|]. injection Hstep as <- <-.
    by apply (single_frame sys i TokStart).
  - (* TokRLocked *)
    destruct (cached (shared sys)) eqn:Hc; injection Hstep as <- <-.
    + apply (single_frame sys i TokRLocked); try done; try lia. simpl.
      destruct Hphase as [(_ & Hempty & _)|[(_ & Hb)|(Hf & _)]].
      * by apply cached_token in Hc.
      * by destruct (busy_other sys i TokRLocked Hlock Hb Hi eq_refl) as (_ & ? & _).
      * split; [apply Hf|exact Hf].
    + apply (single_frame sys i TokRLocked); try done; try lia.
  - (* TokHit *)
    injection Hstep as <- <-. by apply (single_frame sys i (TokHit tok0)).
  - (* TokMiss *)
    injection Hstep as <- <-. by apply (single_frame sys i TokMiss).
  - (* TokUnlocked *)
    destruct (writer (shared sys) || negb (readers (shared sys) =? 0)%nat); [done|].
    injection Hstep as <- <-. by apply (single_frame sys i TokUnlocked).
  - (* TokLocked *)
    destruct (cached (shared sys)) eqn:Hc.
    + injection Hstep as <- <-.
      apply (single_frame sys i TokLocked); try done; try lia. simpl.
      destruct Hphase as [(_ & Hempty & _)|[(_ & Hb)|(Hf & _)]].
      * by apply cached_token in Hc.
      * by destruct (busy_other sys i TokLocked Hlock Hb Hi eq_refl) as (? & _).
      * split; [apply Hf|exact Hf].
    + destruct Hphase as [(Hreq & Hempty & Hscript & Hb)|[(_ & Hb)|(Hf & _)]].
      * destruct script0_answer as (page & more & Hs0).
        rewrite Hscript, Hs0 in Hstep. injection Hstep as <- <-.
        apply (single_writer sys i TokLocked); try done; simpl; try lia.
        -- intros (Hf & _). congruence.
        -- rewrite Hreq. done.
        -- right; left. simpl. rewrite Hreq. simpl in *. split; [done|lia].
      * by destruct (busy_other sys i TokLocked Hlock Hb Hi eq_refl) as (? & _).
      * rewrite (full_cached _ Hf Hclk) in Hc. done.
  - (* TokFetching *)
    destruct Hp as (Hempty & Hscript & Hlen).
    rewrite Hscript, Hpage in Hstep. injection Hstep as <- <-.
    apply (single_writer sys i TokFetching); try done; simpl; try lia.
    + intros (Hf & _). congruence.
    + by rewrite Hscript.
    + right; left. simpl in *. split; [done|].
      destruct Hphase as [(_ & _ & _ & Hb)|[(_ & Hb)|(_ & Hb)]]; lia.
  - (* TokStoring *)
    destruct Hp as (-> & Hempty & Hscript & Hlen). injection Hstep as <- <-.
    apply (single_writer sys i (TokStoring tok)); try done; simpl; try lia.
    + intros (Hf & _). congruence.
    + split_and!; try done. lia.
    + right; left. simpl in *. split; [done|].
      destruct Hphase as [(_ & _ & _ & Hb)|[(_ & Hb)|(_ & Hb)]]; lia.
  - (* TokStoringExpiry *)
    destruct Hp as (-> & Hexp & Htoken & Hscript & Hlen). injection Hstep as <- <-.
    assert (Hf' : full (withClient (withExpiry expiry (me (shared sys))) (shared sys))).
    { unfold full; simpl. done. }
    apply (single_writer sys i (TokStoringExpiry tok expiry)); try done; simpl; try lia.
    right; right. split; [exact Hf'|]. simpl in *.
    destruct Hphase as [(_ & _ & _ & Hb)|[(_ & Hb)|(_ & Hb)]]; lia.
  - (* TokReturning *)
    injection Hstep as <- <-. destruct r as [t|e]; [|done].
    by apply (single_frame sys i (TokReturning (Ok t))).
Qed.

Lemma single_execs schedule sys sys' :
  single sys -> execs schedule sys = Some sys' ->
  (instant (shared sys') < t0 + csrfTokenCacheDuration)%Z ->
  single sys'.
Proof.
  revert sys. induction schedule as [|a rest IH]; intros sys Hs Hrun Hclk; simpl in *.
  - by injection Hrun as <-.
  - destruct (exec a sys) as [sys1|] eqn:Ha; [|done]. simpl in Hrun.
    pose proof (execs_instant _ _ _ Hrun).
    pose proof (exec_instant _ _ _ Ha).
    apply (IH sys1); [|done|done].
    apply (single_exec a sys); [done|lia|done].
Qed.

Lemma single_boot c n :
  token (csrfCache c) = "" ->
  single (boot c t0 script0 (replicate n TokStart)).
Proof.
  intros Hempty. split_and!.
  - apply lock_inv_boot. by apply Forall_replicate.
  - simpl. lia.
  - intros j q Hj. apply lookup_replicate in Hj as [-> _]. done.
  - left. simpl. split_and!; try done.
    apply count_entry; [by intros []|]. by apply Forall_replicate.
Qed.

End OneFetch.

(** *** Two concurrent callers *)

(** Both callers pass the first check before either takes the write
    lock; the first then runs to its return, the second after it. *)
Definition interleaved (first second : nat) : list action :=
  [Run 0; Run 1; Run 0; Run 1; Run 0; Run 1]
  ++ replicate first (Run 0) ++ replicate second (Run 1).

Definition twoCallers (script : list Exchange) : System :=
  boot alice 1000 script [TokStart; TokStart].

(** A login page whose token field is empty, and one without the field. *)
Definition emptyTokenPage : string :=
  "<input " +:+ csrfNameAttr +:+ " " +:+ csrfValueOpen +:+ String dquote ">".

Definition maintenancePage : string := "<html>down for maintenance</html>".

(** C8, as stated, fails: two concurrent callers on an empty cache send
    two requests when the page fetched by the first holds an empty token
    (the first caller returns it and writes it, and the cache still counts
    as empty), and when it holds no token (the first caller returns an
    error and writes nothing). *)
Lemma two_callers_fetch_twice :
  (fun sys => (threads sys, length (requests (shared sys)))) <$>
    execs (interleaved 6 6)
          (twoCallers [Answer (html 200 "" emptyTokenPage);
                       Answer (html 200 "" emptyTokenPage)])
  = Some ([TokDone (Ok ""); TokDone (Ok "")], 2) /\
  (fun sys => (threads sys, length (requests (shared sys)))) <$>
    execs (interleaved 4 6)
          (twoCallers [Answer (html 200 "" maintenancePage);
                       Answer (html 200 "" loginPage)])
  = Some ([TokDone (Fail (Errorf "未找到CSRF令牌" []));
           TokDone (Ok "tok123")], 2).
Proof. vm_compute. split; reflexivity. Qed.

(** With a page that holds a token the same schedule sends one request,
    and the second caller returns the token the first one wrote. *)
Example two_callers_fetch_once :
  (fun sys => (threads sys, length (requests (shared sys)))) <$>
    execs (interleaved 6 3) (twoCallers [Answer (html 200 "" loginPage)])
  = Some ([TokDone (Ok "tok123"); TokDone (Ok "tok123")], 1).
Proof. vm_compute. reflexivity. Qed.

(** *** A lone caller

    A call of [getCSRFToken] that is alone on the client, run step by
    step, returns what the sequential method returns and leaves the
    client, the backend and the request log as the method leaves them,
    with the mutex released. *)
Definition byItself (c : Client) (t : Z) (x : list Exchange) : Conf :=
  mkConf c (mkWorld t [] x []).

Ltac crunch :=
  unfold execs, exec, thread_step, cached, received, unbuilt, getCSRFToken,
    cacheFresh, client, wrap, ReadAll, Now, NewRequestWithContext, Do, fail,
    setCsrfCache, mbind, mret, M_bind, M_ret;
  simpl.

(** X22: a call of [getCSRFToken] that is alone on the client, run step
    by step under the mutex, runs to its return and returns what the
    sequential method returns; it leaves the client, the backend and the
    request log as the method leaves them, and the mutex released. *)
Lemma lone_caller_agrees c t x :
  exists k sys,
    execs (replicate k (Run 0)) (boot c t x [TokStart]) = Some sys /\
    threads sys = [TokDone (getCSRFToken (byItself c t x)).1] /\
    me (shared sys) = self (getCSRFToken (byItself c t x)).2 /\
    requests (shared sys) = sent (world (getCSRFToken (byItself c t x)).2) /\
    backend (shared sys) = script (world (getCSRFToken (byItself c t x)).2) /\
    readers (shared sys) = 0 /\ writer (shared sys) = false.
Proof.
  destruct c as [url user pass inside tmo [tk ex] lab].
  unfold byItself, boot.
  destruct (decide (tk = "")) as [->|Htk].
  - (* nothing cached *)
    simpl. destruct x as [|[reason|reason|resp] rest].
    + exists 7%nat; eexists; crunch. split_and!; reflexivity.
    + exists 6%nat; eexists; crunch. split_and!; reflexivity.
    + exists 7%nat; eexists; crunch. split_and!; reflexivity.
    + destruct (ReadFails resp) eqn:Hread.
      * exists 7%nat; eexists; crunch. rewrite Hread; simpl.
        split_and!; reflexivity.
      * destruct (FindStringSubmatch (Body resp)) as [tok|] eqn:Hfind.
        -- exists 9%nat; eexists; crunch. rewrite Hread; simpl.
           rewrite Hfind; simpl. rewrite ?Z.add_0_r.
           split_and!; reflexivity.
        -- exists 7%nat; eexists; crunch. rewrite Hread; simpl.
           rewrite Hfind; simpl. split_and!; reflexivity.
  - (* a token is cached *)
    assert (Hb : bool_decide (tk = "") = false)
      by (by rewrite bool_decide_eq_false_2).
    destruct (decide (t < ex)%Z) as [Hlt|Hge].
    + assert (Hf : bool_decide (t < ex)%Z = true)
        by (by rewrite bool_decide_eq_true_2).
      exists 3%nat; eexists; crunch.
      repeat (progress (try (destruct (decide (tk = "")) as [|_]; [done|]);
                        rewrite ?Hb, ?Z.add_0_r, ?Hf; simpl)).
      split_and!; reflexivity.
    + assert (Hf : bool_decide (t < ex)%Z = false)
        by (by rewrite bool_decide_eq_false_2).
      destruct x as [|[reason|reason|resp] rest].
      * exists 7%nat; eexists; crunch.
        repeat (progress (try (destruct (decide (tk = "")) as [|_]; [done|]);
                          rewrite ?Hb, ?Z.add_0_r, ?Hf; simpl)).
        split_and!; reflexivity.
      * exists 6%nat; eexists; crunch.
        repeat (progress (try (destruct (decide (tk = "")) as [|_]; [done|]);
                          rewrite ?Hb, ?Z.add_0_r, ?Hf; simpl)).
        split_and!; reflexivity.
      * exists 7%nat; eexists; crunch.
        repeat (progress (try (destruct (decide (tk = "")) as [|_]; [done|]);
                          rewrite ?Hb, ?Z.add_0_r, ?Hf; simpl)).
        split_and!; reflexivity.
      * destruct (ReadFails resp) eqn:Hread;
          [|destruct (FindStringSubmatch (Body resp)) as [tok|] eqn:Hfind].
        -- exists 7%nat; eexists; crunch.
           repeat (progress (try (destruct (decide (tk = "")) as [|_]; [done|]);
                             rewrite ?Hb, ?Z.add_0_r, ?Hf, ?Hread; simpl)).
           split_and!; reflexivity.
        -- exists 9%nat; eexists; crunch.
           repeat (progress (try (destruct (decide (tk = "")) as [|_]; [done|]);
                             rewrite ?Hb, ?Z.add_0_r, ?Hf, ?Hread, ?Hfind; simpl)).
           split_and!; reflexivity.
        -- exists 7%nat; eexists; crunch.
           repeat (progress (try (destruct (decide (tk = "")) as [|_]; [done|]);
                             rewrite ?Hb, ?Z.add_0_r, ?Hf, ?Hread, ?Hfind; simpl)).
           split_and!; reflexivity.
Qed.

(** C8, amended.  For any calls of [getCSRFToken], [ensureLoggedIn] and
    [Login] on one client, under any scheduling: at most one goroutine
    holds the write lock, hence at most one token fetch and at most one
    login attempt are in flight at any time (and never one of each); and
    while a cache entry is half written no other goroutine stands at a
    point where the entry is read.  If moreover the calls are calls of
    [getCSRFToken] on an empty cache, the first page the backend serves
    holds a non-empty token, and less than the token's time to live has
    passed since the calls began, then at most one request has been sent,
    and every caller that has returned has returned that token, with
    exactly one request sent: no second caller issued a fetch of its
    own. *)
Theorem one_fetch_at_a_time c t script calls schedule sys :
  Forall (fun p => entry p = true) calls ->
  execs schedule (boot c t script calls) = Some sys ->
  (count holdsW (threads sys) <= 1 /\
   count fetching (threads sys) <= 1 /\
   count loggingIn (threads sys) <= 1 /\
   count (fun p => fetching p || loggingIn p) (threads sys) <= 1) /\
  (forall i tok e,
     threads sys !! i = Some (TokStoringExpiry tok e) ->
     forall j q, j <> i -> threads sys !! j = Some q -> readsCache q = false) /\
  (forall tok n,
     calls = replicate n TokStart ->
     token (csrfCache c) = "" ->
     received script = Ok tok -> tok <> "" ->
     (instant (shared sys) < t + csrfTokenCacheDuration)%Z ->
     length (requests (shared sys)) <= 1 /\
     forall i r,
       threads sys !! i = Some (TokDone r) ->
       r = Ok tok /\ length (requests (shared sys)) = 1).
Proof.
  intros Hcalls Hrun.
  pose proof (lock_inv_execs _ _ _ (lock_inv_boot c t script calls Hcalls) Hrun)
    as Hlock.
  split_and!.
  - destruct Hlock as (_ & HW & _). destruct (writer (shared sys)); lia.
  - destruct Hlock as (_ & HW & _).
    pose proof (count_mono fetching holdsW (threads sys)) as Hm.
    destruct (writer (shared sys)); (etrans; [apply Hm; by intros []|lia]).
  - destruct Hlock as (_ & HW & _).
    pose proof (count_mono loggingIn holdsW (threads sys)) as Hm.
    destruct (writer (shared sys)); (etrans; [apply Hm; by intros []|lia]).
  - destruct Hlock as (_ & HW & _).
    pose proof (count_mono (fun p => fetching p || loggingIn p) holdsW
                           (threads sys)) as Hm.
    destruct (writer (shared sys)); (etrans; [apply Hm; by intros []|lia]).
  - intros i tok e Hi j q Hne Hj.
    destruct (alone sys i _ Hlock Hi eq_refl j q Hne Hj) as [HqW HqR].
    by destruct q.
  - intros tok n -> Hempty Hpage Htok Hclk.
    pose proof (single_execs script tok t Hpage Htok schedule _ sys
                  (single_boot script tok t c n Hempty) Hrun Hclk)
      as (_ & _ & Hgood & Hphase).
    split.
    + destruct Hphase as [(Hreq & _)|[(Hlen & _)|((_ & _ & _ & Hlen) & _)]];
        [rewrite Hreq; simpl; lia|lia|lia].
    + intros i r Hi. specialize (Hgood i _ Hi). simpl in Hgood.
      destruct r as [t'|e]; [|done].
      destruct Hgood as (-> & _ & _ & _ & Hlen). done.
Qed.

(** The state two interleaved callers reach against a backend serving
    the login page. *)
Definition bothReturned : System :=
  default (twoCallers [])
    (execs (interleaved 6 3) (twoCallers [Answer (html 200 "" loginPage)])).

Lemma one_fetch_at_a_time_witness :
  Forall (fun p => entry p = true) [TokStart; TokStart] /\
  execs (interleaved 6 3) (twoCallers [Answer (html 200 "" loginPage)]) =
    Some bothReturned /\
  count holdsW (threads bothReturned) <= 1 /\
  length (requests (shared bothReturned)) <= 1 /\
  (forall i r, threads bothReturned !! i = Some (TokDone r) -> r = Ok "tok123").
Proof.
  assert (H1 : Forall (fun p => entry p = true) [TokStart; TokStart]).
  { apply Forall_cons. split; [reflexivity|].
    apply Forall_cons. split; [reflexivity|]. apply Forall_nil_2. }
  assert (H2 : execs (interleaved 6 3) (twoCallers [Answer (html 200 "" loginPage)]) =
               Some bothReturned)
    by (vm_compute; reflexivity).
  split; [exact H1|]. split; [exact H2|].
  destruct (one_fetch_at_a_time alice 1000 [Answer (html 200 "" loginPage)]
              [TokStart; TokStart] (interleaved 6 3) _ H1 H2)
    as ((H & _) & _ & Hone).
  split; [exact H|].
  assert (Hempty : "tok123" <> "") by discriminate.
  assert (Hclk : (instant (shared bothReturned) < 1000 + csrfTokenCacheDuration)%Z)
    by reflexivity.
  destruct (Hone "tok123" 2%nat eq_refl eq_refl eq_refl Hempty Hclk) as [Hlen Hdone].
  split; [exact Hlen|].
  intros i r Hi. exact (proj1 (Hdone i r Hi)).
Defined.


(** *** Calls return *)

Definition returned (p : pc) : bool :=
  match p with
  | TokDone _ | LoginDone _ => true
  | _ => false
  end.

(** The number of steps a goroutine can still take, at most. *)
Definition fuel (p : pc) : nat :=
  match p with
  | TokStart => 9
  | TokRLocked => 8
  | TokMiss => 7
  | TokUnlocked => 6
  | TokLocked => 5
  | TokFetching => 4
  | TokStoring _ => 3
  | TokStoringExpiry _ _ => 2
  | TokHit _ | TokReturning _ => 1
  | TokDone _ => 0
  | EnsStart => 8
  | EnsRLocked => 7
  | EnsChecked _ => 6
  | LoginStart => 5
  | LoginLocked => 4
  | LoginFetching => 3
  | LoginPosting => 2
  | LoginReturning _ => 1
  | LoginDone _ => 0
  end.

Fixpoint remaining (ts : list pc) : nat :=
  match ts with
  | [] => 0
  | p :: rest => fuel p + remaining rest
  end.

Fixpoint runs (schedule : list action) : nat :=
  match schedule with
  | [] => 0
  | Run _ :: rest => S (runs rest)
  | Tick _ :: rest => runs rest
  end.

Lemma thread_step_fuel p s p' s' :
  thread_step p s = Some (p', s') -> fuel p' < fuel p.
Proof.
  intros Hstep. destruct p; simpl in Hstep;
    repeat match type of Hstep with
    | context [if ?b then _ else _] => destruct b
    | context [match ?x with _ => _ end] => destruct x
    end; try discriminate Hstep; injection Hstep as <- <-; simpl; lia.
Qed.

Lemma remaining_insert (ts : list pc) (i : nat) p p' :
  ts !! i = Some p ->
  remaining (<[i := p']> ts) + fuel p = remaining ts + fuel p'.
Proof.
  revert i. induction ts as [|q ts IH]; intros [|i] H; try done.
  - injection H as ->. change (<[0%nat := p']> (p :: ts)) with (p' :: ts).
    cbn [remaining]. lia.
  - specialize (IH i H). change (<[S i := p']> (q :: ts)) with (q :: <[i := p']> ts).
    cbn [remaining]. lia.
Qed.

Lemma exec_remaining a sys sys' :
  exec a sys = Some sys' ->
  remaining (threads sys') + runs [a] <= remaining (threads sys).
Proof.
  destruct a as [i|d]; simpl.
  - destruct (threads sys !! i) as [p|] eqn:Hp; [|done]. simpl.
    destruct (thread_step p (shared sys)) as [[p' s']|] eqn:Hstep; [|done].
    simpl. intros [= <-]. simpl.
    pose proof (thread_step_fuel _ _ _ _ Hstep).
    pose proof (remaining_insert _ _ _ p' Hp). lia.
  - intros [= <-]. simpl. lia.
Qed.

Lemma execs_remaining schedule sys sys' :
  execs schedule sys = Some sys' ->
  remaining (threads sys') + runs schedule <= remaining (threads sys).
Proof.
  revert sys. induction schedule as [|a rest IH]; intros sys Hrun.
  - injection Hrun as <-. simpl. lia.
  - cbn [execs] in Hrun.
    destruct (exec a sys) as [sys1|] eqn:Ha; [|done]. simpl in Hrun.
    pose proof (exec_remaining _ _ _ Ha) as H1. specialize (IH _ Hrun).
    assert (Hr : runs (a :: rest) = runs [a] + runs rest) by (by destruct a).
    lia.
Qed.

Lemma remaining_entry calls :
  Forall (fun p => entry p = true) calls -> remaining calls <= 9 * length calls.
Proof.
  induction 1 as [|p ts Hp _ IH]; [simpl; lia|].
  cbn [remaining length]. destruct p; try discriminate Hp; simpl; lia.
Qed.

(** A goroutine that holds a lock can always take its next step. *)
Lemma holder_steps p s :
  holdsR p = true \/ holdsW p = true -> is_Some (thread_step p s).
Proof.
  intros [H|H]; destruct p; try discriminate H; simpl;
    repeat match goal with
    | |- context [if ?b then _ else _] => destruct b
    | |- context [match ?x with _ => _ end] => destruct x
    end; eauto.
Qed.

Lemma free_steps p s :
  writer s = false -> readers s = 0 -> returned p = false ->
  is_Some (thread_step p s).
Proof.
  intros Hw Hr Hp. destruct p; try discriminate Hp; simpl; rewrite ?Hw, ?Hr; simpl;
    repeat match goal with
    | |- context [if ?b then _ else _] => destruct b
    | |- context [match ?x with _ => _ end] => destruct x
    end; eauto.
Qed.

Lemma run_thread sys (i : nat) p :
  threads sys !! i = Some p -> is_Some (thread_step p (shared sys)) ->
  is_Some (exec (Run i) sys).
Proof.
  intros Hi [[p' s'] Hstep]. simpl. rewrite Hi. simpl. rewrite Hstep. simpl. eauto.
Qed.

Lemma lock_inv_progress sys (i : nat) p :
  lock_inv sys -> threads sys !! i = Some p -> returned p = false ->
  exists j, is_Some (exec (Run j) sys).
Proof.
  intros (HR & HW & Hex) Hi Hp.
  destruct (writer (shared sys)) eqn:Hw.
  - destruct (count_pos holdsW (threads sys)) as (j & q & Hj & Hq); [lia|].
    exists j. apply (run_thread sys j q Hj). apply holder_steps. auto.
  - destruct (readers (shared sys)) as [|n] eqn:Hr.
    + exists i. apply (run_thread sys i p Hi). by apply free_steps.
    + destruct (count_pos holdsR (threads sys)) as (j & q & Hj & Hq); [lia|].
      exists j. apply (run_thread sys j q Hj). apply holder_steps. auto.
Qed.

Lemma all_returned_free sys :
  lock_inv sys -> Forall (fun p => returned p = true) (threads sys) ->
  readers (shared sys) = 0 /\ writer (shared sys) = false.
Proof.
  intros (HR & HW & _) Hall.
  assert (H0 : forall f, (forall p, returned p = true -> f p = false) ->
                         count f (threads sys) = 0).
  { intros f Hf. clear HR HW. revert Hall. generalize (threads sys).
    induction 1 as [|p ts Hp _ IH]; simpl; [done|].
    by rewrite (Hf p Hp), IH. }
  rewrite H0 in HR by (by intros []). rewrite H0 in HW by (by intros []).
  split; [done|]. by destruct (writer (shared sys)).
Qed.

(** X23: the client's mutex discipline cannot deadlock.  Whatever calls
    of [getCSRFToken], [ensureLoggedIn] and [Login] run on one client and
    however they have been interleaved, if no goroutine can take a step
    then every call has returned and the mutex is free; so while a call
    is still under way some goroutine can move. *)
Theorem no_deadlock c t script calls schedule sys :
  Forall (fun p => entry p = true) calls ->
  execs schedule (boot c t script calls) = Some sys ->
  (forall i, exec (Run i) sys = None) ->
  Forall (fun p => returned p = true) (threads sys) /\
  readers (shared sys) = 0 /\ writer (shared sys) = false.
Proof.
  intros Hcalls Hrun Hstuck.
  pose proof (lock_inv_execs _ _ _ (lock_inv_boot c t script calls Hcalls) Hrun)
    as Hlock.
  assert (Hall : Forall (fun p => returned p = true) (threads sys)).
  { apply Forall_lookup. intros i p Hi.
    destruct (returned p) eqn:Hp; [done|].
    destruct (lock_inv_progress sys i p Hlock Hi Hp) as [j [sys' Hj]].
    rewrite Hstuck in Hj. done. }
  split; [done|]. by apply all_returned_free.
Qed.

Lemma finish sys n :
  lock_inv sys -> remaining (threads sys) <= n ->
  exists rest sys',
    execs rest sys = Some sys' /\
    Forall (fun p => returned p = true) (threads sys') /\
    runs rest = length rest.
Proof.
  revert sys. induction n as [|n IH]; intros sys Hlock Hn.
  - exists [], sys. split; [done|]. split; [|done].
    apply Forall_lookup. intros i p Hi. destruct (returned p) eqn:Hp; [done|].
    destruct (lock_inv_progress sys i p Hlock Hi Hp) as [j [sys' Hj]].
    pose proof (exec_remaining _ _ _ Hj) as H. simpl in H. lia.
  - destruct (decide (Forall (fun p => returned p = true) (threads sys))) as [Hall|Hnot].
    { exists [], sys. done. }
    apply not_Forall_Exists in Hnot; [|apply _].
    apply Exists_exists in Hnot as (p & Hin & Hp).
    apply list_elem_of_lookup in Hin as [i Hi].
    apply not_true_is_false in Hp.
    destruct (lock_inv_progress sys i p Hlock Hi Hp) as [j [sys1 Hj]].
    pose proof (exec_remaining _ _ _ Hj) as H. simpl in H.
    destruct (IH sys1) as (rest & sys' & Hrun & Hall & Hruns).
    { eapply lock_inv_exec; done. }
    { lia. }
    exists (Run j :: rest), sys'. split_and!.
    + cbn [execs]. rewrite Hj. done.
    + done.
    + simpl. by rewrite Hruns.
Qed.

(** X24: from every state the concurrent calls can reach, the schedule
    can be continued so that all calls return with the mutex released;
    and a call takes at most nine steps, so the steps taken and left
    number at most nine per call: no call loops or retries. *)
Theorem every_call_can_return c t script calls schedule sys :
  Forall (fun p => entry p = true) calls ->
  execs schedule (boot c t script calls) = Some sys ->
  exists rest sys',
    execs rest sys = Some sys' /\
    Forall (fun p => returned p = true) (threads sys') /\
    readers (shared sys') = 0 /\ writer (shared sys') = false /\
    runs schedule + length rest <= 9 * length calls.
Proof.
  intros Hcalls Hrun.
  pose proof (lock_inv_execs _ _ _ (lock_inv_boot c t script calls Hcalls) Hrun)
    as Hlock.
  destruct (finish sys _ Hlock (le_n _)) as (rest & sys' & Hrest & Hall & Hruns).
  exists rest, sys'. split; [done|]. split; [done|].
  pose proof (lock_inv_execs _ _ _ Hlock Hrest) as Hlock'.
  destruct (all_returned_free sys' Hlock' Hall) as [? ?]. split; [done|]. split; [done|].
  pose proof (execs_remaining _ _ _ Hrun) as H1.
  pose proof (execs_remaining _ _ _ Hrest) as H2.
  pose proof (remaining_entry calls Hcalls). simpl in H1. lia.
Qed.

(** *** One login for all callers *)

Section OneLogin.

(** The client is not logged in; the backend's script begins with a login
    page holding the token [tok], followed by the answer [resp] to the
    POST, which [Login] accepts. *)
Variable c0 : Client.
Variable script0 : list Exchange.
Variable tok : string.
Variable resp : Response.
Variable rest0 : list Exchange.
Hypothesis Hout : loggedIn c0 = false.
Hypothesis Hpage : received script0 = Ok tok.
Hypothesis Hpost : tl script0 = Answer resp :: rest0.
Hypothesis Hacc : accepted resp = true.

(** The login has been made. *)
Definition logged (s : Shared) : Prop :=
  me s = inside c0 /\ backend s = rest0 /\
  requests s = [loginPageRequest c0; loginRequest c0 tok].

Definition sound (s : Shared) (p : pc) : Prop :=
  match p with
  | EnsStart | EnsRLocked | LoginStart | LoginLocked => True
  | EnsChecked seen => seen = true -> logged s
  | LoginFetching =>
      me s = c0 /\ backend s = script0 /\ requests s = [loginPageRequest c0]
  | LoginPosting =>
      me s = c0 /\ backend s = tl script0 /\
      requests s = [loginPageRequest c0; loginRequest c0 tok]
  | LoginReturning (Ok _) | LoginDone (Ok _) => logged s
  | _ => False
  end.

Definition posting (p : pc) : bool :=
  match p with
  | LoginFetching | LoginPosting => true
  | _ => false
  end.

(** Nothing sent yet; or the one login is under way; or it is done. *)
Definition stage (sys : System) : Prop :=
  let s := shared sys in
  (me s = c0 /\ backend s = script0 /\ requests s = [] /\
   count posting (threads sys) = 0) \/
  count posting (threads sys) = 1 \/
  (logged s /\ count posting (threads sys) = 0).

Definition once (sys : System) : Prop :=
  lock_inv sys /\
  (forall j q, threads sys !! j = Some q -> sound (shared sys) q) /\
  stage sys.

(** The first exchange of the script is an answer: the request for the
    login page can be built. *)
Lemma page_answer : exists page more, script0 = Answer page :: more.
Proof.
  destruct script0 as [|[reason|reason|page] more]; try discriminate Hpage. eauto.
Qed.

Lemma sound_ext s s' q :
  me s' = me s -> backend s' = backend s -> requests s' = requests s ->
  sound s q -> sound s' q.
Proof.
  intros Hm Hb Hr. unfold sound, logged. rewrite Hm, Hb, Hr. done.
Qed.

Lemma logged_in s : logged s -> loggedIn (me s) = true.
Proof. intros (-> & _). reflexivity. Qed.

Lemma posting_other sys (i : nat) p :
  lock_inv sys -> count posting (threads sys) = 1 ->
  threads sys !! i = Some p -> posting p = false ->
  holdsW p = false /\ holdsR p = false.
Proof.
  intros Hlock Hbusy Hi Hp.
  destruct (count_pos posting (threads sys)) as (j & q & Hj & Hq); [lia|].
  assert (HqW : holdsW q = true) by (by destruct q).
  assert (Hji : i <> j) by (intros ->; congruence).
  exact (alone sys j q Hlock Hj HqW i p Hji Hi).
Qed.

(** A step that leaves the client, the script and the request log alone. *)
Lemma once_frame sys (i : nat) p p' s' :
  once sys -> threads sys !! i = Some p ->
  lock_inv (mkSystem s' (<[i := p']> (threads sys))) ->
  me s' = me (shared sys) -> backend s' = backend (shared sys) ->
  requests s' = requests (shared sys) ->
  posting p = posting p' -> sound (shared sys) p' ->
  once (mkSystem s' (<[i := p']> (threads sys))).
Proof.
  intros (Hlock & Hgood & Hstage) Hi Hlock' Hm Hb Hr Hbusy Hp'.
  pose proof (count_insert posting _ _ _ p' Hi) as Hcount. rewrite Hbusy in Hcount.
  assert (Hc : count posting (<[i := p']> (threads sys)) = count posting (threads sys))
    by lia.
  split_and!; simpl.
  - exact Hlock'.
  - intros j q Hj. apply list_lookup_insert_Some in Hj as [(-> & <- & _)|[_ Hj]].
    + by apply (sound_ext (shared sys)).
    + apply (sound_ext (shared sys)); eauto.
  - unfold stage, logged in *; simpl. rewrite Hc, Hm, Hb, Hr. exact Hstage.
Qed.

(** A step of the goroutine holding the write lock that changes the
    client, the script or the request log. *)
Lemma once_writer sys (i : nat) p p' s' :
  once sys -> threads sys !! i = Some p -> holdsW p = true ->
  lock_inv (mkSystem s' (<[i := p']> (threads sys))) ->
  ~ logged (shared sys) ->
  sound s' p' ->
  stage (mkSystem s' (<[i := p']> (threads sys))) ->
  once (mkSystem s' (<[i := p']> (threads sys))).
Proof.
  intros (Hlock & Hgood & Hstage) Hi HpW Hlock' Hnot Hp' Hstage'.
  split_and!; simpl; [exact Hlock'| |exact Hstage'].
  intros j q Hj. apply list_lookup_insert_Some in Hj as [(-> & <- & _)|[Hne' Hj]].
  - exact Hp'.
  - destruct (alone sys i p Hlock Hi HpW j q (not_eq_sym Hne') Hj) as [HqW HqR].
    specialize (Hgood j q Hj).
    destruct q as [| | | | | | | | | | | | | | | | | | |r]; try done.
    destruct r as [u|e]; [|done]. done.
Qed.

Lemma once_exec a sys sys' : once sys -> exec a sys = Some sys' -> once sys'.
Proof.
  intros Honce Hexec.
  pose proof Honce as (Hlock & Hgood & Hstage).
  pose proof (lock_inv_exec _ _ _ Hlock Hexec) as Hlock'.
  destruct a as [i|d]; simpl in Hexec.
  2:{ injection Hexec as <-. split_and!; simpl; [exact Hlock'|exact Hgood|exact Hstage]. }
  destruct (threads sys !! i) as [p|] eqn:Hi; [|done]. simpl in Hexec.
  destruct (thread_step p (shared sys)) as [[p' s']|] eqn:Hstep; [|done].
  simpl in Hexec. injection Hexec as <-.
  pose proof (Hgood i p Hi) as Hp.
  pose proof (count_insert posting _ _ _ p' Hi) as Hcount.
  pose proof (count_lookup posting _ _ _ Hi) as Hle.
  destruct p; simpl in Hstep, Hp; try done.
  - (* EnsStart *)
    destruct (writer (shared sys)); [done|]. injection Hstep as <- <-.
    by apply (once_frame sys i EnsStart).
  - (* EnsRLocked *)
    injection Hstep as <- <-.
    apply (once_frame sys i EnsRLocked); try done. simpl. intros Hseen.
    destruct Hstage as [(Hme & _)|[Hb|(Hl & _)]].
    + rewrite Hme, Hout in Hseen. done.
    + by destruct (posting_other sys i EnsRLocked Hlock Hb Hi eq_refl) as (_ & ?).
    + exact Hl.
  - (* EnsChecked *)
    destruct seen; injection Hstep as <- <-.
    + apply (once_frame sys i (EnsChecked true)); try done. simpl. by apply Hp.
    + by apply (once_frame sys i (EnsChecked false)).
  - (* LoginStart *)
    destruct (writer (shared sys) || negb (readers (shared sys) =? 0)%nat); [done|].
    injection Hstep as <- <-. by apply (once_frame sys i LoginStart).
  - (* LoginLocked *)
    destruct (loggedIn (me (shared sys))) eqn:Hin.
    + injection Hstep as <- <-.
      apply (once_frame sys i LoginLocked); try done. simpl.
      destruct Hstage as [(Hme & _)|[Hb|(Hl & _)]].
      * rewrite Hme, Hout in Hin. done.
      * by destruct (posting_other sys i LoginLocked Hlock Hb Hi eq_refl) as (? & _).
      * exact Hl.
    + destruct Hstage as [(Hme & Hscript & Hreq & Hb)|[Hb|(Hl & _)]].
      * destruct page_answer as (page & more & Hs0).
        rewrite Hscript, Hs0 in Hstep. injection Hstep as <- <-.
        apply (once_writer sys i LoginLocked); try done; simpl.
        -- intros Hl. apply logged_in in Hl. congruence.
        -- rewrite Hme, Hreq. done.
        -- right; left. simpl in *. lia.
      * by destruct (posting_other sys i LoginLocked Hlock Hb Hi eq_refl) as (? & _).
      * apply logged_in in Hl. congruence.
  - (* LoginFetching *)
    destruct Hp as (Hme & Hscript & Hreq).
    rewrite Hscript, Hpage, Hpost in Hstep. injection Hstep as <- <-.
    apply (once_writer sys i LoginFetching); try done; simpl.
    + intros Hl. apply logged_in in Hl. rewrite Hme, Hout in Hl. done.
    + rewrite Hme, Hscript, Hreq. done.
    + right; left. simpl in *. 
      destruct Hstage as [(_ & _ & _ & Hb)|[Hb|(_ & Hb)]]; lia.
  - (* LoginPosting *)
    destruct Hp as (Hme & Hscript & Hreq).
    rewrite Hscript, Hpost in Hstep.
    rewrite checkLogin_accepted in Hstep by (simpl; congruence).
    simpl in Hstep. injection Hstep as <- <-.
    assert (Hl' : logged (withClient (inside (me (shared sys))) (answered (shared sys)))).
    { unfold logged; simpl. rewrite Hme, Hscript, Hpost, Hreq. done. }
    apply (once_writer sys i LoginPosting); try done; simpl.
    + intros Hl. apply logged_in in Hl. rewrite Hme, Hout in Hl. done.
    + right; right. split; [exact Hl'|]. simpl in *.
      destruct Hstage as [(_ & _ & _ & Hb)|[Hb|(_ & Hb)]]; lia.
  - (* LoginReturning *)
    injection Hstep as <- <-. destruct r as [u|e]; [|done].
    by apply (once_frame sys i (LoginReturning (Ok u))).
Qed.

Lemma once_execs schedule sys sys' :
  once sys -> execs schedule sys = Some sys' -> once sys'.
Proof.
  revert sys. induction schedule as [|a rest IH]; intros sys Hs Hrun; simpl in *.
  - by injection Hrun as <-.
  - destruct (exec a sys) as [sys1|] eqn:Ha; [|done]. simpl in Hrun.
    apply (IH sys1); [|done]. by apply (once_exec a sys).
Qed.

Lemma once_boot t calls :
  Forall (fun p => p = EnsStart \/ p = LoginStart) calls ->
  once (boot c0 t script0 calls).
Proof.
  intros Hcalls. split_and!.
  - apply lock_inv_boot. eapply Forall_impl; [exact Hcalls|].
    by intros p [->| ->].
  - intros j q Hj. rewrite Forall_lookup in Hcalls.
    by destruct (Hcalls j q Hj) as [->| ->].
  - left. simpl. split_and!; try done.
    apply count_entry; [by intros []|].
    eapply Forall_impl; [exact Hcalls|]. by intros p [->| ->].
Qed.

Lemma once_requests sys :
  once sys ->
  requests (shared sys) `prefix_of` [loginPageRequest c0; loginRequest c0 tok].
Proof.
  intros (Hlock & Hgood & Hstage).
  destruct Hstage as [(_ & _ & Hreq & _)|[Hb|((_ & _ & Hreq) & _)]].
  - rewrite Hreq. apply prefix_nil.
  - destruct (count_pos posting (threads sys)) as (j & q & Hj & Hq); [lia|].
    specialize (Hgood j q Hj).
    destruct q; try done; destruct Hgood as (_ & _ & ->).
    + by exists [loginRequest c0 tok].
    + done.
  - by rewrite Hreq.
Qed.

End OneLogin.

(** X25: when any number of [ensureLoggedIn] and [Login] calls run
    concurrently on a client that is not logged in, and the backend
    serves a login page with a token and accepts the POST, the
    credentials are posted once: in every interleaving the requests sent
    are, in order, one GET of the login page and one POST, and every call
    that has returned has returned nil with the client logged in. *)
Theorem one_login_for_all c t script calls schedule sys tok resp rest :
  Forall (fun p => p = EnsStart \/ p = LoginStart) calls ->
  loggedIn c = false ->
  received script = Ok tok -> tl script = Answer resp :: rest ->
  accepted resp = true ->
  execs schedule (boot c t script calls) = Some sys ->
  requests (shared sys) `prefix_of` [loginPageRequest c; loginRequest c tok] /\
  forall i r,
    threads sys !! i = Some (LoginDone r) ->
    r = Ok tt /\ loggedIn (me (shared sys)) = true /\
    requests (shared sys) = [loginPageRequest c; loginRequest c tok].
Proof.
  intros Hcalls Hout Hpage Hpost Hacc Hrun.
  pose proof (once_execs c script tok resp rest Hout Hpage Hpost Hacc schedule _ sys
                (once_boot c script tok rest t calls Hcalls) Hrun) as Honce.
  split; [by apply (once_requests c script tok rest)|].
  intros i r Hi. destruct Honce as (_ & Hgood & _).
  specialize (Hgood i _ Hi). simpl in Hgood.
  destruct r as [[]|e]; [|done].
  destruct Hgood as (Hme & _ & Hreq). rewrite Hme. done.
Qed.


(** Two callers that have both taken the read lock. *)
Definition bothReading : System :=
  default (twoCallers [])
    (execs [Run 0; Run 1] (twoCallers [Answer (html 200 "" loginPage)])).

Lemma no_deadlock_witness :
  (forall i, exec (Run i) bothReturned = None) /\
  Forall (fun p => returned p = true) (threads bothReturned) /\
  readers (shared bothReturned) = 0 /\ writer (shared bothReturned) = false.
Proof.
  assert (H1 : Forall (fun p => entry p = true) [TokStart; TokStart]).
  { apply Forall_cons. split; [reflexivity|].
    apply Forall_cons. split; [reflexivity|]. apply Forall_nil_2. }
  assert (H2 : execs (interleaved 6 3) (twoCallers [Answer (html 200 "" loginPage)]) =
               Some bothReturned)
    by (vm_compute; reflexivity).
  assert (H3 : forall i, exec (Run i) bothReturned = None)
    by (intros [|[|i]]; vm_compute; reflexivity).
  split; [exact H3|].
  exact (no_deadlock alice 1000 [Answer (html 200 "" loginPage)]
           [TokStart; TokStart] (interleaved 6 3) bothReturned H1 H2 H3).
Defined.

Lemma every_call_can_return_witness :
  execs [Run 0; Run 1] (twoCallers [Answer (html 200 "" loginPage)]) =
    Some bothReading /\
  exists rest sys',
    execs rest bothReading = Some sys' /\
    Forall (fun p => returned p = true) (threads sys') /\
    length rest <= 16.
Proof.
  assert (H1 : Forall (fun p => entry p = true) [TokStart; TokStart]).
  { apply Forall_cons. split; [reflexivity|].
    apply Forall_cons. split; [reflexivity|]. apply Forall_nil_2. }
  assert (H2 : execs [Run 0; Run 1] (twoCallers [Answer (html 200 "" loginPage)]) =
               Some bothReading)
    by (vm_compute; reflexivity).
  split; [exact H2|].
  destruct (every_call_can_return alice 1000 [Answer (html 200 "" loginPage)]
              [TokStart; TokStart] [Run 0; Run 1] bothReading H1 H2)
    as (rest & sys' & Hrun & Hall & _ & _ & Hlen).
  exists rest, sys'. split; [exact Hrun|]. split; [exact Hall|].
  simpl in Hlen. lia.
Defined.

(** Two callers of [ensureLoggedIn] on a new client, against a backend
    that serves the login page and, on the POST, the page a login that
    succeeded ends on (the client having followed the redirect to it). *)
Definition welcoming : list Exchange :=
  [Answer (html 200 "" loginPage); Answer (html 200 "" welcomePage)].

Definition bothLoggedIn : System :=
  default (twoCallers [])
    (execs (interleaved 5 3) (boot alice 1000 welcoming [EnsStart; EnsStart])).

Lemma one_login_for_all_witness :
  Forall (fun x => returnable x = true) welcoming /\
  accepted (html 200 "" welcomePage) = true /\
  execs (interleaved 5 3) (boot alice 1000 welcoming [EnsStart; EnsStart]) =
    Some bothLoggedIn /\
  threads bothLoggedIn = [LoginDone (Ok tt); LoginDone (Ok tt)] /\
  requests (shared bothLoggedIn) =
    [loginPageRequest alice; loginRequest alice "tok123"].
Proof.
  assert (H1 : Forall (fun p => p = EnsStart \/ p = LoginStart) [EnsStart; EnsStart]).
  { apply Forall_cons. split; [by left|].
    apply Forall_cons. split; [by left|]. apply Forall_nil_2. }
  assert (H2 : execs (interleaved 5 3) (boot alice 1000 welcoming [EnsStart; EnsStart]) =
               Some bothLoggedIn)
    by (vm_compute; reflexivity).
  assert (H3 : threads bothLoggedIn = [LoginDone (Ok tt); LoginDone (Ok tt)])
    by (vm_compute; reflexivity).
  split.
  { apply Forall_cons. split; [reflexivity|].
    apply Forall_cons. split; [reflexivity|]. apply Forall_nil_2. }
  split; [reflexivity|].
  split; [exact H2|]. split; [exact H3|].
  destruct (one_login_for_all alice 1000 welcoming [EnsStart; EnsStart]
              (interleaved 5 3) bothLoggedIn "tok123"
              (html 200 "" welcomePage) [] H1 eq_refl eq_refl eq_refl
              eq_refl H2) as [_ Hdone].
  assert (H0 : threads bothLoggedIn !! 0%nat = Some (LoginDone (Ok tt)))
    by (rewrite H3; reflexivity).
  exact (proj2 (proj2 (Hdone 0%nat (Ok tt) H0))).
Defined.

End LockingProps.
